(** * cities-pollution-api: record classifier, TTL cache and enrichment queue

    A shallow embedding of
      - [src/utils/dataValidator.js]   (class [DataValidator]),
      - [src/utils/cache.js]           (class [MemoryCache]),
      - [src/services/wikipediaService.js] (class [WikipediaService]),
      - [src/middleware/validation.js] ([validatePaginationParams]),
      - [src/services/pollutionService.js] (class [PollutionService]),
    together with the fragment of ECMAScript they rely on (strings as
    sequences of UTF-16 code units, Number values, the coercions
    [ToBoolean], [ToNumber], [ToString], [parseFloat]). *)

From Stdlib Require Import ZArith NArith QArith Ascii String List Bool Lia.
From stdpp Require Import base option list gmap.

Local Open Scope N_scope.

(** ** ECMAScript strings *)

Module JS.

(** A String value is a finite sequence of 16-bit code units; [length]
    counts code units, as [String.prototype.length] does. *)
Abbreviation jsstring := (list N).

(** ASCII literals of the source, as code units. *)
Definition js (s : string) : jsstring :=
  List.map N_of_ascii (list_ascii_of_string s).

Definition isDigit (c : N) : bool := (48 <=? c) && (c <=? 57).
Definition isUpper (c : N) : bool := (65 <=? c) && (c <=? 90).
Definition isLower (c : N) : bool := (97 <=? c) && (c <=? 122).

(** The class [[a-zA-Z]]. *)
Definition isLetter (c : N) : bool := isUpper c || isLower c.

(** WhiteSpace and LineTerminator code units: what [String.prototype.trim]
    strips and what the class [\s] matches. *)
Definition isWhiteSpace (c : N) : bool :=
  ((9 <=? c) && (c <=? 13)) || (c =? 32) || (c =? 160) || (c =? 5760)
  || ((8192 <=? c) && (c <=? 8202)) || (c =? 8232) || (c =? 8233)
  || (c =? 8239) || (c =? 8287) || (c =? 12288) || (c =? 65279).

Fixpoint trimStart (s : jsstring) : jsstring :=
  match s with
  | c :: s' => if isWhiteSpace c then trimStart s' else s
  | [] => []
  end.

Definition trimEnd (s : jsstring) : jsstring := rev (trimStart (rev s)).

Definition trim (s : jsstring) : jsstring := trimEnd (trimStart s).

Definition jsstring_eqb (s t : jsstring) : bool :=
  bool_decide (s = t).

(** [Canonicalize] of a [/i] pattern without the [u] flag maps a code unit
    to its upper-case form, except that a non-ASCII code unit is never
    mapped into ASCII; on the patterns of this program (ASCII letters and
    [/]) only the ASCII part of the mapping can produce a match. *)
Definition canonicalize (c : N) : N := if isLower c then c - 32 else c.

Definition eqbI (s t : jsstring) : bool :=
  jsstring_eqb (List.map canonicalize s) (List.map canonicalize t).

Fixpoint isPrefix (p s : jsstring) : bool :=
  match p, s with
  | [], _ => true
  | a :: p', b :: s' => (a =? b) && isPrefix p' s'
  | _ :: _, [] => false
  end.

Definition isSuffix (p s : jsstring) : bool := isPrefix (rev p) (rev s).

(** [String.prototype.includes]. *)
Fixpoint includes (s word : jsstring) : bool :=
  isPrefix word s ||
  match s with
  | [] => false
  | _ :: s' => includes s' word
  end.

(** [String.prototype.toLowerCase], as far as ASCII output is concerned:
    the code units whose lower-case image contains an ASCII letter are
    [A]-[Z], U+0130 (to [i] followed by U+0307) and U+212A (to [k]).  The
    image of any other code unit lies outside ASCII and it is kept as it
    is here; the callers only look for ASCII words in the result. *)
Definition lowerUnit (c : N) : jsstring :=
  if isUpper c then [c + 32]
  else if c =? 304 then [105; 775]
  else if c =? 8490 then [107]
  else [c].

Definition toLowerCase (s : jsstring) : jsstring :=
  List.concat (List.map lowerUnit s).

(** [s.split(/\s+/)]: the pieces between maximal runs of white space. *)
Fixpoint splitWhiteSpace_aux (cur : jsstring) (inRun : bool) (s : jsstring)
  : list jsstring :=
  match s with
  | [] => [rev cur]
  | c :: s' =>
      if isWhiteSpace c then
        if inRun then splitWhiteSpace_aux cur true s'
        else rev cur :: splitWhiteSpace_aux [] true s'
      else splitWhiteSpace_aux (c :: cur) false s'
  end.

Definition splitWhiteSpace (s : jsstring) : list jsstring :=
  splitWhiteSpace_aux [] false s.

(** [s.substring(0, n)] for [0 <= n]. *)
Definition substring0 (n : nat) (s : jsstring) : jsstring := firstn n s.

(** [s.lastIndexOf(".")]-style search for one code unit: the index of the
    last occurrence, or [-1]. *)
Fixpoint lastIndexOf_aux (c : N) (s : jsstring) (i : Z) (found : Z) : Z :=
  match s with
  | [] => found
  | d :: s' => lastIndexOf_aux c s' (i + 1)%Z (if d =? c then i else found)
  end.

Definition lastIndexOf (c : N) (s : jsstring) : Z :=
  lastIndexOf_aux c s 0%Z (-1)%Z.

(** ** ECMAScript Number values

    A Number is NaN, an infinity or a finite binary64 value.  A finite
    value is kept as the rational it denotes, so the comparisons of the
    source are comparisons of rationals; the two zeros are one value here
    (the program only compares numbers and parses them, and [-0 < 0] is
    false). *)
Inductive number : Type :=
  | NaN
  | Inf (negative : bool)
  | Fin (q : Q).

Definition Qltb (a b : Q) : bool := negb (Qle_bool b a).

(** [x < y] on Numbers; false as soon as one side is NaN. *)
Definition lt (x y : number) : bool :=
  match x, y with
  | NaN, _ | _, NaN => false
  | Inf true, Inf true => false
  | Inf true, _ => true
  | _, Inf true => false
  | Inf false, _ => false
  | Fin _, Inf false => true
  | Fin a, Fin b => Qltb a b
  end.

(** [x > y] is [y < x]. *)
Definition gt (x y : number) : bool := lt y x.

Definition numIsNaN (x : number) : bool :=
  match x with NaN => true | _ => false end.

Definition numIsFinite (x : number) : bool :=
  match x with Fin _ => true | _ => false end.

Definition ofZ (z : Z) : number := Fin (inject_Z z).

(** *** Rounding a positive rational to binary64 (nearest, ties to even) *)

(** [binade p q] is the integer [k] with [2^k <= p/q < 2^(k+1)]. *)
Definition binade (p q : Z) : Z :=
  let k := (Z.log2 p - Z.log2 q)%Z in
  if (0 <=? k)%Z
  then (if (q * 2 ^ k <=? p)%Z then k else k - 1)%Z
  else (if (q <=? p * 2 ^ (- k))%Z then k else k - 1)%Z.

(** The integer nearest to [n / d], the even one on a tie. *)
Definition roundHalfEven (n d : Z) : Z :=
  let f := (n / d)%Z in
  match (2 * (n mod d) ?= d)%Z with
  | Lt => f
  | Gt => (f + 1)%Z
  | Eq => if Z.even f then f else (f + 1)%Z
  end.

(** The value [m * 2^e] as a reduced fraction. *)
Definition dyadic (m e : Z) : Q :=
  if (0 <=? e)%Z then inject_Z (m * 2 ^ e)
  else Qred (Qmake m (Z.to_pos (2 ^ (- e)))).

(** [roundToDouble p q], for [0 < p] and [0 < q]: the binary64 value
    nearest to [p / q]; 53 significant bits, least exponent -1074,
    overflow to infinity from [2^1024] on. *)
Definition roundToDouble (p q : Z) : number :=
  let e := Z.max (binade p q - 52) (-1074) in
  let m := if (0 <=? e)%Z then roundHalfEven p (q * 2 ^ e)
           else roundHalfEven (p * 2 ^ (- e)) q in
  if (971 <? e)%Z || ((e =? 971)%Z && (2 ^ 53 <=? m)%Z) then Inf false
  else Fin (dyadic m e).

Definition negate (x : number) : number :=
  match x with
  | NaN => NaN
  | Inf s => Inf (negb s)
  | Fin q => Fin (Qred (- q))
  end.

(** The Number for the decimal [m * 10^e10], [0 <= m]. *)
Definition ofDecimal (m e10 : Z) : number :=
  if (m =? 0)%Z then Fin 0
  else if (0 <=? e10)%Z then roundToDouble (m * 10 ^ e10) 1
  else roundToDouble m (10 ^ (- e10)).

(** *** Numeric literals in strings *)

Fixpoint takeDigits (s : jsstring) : list N * jsstring :=
  match s with
  | c :: s' =>
      if isDigit c then let '(ds, r) := takeDigits s' in (c :: ds, r)
      else ([], s)
  | [] => ([], [])
  end.

Definition digitsValue (ds : list N) : Z :=
  fold_left (fun acc d => (10 * acc + (Z.of_N d - 48))%Z) ds 0%Z.

(** The optional [ExponentPart] at the head of [s]: its value and what
    follows it; [(0, s)] when [s] does not start with a complete one. *)
Definition takeExponent (s : jsstring) : Z * jsstring :=
  match s with
  | c :: s1 =>
      if (c =? 101) || (c =? 69) then
        let '(neg, s2) :=
          match s1 with
          | 43 :: s2 => (false, s2)
          | 45 :: s2 => (true, s2)
          | _ => (false, s1)
          end in
        let '(ds, r) := takeDigits s2 in
        match ds with
        | [] => (0%Z, s)
        | _ => ((if neg then - digitsValue ds else digitsValue ds)%Z, r)
        end
      else (0%Z, s)
  | [] => (0%Z, s)
  end.

(** The longest prefix of [s] that is a [StrUnsignedDecimalLiteral]: its
    Number and the rest of the string, or [None] when there is none. *)
Definition takeUnsignedDecimal (s : jsstring) : option (number * jsstring) :=
  if isPrefix (js "Infinity") s then Some (Inf false, skipn 8 s)
  else
    let '(ints, r1) := takeDigits s in
    let mantissa :=
      match r1 with
      | 46 :: r1' =>
          let '(fracs, r2) := takeDigits r1' in
          match ints, fracs with
          | [], [] => None
          | _, _ => Some (ints ++ fracs, Z.of_nat (length fracs), r2)
          end
      | _ =>
          match ints with
          | [] => None
          | _ => Some (ints, 0%Z, r1)
          end
      end in
    match mantissa with
    | None => None
    | Some (ds, scale, r2) =>
        let '(ex, r3) := takeExponent r2 in
        Some (ofDecimal (digitsValue ds) (ex - scale), r3)
    end.

(** The longest [StrDecimalLiteral] prefix (an optional sign first). *)
Definition takeDecimal (s : jsstring) : option (number * jsstring) :=
  match s with
  | 43 :: s' => takeUnsignedDecimal s'
  | 45 :: s' =>
      match takeUnsignedDecimal s' with
      | Some (x, r) => Some (negate x, r)
      | None => None
      end
  | _ => takeUnsignedDecimal s
  end.

(** The global [parseFloat] on a String: leading white space is skipped,
    the longest decimal-literal prefix is read, the rest is ignored. *)
Definition parseFloat (s : jsstring) : number :=
  match takeDecimal (trimStart s) with
  | Some (x, _) => x
  | None => NaN
  end.

(** Digits of a [NonDecimalIntegerLiteral] in the given radix. *)
Definition digitOf (radix : Z) (c : N) : option Z :=
  let v := (if isDigit c then Z.of_N c - 48
            else if isLower c then Z.of_N c - 87
            else if isUpper c then Z.of_N c - 55
            else radix)%Z in
  if (v <? radix)%Z then Some v else None.

Fixpoint radixValue (radix : Z) (acc : Z) (s : jsstring) : option Z :=
  match s with
  | [] => Some acc
  | c :: s' =>
      match digitOf radix c with
      | Some v => radixValue radix (radix * acc + v)%Z s'
      | None => None
      end
  end.

Definition ofRadixDigits (radix : Z) (s : jsstring) : number :=
  match s with
  | [] => NaN
  | _ => match radixValue radix 0 s with
         | Some v => ofDecimal v 0
         | None => NaN
         end
  end.

(** [StringToNumber]: the whole string, white space trimmed, must be a
    numeric literal; the empty string is [0]. *)
Definition StringToNumber (s : jsstring) : number :=
  match trim s with
  | [] => Fin 0
  | 48 :: 120 :: r | 48 :: 88 :: r => ofRadixDigits 16 r
  | 48 :: 111 :: r | 48 :: 79 :: r => ofRadixDigits 8 r
  | 48 :: 98 :: r | 48 :: 66 :: r => ofRadixDigits 2 r
  | t => match takeDecimal t with
         | Some (x, []) => x
         | _ => NaN
         end
  end.

(** *** Number::toString (radix 10) *)

Definition numEqb (x y : number) : bool :=
  match x, y with
  | Inf a, Inf b => Bool.eqb a b
  | Fin a, Fin b => Qeq_bool a b
  | _, _ => false
  end.

Fixpoint uintDigits (u : Decimal.uint) : jsstring :=
  match u with
  | Decimal.Nil => []
  | Decimal.D0 u => 48 :: uintDigits u
  | Decimal.D1 u => 49 :: uintDigits u
  | Decimal.D2 u => 50 :: uintDigits u
  | Decimal.D3 u => 51 :: uintDigits u
  | Decimal.D4 u => 52 :: uintDigits u
  | Decimal.D5 u => 53 :: uintDigits u
  | Decimal.D6 u => 54 :: uintDigits u
  | Decimal.D7 u => 55 :: uintDigits u
  | Decimal.D8 u => 56 :: uintDigits u
  | Decimal.D9 u => 57 :: uintDigits u
  end.

(** The decimal digits of a non-negative integer. *)
Definition decimalDigits (z : Z) : jsstring :=
  match z with
  | Zpos p => uintDigits (Pos.to_uint p)
  | _ => [48]
  end.

(** [a/b < 10^n]. *)
Definition ltPow10 (a b n : Z) : bool :=
  if (0 <=? n)%Z then (a <? b * 10 ^ n)%Z else (a * 10 ^ (- n) <? b)%Z.

Fixpoint searchUp (fuel : nat) (a b n : Z) : Z :=
  if ltPow10 a b n then n
  else match fuel with
       | O => n
       | S f => searchUp f a b (n + 1)%Z
       end.

(** The [n] with [10^(n-1) <= a/b < 10^n], found upwards from an
    under-estimate taken from the binary logarithms. *)
Definition decimalExponent (a b : Z) : Z :=
  searchUp 8 a b (((Z.log2 a - Z.log2 b - 1) * 30103) / 100000 - 1)%Z.

(** The least [k], from [k] upwards, for which a [k]-digit decimal
    [s * 10^(n-k)] reads back as [x = a/b]; of the two candidates next
    to [x] the nearer one. *)
Fixpoint shortestDigits (fuel : nat) (k : Z) (a b n : Z) (x : number) : Z * Z :=
  let '(p, q) := if (0 <=? k - n)%Z then (a * 10 ^ (k - n), b)%Z
                 else (a, b * 10 ^ (n - k))%Z in
  let lo := (p / q)%Z in
  let hi := (lo + 1)%Z in
  let nearer := if (2 * (p mod q) <=? q)%Z then lo else hi in
  let okLo := numEqb (ofDecimal lo (n - k)) x in
  let okHi := numEqb (ofDecimal hi (n - k)) x in
  match fuel with
  | O => (nearer, k)
  | S f =>
      if okLo && okHi then (nearer, k)
      else if okLo then (lo, k)
      else if okHi then (hi, k)
      else shortestDigits f (k + 1)%Z a b n x
  end.

Fixpoint dropZeros (l : jsstring) : jsstring :=
  match l with
  | 48 :: l' => dropZeros l'
  | _ => l
  end.

Definition stripZeros (ds : jsstring) : jsstring := rev (dropZeros (rev ds)).

Definition zeros (n : Z) : jsstring := repeat 48 (Z.to_nat n).

(** Number::toString of a positive finite value [a/b]: the digits
    [s] (there are [k] of them) and decimal exponent [n] of the shortest
    decimal that reads back as the value, laid out by the four cases of
    the specification: integer, fraction, small fraction, exponent. *)
Definition positiveToString (a b : Z) : jsstring :=
  let n0 := decimalExponent a b in
  let '(s, k0) := shortestDigits 17 1 a b n0 (Fin (Qred (Qmake a (Z.to_pos b)))) in
  let all := decimalDigits s in
  let n := (n0 + (Z.of_nat (length all) - k0))%Z in
  let ds := stripZeros all in
  let k := Z.of_nat (length ds) in
  if (k <=? n)%Z && (n <=? 21)%Z then ds ++ zeros (n - k)
  else if (0 <? n)%Z && (n <=? 21)%Z then
    firstn (Z.to_nat n) ds ++ [46] ++ skipn (Z.to_nat n) ds
  else if (-6 <? n)%Z && (n <=? 0)%Z then
    [48; 46] ++ zeros (- n) ++ ds
  else
    let e := (n - 1)%Z in
    let ex := (if (0 <=? e)%Z then [43] else [45]) ++ decimalDigits (Z.abs e) in
    match ds with
    | [d] => [d; 101] ++ ex
    | d :: ds' => [d; 46] ++ ds' ++ [101] ++ ex
    | [] => []
    end.

Definition NumberToString (x : number) : jsstring :=
  match x with
  | NaN => js "NaN"
  | Inf false => js "Infinity"
  | Inf true => js "-Infinity"
  | Fin q =>
      match Qnum q with
      | Z0 => [48]
      | Zpos a => positiveToString (Zpos a) (Zpos (Qden q))
      | Zneg a => 45 :: positiveToString (Zpos a) (Zpos (Qden q))
      end
  end.

(** ** ECMAScript values

    The values a parsed JSON document can hold, and [undefined]. An
    object is its list of own properties in order; the first entry for a
    key is the property. *)
#[warnings="-register-all"]
Inductive value : Type :=
  | VUndefined
  | VNull
  | VBool (b : bool)
  | VNumber (x : number)
  | VString (s : jsstring)
  | VArray (elems : list value)
  | VObject (props : list (jsstring * value)).

(** [typeof v === 'object'] *)
Definition typeofIsObject (v : value) : bool :=
  match v with
  | VNull | VArray _ | VObject _ => true
  | _ => false
  end.

Definition typeofIsString (v : value) : bool :=
  match v with VString _ => true | _ => false end.

Definition ToBoolean (v : value) : bool :=
  match v with
  | VUndefined | VNull => false
  | VBool b => b
  | VNumber NaN => false
  | VNumber (Fin q) => negb (Qeq_bool q 0)
  | VNumber (Inf _) => true
  | VString s => match s with [] => false | _ => true end
  | VArray _ | VObject _ => true
  end.

Definition joinWith (sep : jsstring) (parts : list jsstring) : jsstring :=
  match parts with
  | [] => []
  | p :: ps => p ++ List.concat (List.map (fun x => sep ++ x) ps)
  end.

(** How a call ends: with a value, or by throwing. *)
Inductive completion (A : Type) : Type :=
  | Normal (a : A)
  | Throw (message : jsstring).
Arguments Normal {A} a.
Arguments Throw {A} message.

(** Sequencing: what follows a call that threw does not run. *)
Definition bind {A B : Type} (c : completion A) (k : A -> completion B) : completion B :=
  match c with
  | Normal a => k a
  | Throw message => Throw message
  end.

Notation "'let*' x ':=' c 'in' k" := (bind c (fun x => k))
  (at level 10, x name, c at level 100, k at level 200).

(** [a || b] when evaluating either side can throw: [b] is evaluated
    only when [a] is false. *)
Definition orElse (a b : completion bool) : completion bool :=
  let* x := a in if x then Normal true else b.

(** Reading the property [key] of a value that is not [undefined] or
    [null]. The keys read by this program ([name], [country],
    [pollution]) are not own properties of an array or of a primitive
    wrapper, nor are they on a prototype. *)
Fixpoint lookupProp (key : jsstring) (props : list (jsstring * value)) : value :=
  match props with
  | [] => VUndefined
  | (k, v) :: rest => if jsstring_eqb k key then v else lookupProp key rest
  end.

Definition getProp (key : jsstring) (v : value) : value :=
  match v with
  | VObject props => lookupProp key props
  | _ => VUndefined
  end.

(** [Object.prototype.hasOwnProperty.call(props, key)] *)
Definition hasOwnProperty (key : jsstring) (props : list (jsstring * value)) : bool :=
  existsb (fun p => jsstring_eqb (fst p) key) props.

(** The TypeError of [OrdinaryToPrimitive]. *)
Definition notPrimitive : jsstring :=
  js "TypeError: Cannot convert object to primitive value".

(** [ToString]. An array is the join of its elements with [","], where
    [undefined] and [null] elements give the empty string
    ([Array.prototype.join]) and the other elements are converted in
    turn. An object goes through [OrdinaryToPrimitive]: a value of a
    parsed document is never callable, so an own property [toString]
    hides [Object.prototype.toString], [valueOf] (own, or the inherited
    one, which returns the object) gives no primitive either, and the
    conversion throws a TypeError; without an own [toString] the object
    is ["[object Object]"]. *)
Fixpoint ToString (v : value) : completion jsstring :=
  match v with
  | VUndefined => Normal (js "undefined")
  | VNull => Normal (js "null")
  | VBool true => Normal (js "true")
  | VBool false => Normal (js "false")
  | VNumber x => Normal (NumberToString x)
  | VString s => Normal s
  | VArray elems =>
      let fix elements (l : list value) : completion (list jsstring) :=
        match l with
        | [] => Normal []
        | e :: rest =>
            let* s := match e with
                      | VUndefined | VNull => Normal []
                      | _ => ToString e
                      end in
            let* parts := elements rest in
            Normal (s :: parts)
        end in
      let* parts := elements elems in
      Normal (joinWith [44] parts)
  | VObject props =>
      if hasOwnProperty (js "toString") props then Throw notPrimitive
      else Normal (js "[object Object]")
  end.

(** [ToNumber]; arrays and objects go through [ToPrimitive], which for
    these values gives what [ToString] gives, or throws as it does. *)
Definition ToNumber (v : value) : completion number :=
  match v with
  | VUndefined => Normal NaN
  | VNull => Normal (Fin 0)
  | VBool true => Normal (Fin 1)
  | VBool false => Normal (Fin 0)
  | VNumber x => Normal x
  | VString s => Normal (StringToNumber s)
  | VArray _ | VObject _ => let* s := ToString v in Normal (StringToNumber s)
  end.

(** The global functions [isNaN], [isFinite] and [parseFloat], which
    coerce their argument first, and the comparisons of a value with a
    Number. *)
Definition isNaN (v : value) : completion bool :=
  let* x := ToNumber v in Normal (numIsNaN x).

Definition isFinite (v : value) : completion bool :=
  let* x := ToNumber v in Normal (numIsFinite x).

Definition parseFloatOf (v : value) : completion number :=
  let* s := ToString v in Normal (parseFloat s).

Definition lessThan (v : value) (y : number) : completion bool :=
  let* x := ToNumber v in Normal (lt x y).

Definition greaterThan (v : value) (y : number) : completion bool :=
  let* x := ToNumber v in Normal (gt x y).

End JS.

(** ** [DataValidator] (src/utils/dataValidator.js) *)

Module DataValidator.
Import JS.

Definition nonEmpty (s : jsstring) : bool :=
  match s with [] => false | _ => true end.

Definition isBracket (c : N) : bool :=
  existsb (N.eqb c) (js "<>{}[]()").

Definition endsWithI (suffix s : jsstring) : bool :=
  isSuffix (List.map canonicalize suffix) (List.map canonicalize s).

(** [this.invalidPatterns], each regular expression as the predicate
    [pattern.test]: pure numbers, no letters, white space only, test-data
    words, null words, brackets only, administrative suffixes. *)
Definition invalidPatterns : list (jsstring -> bool) :=
  [ (fun s => nonEmpty s && forallb isDigit s);
    (fun s => forallb (fun c => negb (isLetter c)) s);
    (fun s => forallb isWhiteSpace s);
    (fun s => existsb (eqbI s)
                (List.map js ["test"; "sample"; "dummy"; "fake"]%string));
    (fun s => existsb (eqbI s)
                (List.map js ["n/a"; "null"; "undefined"]%string));
    (fun s => nonEmpty s && forallb isBracket s);
    (fun s => existsb (fun w => endsWithI w s)
                (List.map js ["region"; "province"; "state"; "county";
                              "district"]%string)) ].

Definition suspiciousWords : list jsstring :=
  List.map js
    ["ocean"; "sea"; "river"; "lake"; "mountain"; "desert"; "forest";
     "airport"; "station"; "port"; "base"; "facility";
     "region"; "area"; "zone"; "sector"; "district"]%string.

Definition validCountryCodes : list jsstring :=
  List.map js
  [
   "AD"; "AE"; "AF"; "AG"; "AI"; "AL"; "AM"; "AO"; "AQ"; "AR"; "AS"; "AT";
   "AU"; "AW"; "AX"; "AZ"; "BA"; "BB"; "BD"; "BE"; "BF"; "BG"; "BH"; "BI";
   "BJ"; "BL"; "BM"; "BN"; "BO"; "BQ"; "BR"; "BS"; "BT"; "BV"; "BW"; "BY";
   "BZ"; "CA"; "CC"; "CD"; "CF"; "CG"; "CH"; "CI"; "CK"; "CL"; "CM"; "CN";
   "CO"; "CR"; "CU"; "CV"; "CW"; "CX"; "CY"; "CZ"; "DE"; "DJ"; "DK"; "DM";
   "DO"; "DZ"; "EC"; "EE"; "EG"; "EH"; "ER"; "ES"; "ET"; "FI"; "FJ"; "FK";
   "FM"; "FO"; "FR"; "GA"; "GB"; "GD"; "GE"; "GF"; "GG"; "GH"; "GI"; "GL";
   "GM"; "GN"; "GP"; "GQ"; "GR"; "GS"; "GT"; "GU"; "GW"; "GY"; "HK"; "HM";
   "HN"; "HR"; "HT"; "HU"; "ID"; "IE"; "IL"; "IM"; "IN"; "IO"; "IQ"; "IR";
   "IS"; "IT"; "JE"; "JM"; "JO"; "JP"; "KE"; "KG"; "KH"; "KI"; "KM"; "KN";
   "KP"; "KR"; "KW"; "KY"; "KZ"; "LA"; "LB"; "LC"; "LI"; "LK"; "LR"; "LS";
   "LT"; "LU"; "LV"; "LY"; "MA"; "MC"; "MD"; "ME"; "MF"; "MG"; "MH"; "MK";
   "ML"; "MM"; "MN"; "MO"; "MP"; "MQ"; "MR"; "MS"; "MT"; "MU"; "MV"; "MW";
   "MX"; "MY"; "MZ"; "NA"; "NC"; "NE"; "NF"; "NG"; "NI"; "NL"; "NO"; "NP";
   "NR"; "NU"; "NZ"; "OM"; "PA"; "PE"; "PF"; "PG"; "PH"; "PK"; "PL"; "PM";
   "PN"; "PR"; "PS"; "PT"; "PW"; "PY"; "QA"; "RE"; "RO"; "RS"; "RU"; "RW";
   "SA"; "SB"; "SC"; "SD"; "SE"; "SG"; "SH"; "SI"; "SJ"; "SK"; "SL"; "SM";
   "SN"; "SO"; "SR"; "SS"; "ST"; "SV"; "SX"; "SY"; "SZ"; "TC"; "TD"; "TF";
   "TG"; "TH"; "TJ"; "TK"; "TL"; "TM"; "TN"; "TO"; "TR"; "TT"; "TV"; "TW";
   "TZ"; "UA"; "UG"; "UM"; "US"; "UY"; "UZ"; "VA"; "VC"; "VE"; "VG"; "VI";
   "VN"; "VU"; "WF"; "WS"; "YE"; "YT"; "ZA"; "ZM"; "ZW"
  ]%string.

Definition count (p : N -> bool) (s : jsstring) : nat :=
  length (List.filter p s).

(** [isValidCityName(name)] *)
Definition isValidCityName (name : value) : bool :=
  match name with
  | VString s =>
      let trimmedName := trim s in
      if (length trimmedName <? 1)%nat || (100 <? length trimmedName)%nat
      then false
      else if existsb (fun pattern => pattern trimmedName) invalidPatterns
      then false
      else
        let lowerName := toLowerCase trimmedName in
        if existsb (fun word =>
                      includes lowerName word
                      && (length (splitWhiteSpace trimmedName) =? 1)%nat)
                   suspiciousWords
        then false
        else if negb (existsb isLetter trimmedName) then false
        else
          let letterCount := count isLetter trimmedName in
          let numberCount := count isDigit trimmedName in
          if (letterCount <? numberCount)%nat then false else true
  | _ => false
  end.

(** [isValidCountry(country)] *)
Definition isValidCountry (country : value) : bool :=
  match country with
  | VString s =>
      let trimmedCountry := trim s in
      if (length trimmedCountry <? 2)%nat || (100 <? length trimmedCountry)%nat
      then false
      else if existsb (fun pattern => pattern trimmedCountry) invalidPatterns
      then false
      else if (length trimmedCountry =? 2)%nat && forallb isUpper trimmedCountry
      then existsb (jsstring_eqb trimmedCountry) validCountryCodes
      else if negb (existsb isLetter trimmedCountry) then false
      else true
  | _ => false
  end.

(** [isValidPollutionValue(pollution)]: a string goes through
    [parseFloat]; any other value is used as it is, and [isNaN],
    [isFinite], [<] and [>] coerce it with [ToNumber], which throws for
    an object that cannot be converted. *)
Definition isValidPollutionValue (pollution : value) : completion bool :=
  let numericValue :=
    match pollution with
    | VString s => VNumber (parseFloat s)
    | _ => pollution
    end in
  let* notANumber :=
    orElse (isNaN numericValue)
           (let* finite := isFinite numericValue in Normal (negb finite)) in
  if notANumber then Normal false
  else
    let* outOfRange :=
      orElse (lessThan numericValue (ofZ 0)) (greaterThan numericValue (ofZ 1000)) in
    if outOfRange then Normal false else Normal true.

Definition isNullish (v : value) : bool :=
  match v with VUndefined | VNull => true | _ => false end.

(** [isValidCity(entry)]; [country] is read from the entry and not
    used. *)
Definition isValidCity (entry : value) : completion bool :=
  if negb (ToBoolean entry) || negb (typeofIsObject entry) then Normal false
  else
    let name := getProp (js "name") entry in
    let country := getProp (js "country") entry in
    let pollution := getProp (js "pollution") entry in
    if negb (ToBoolean name) || isNullish pollution then Normal false
    else if negb (isValidCityName name) then Normal false
    else
      let* valid := isValidPollutionValue pollution in
      if negb valid then Normal false else Normal true.

Record NormalizedCity : Type := mkCity {
  name : jsstring;
  country : jsstring;
  pollution : number
}.

(** [normalizeCity(city)]; reading a property of [undefined] or [null]
    throws a TypeError, and so does [String(...)] or [parseFloat(...)]
    of an object that cannot be converted. *)
Definition normalizeCity (city : value) : completion NormalizedCity :=
  if isNullish city
  then Throw (js "TypeError: Cannot read properties of undefined or null")
  else
    let* name := ToString (getProp (js "name") city) in
    let* country := ToString (getProp (js "country") city) in
    let* pollution := parseFloatOf (getProp (js "pollution") city) in
    Normal {| name := trim name; country := trim country; pollution := pollution |}.

(** The loop of [filterValidCities] over the entries, with the list of
    cities kept so far and [filteredCount]; an entry on which
    [isValidCity] or [normalizeCity] throws ends it. *)
Fixpoint filterLoop (entries : list value) (validCities : list NormalizedCity)
  (filteredCount : nat) : completion (list NormalizedCity * nat) :=
  match entries with
  | [] => Normal (validCities, filteredCount)
  | entry :: rest =>
      let* valid := isValidCity entry in
      if valid then
        let* city := normalizeCity entry in
        filterLoop rest (validCities ++ [city]) filteredCount
      else filterLoop rest validCities (S filteredCount)
  end.

(** [filterValidCities(rawData)]; the log lines are not part of the
    result. *)
Definition filterValidCities (rawData : value) : completion (list NormalizedCity) :=
  match rawData with
  | VArray entries =>
      let* kept := filterLoop entries [] 0%nat in
      Normal (fst kept)
  | _ => Normal []
  end.

End DataValidator.

(** ** [MemoryCache] (src/utils/cache.js) and the timers it schedules *)

Module MemoryCache.
Import JS.

(** A timeout scheduled by [setTimeout(() => this.delete(key), ttl)]: the
    handle [setTimeout] returned, the clock value at which it falls due,
    and the key its callback deletes. *)
Record timeout : Type := mkTimeout {
  handle : nat;
  due : Z;
  target : jsstring
}.

(** The cache object ([this.cache], [this.timers]) and the part of the
    runtime it talks to: the timeouts not yet run or cleared, in order of
    creation, the next handle, and the clock in milliseconds. *)
Record state : Type := mkState {
  cache : gmap jsstring value;
  timers : gmap jsstring nat;
  scheduled : list timeout;
  nextHandle : nat;
  now : Z
}.

Definition empty : state :=
  {| cache := ∅; timers := ∅; scheduled := []; nextHandle := 0%nat; now := 0%Z |}.

(** [clearTimeout(h)] *)
Definition clearTimeout (h : nat) (l : list timeout) : list timeout :=
  List.filter (fun t => negb (handle t =? h)%nat) l.

(** The delay [setTimeout] really uses: a delay above [2^31 - 1] or
    below [1] becomes [1]. *)
Definition TIMEOUT_MAX : Z := 2147483647.

Definition timerDelay (ms : Z) : Z :=
  if (1 <=? ms)%Z && (ms <=? TIMEOUT_MAX)%Z then ms else 1%Z.

(** The first four lines shared by [set] and [delete]: clear the timer
    registered for [key], if any. *)
Definition clearTimerOf (key : jsstring) (s : state) : state :=
  match timers s !! key with
  | Some h =>
      {| cache := cache s;
         timers := base.delete key (timers s);
         scheduled := clearTimeout h (scheduled s);
         nextHandle := nextHandle s;
         now := now s |}
  | None => s
  end.

(** [set(key, value, ttl = null)]; [ttl] is [None] for [null] or a
    missing argument, and a number of milliseconds otherwise. *)
Definition set (key : jsstring) (v : value) (ttl : option Z) (s : state) : state :=
  let s1 := clearTimerOf key s in
  let cache' := <[key := v]> (cache s1) in
  match ttl with
  | Some ms =>
      if (ms =? 0)%Z || negb (0 <? ms)%Z
      then {| cache := cache'; timers := timers s1; scheduled := scheduled s1;
              nextHandle := nextHandle s1; now := now s1 |}
      else
        let timer := nextHandle s1 in
        {| cache := cache';
           timers := <[key := timer]> (timers s1);
           scheduled := scheduled s1 ++
             [ {| handle := timer; due := (now s1 + timerDelay ms)%Z; target := key |} ];
           nextHandle := S (nextHandle s1);
           now := now s1 |}
  | None =>
      {| cache := cache'; timers := timers s1; scheduled := scheduled s1;
         nextHandle := nextHandle s1; now := now s1 |}
  end.

(** [get(key)]; [None] is [undefined]. *)
Definition get (key : jsstring) (s : state) : option value := cache s !! key.

(** [has(key)] *)
Definition has (key : jsstring) (s : state) : bool :=
  bool_decide (is_Some (cache s !! key)).

(** [delete(key)]: the new state and whether the key existed. *)
Definition delete (key : jsstring) (s : state) : state * bool :=
  let s1 := clearTimerOf key s in
  ({| cache := base.delete key (cache s1);
      timers := timers s1;
      scheduled := scheduled s1;
      nextHandle := nextHandle s1;
      now := now s1 |},
   bool_decide (is_Some (cache s1 !! key))).

(** [clear()]: every registered timer is cleared, both maps emptied.
    ([stats()] only reports the size and the keys of [this.cache].) *)
Definition clear (s : state) : state :=
  {| cache := ∅;
     timers := ∅;
     scheduled :=
       map_fold (fun _ h l => clearTimeout h l) (scheduled s) (timers s);
     nextHandle := nextHandle s;
     now := now s |}.

(** A timeout leaves the runtime's list, as when it is taken to run. *)
Definition unschedule (t : timeout) (s : state) : state :=
  {| cache := cache s; timers := timers s;
     scheduled := clearTimeout (handle t) (scheduled s);
     nextHandle := nextHandle s; now := now s |}.

(** Running a timeout: it leaves the list and its callback
    [this.delete(key)] runs. *)
Definition fireOne (t : timeout) (s : state) : state :=
  fst (delete (target t) (unschedule t s)).

(** The timer phase of the event loop: as long as a scheduled timeout
    is due, the first such one (they are kept in order of creation)
    runs. [fuel] bounds the number of callbacks run; the length of the
    list is enough, since the callback schedules nothing. *)
Fixpoint runDue (fuel : nat) (s : state) : state :=
  match fuel with
  | O => s
  | S fuel' =>
      match List.find (fun t => (due t <=? now s)%Z) (scheduled s) with
      | Some t => runDue fuel' (fireOne t s)
      | None => s
      end
  end.

(** One millisecond passes: the clock moves, then the due timeouts run. *)
Definition tick (s : state) : state :=
  runDue (length (scheduled s))
    {| cache := cache s; timers := timers s; scheduled := scheduled s;
       nextHandle := nextHandle s; now := (now s + 1)%Z |}.

Fixpoint wait (ms : nat) (s : state) : state :=
  match ms with
  | O => s
  | S n => wait n (tick s)
  end.

(** A use of the cache from outside, or time passing. *)
Inductive op : Type :=
  | OSet (key : jsstring) (v : value) (ttl : option Z)
  | OGet (key : jsstring)
  | OHas (key : jsstring)
  | ODelete (key : jsstring)
  | OClear
  | OWait (ms : nat).

Definition step (s : state) (o : op) : state :=
  match o with
  | OSet key v ttl => set key v ttl s
  | OGet _ | OHas _ => s
  | ODelete key => fst (delete key s)
  | OClear => clear s
  | OWait ms => wait ms s
  end.

Definition run (ops : list op) (s : state) : state := fold_left step ops s.

(** Does the operation write or remove [key]? *)
Definition writes (key : jsstring) (o : op) : bool :=
  match o with
  | OSet k _ _ | ODelete k => jsstring_eqb k key
  | OClear => true
  | OGet _ | OHas _ | OWait _ => false
  end.

(** Milliseconds that pass during a list of operations. *)
Definition elapsed (ops : list op) : nat :=
  fold_right (fun o n => match o with OWait ms => (ms + n)%nat | _ => n end) 0%nat ops.

End MemoryCache.

(** ** [WikipediaService] (src/services/wikipediaService.js) *)

Module WikipediaService.
Import JS.

(** *** What the queue does with one reply *)

(** What [await this.client.get(...)] produces: a response with its
    parsed body, an error that carries a response status (a status
    outside 2xx), or an error without a response (time-out, network). *)
Inductive reply : Type :=
  | Response (data : value)
  | StatusError (status : Z)
  | NoResponse.

(** How a pending lookup is settled: [resolve(v)] or [reject(error)]. *)
Inductive outcome : Type :=
  | Resolved (v : value)
  | Rejected.

(** Lines 108-118: trim the extract and limit its length. *)
Definition cleanExtract (raw : jsstring) : jsstring :=
  let extract := trim raw in
  if (300 <? length extract)%nat then
    let extract := trim (substring0 300 extract) in
    let lastPeriod := lastIndexOf 46 extract in
    if (200 <? lastPeriod)%Z
    then substring0 (Z.to_nat (lastPeriod + 1)) extract
    else extract ++ js "..."
  else extract.

(** The body of the [try] once the response is there. An extract that
    is truthy and not a string has no [trim] method: the call throws and
    the [catch] finds an error without a response. *)
Definition onResponse (data : value) : outcome :=
  if ToBoolean data && ToBoolean (getProp (js "extract") data) then
    match getProp (js "extract") data with
    | VString extract => Resolved (VString (cleanExtract extract))
    | _ => Rejected
    end
  else Resolved VNull.

(** The [try]/[catch] of [_processQueue] applied to a reply: status 404
    resolves with [null], any other error rejects. *)
Definition settle (r : reply) : outcome :=
  match r with
  | Response data => onResponse data
  | StatusError status => if (status =? 404)%Z then Resolved VNull else Rejected
  | NoResponse => Rejected
  end.

(** *** [getCityDescription] *)

(** The actions of a call: reading and writing the shared cache, and
    [await this._fetchDescriptionByTitle(title)], which puts one request
    on the queue and waits until the queue settles it. *)
Inductive prog (A : Type) : Type :=
  | Ret (a : A)
  | CacheGet (key : jsstring) (k : option value -> prog A)
  | CacheSet (key : jsstring) (v : value) (ttl : Z) (k : prog A)
  | Fetch (title : jsstring) (k : outcome -> prog A).
Arguments Ret {A} a.
Arguments CacheGet {A} key k.
Arguments CacheSet {A} key v ttl k.
Arguments Fetch {A} title k.

(** The cache key, [`wiki_${cityName}_${countryName}`.toLowerCase()].
    [String.prototype.toLowerCase] maps the upper-case letters of all of
    Unicode by the tables of the runtime; [lower] stands for that
    function, and the service is described for whatever it is.
    ([JS.toLowerCase] is that function on ASCII text only, which is
    enough to search a name for ASCII words and not enough for a key.) *)
Definition cacheKeyOf (lower : jsstring -> jsstring) (cityName countryName : jsstring)
  : jsstring :=
  lower (js "wiki_" ++ cityName ++ js "_" ++ countryName).

Definition searchTermsOf (cityName countryName : jsstring) : list jsstring :=
  [ cityName;
    cityName ++ js ", " ++ countryName;
    cityName ++ js " " ++ countryName ].

(** The [for] loop over the search terms and the two lines after it. A
    rejected lookup is caught inside the loop, which goes on with the
    next term. *)
Fixpoint trySearchTerms (cacheKey : jsstring) (searchTerms : list jsstring)
  : prog value :=
  match searchTerms with
  | searchTerm :: rest =>
      Fetch searchTerm (fun o =>
        match o with
        | Resolved description =>
            if ToBoolean description
            then CacheSet cacheKey description (24 * 60 * 60 * 1000) (Ret description)
            else trySearchTerms cacheKey rest
        | Rejected => trySearchTerms cacheKey rest
        end)
  | [] => CacheSet cacheKey VNull (60 * 60 * 1000) (Ret VNull)
  end.

(** [getCityDescription(cityName, countryName)]; the cached value is
    used when it is truthy. The outer [try] has nothing to catch: a
    rejected lookup is handled inside the loop and the cache does not
    throw. *)
Definition getCityDescription (lower : jsstring -> jsstring)
  (cityName countryName : jsstring) : prog value :=
  let cacheKey := cacheKeyOf lower cityName countryName in
  CacheGet cacheKey (fun cachedDescription =>
    match cachedDescription with
    | Some v =>
        if ToBoolean v then Ret v
        else trySearchTerms cacheKey (searchTermsOf cityName countryName)
    | None => trySearchTerms cacheKey (searchTermsOf cityName countryName)
    end).

(** What a run of a call leaves behind: its result, the cache, and the
    titles it put on the queue, in order. *)
Record run (A : Type) : Type := mkRun {
  result : A;
  finalCache : MemoryCache.state;
  lookups : list jsstring
}.
Arguments mkRun {A} result finalCache lookups.
Arguments result {A} r.
Arguments finalCache {A} r.
Arguments lookups {A} r.

(** Running a call against the cache. [network n title] is how the
    [n]-th lookup of the run is settled and how many milliseconds pass
    until then. *)
Fixpoint exec {A : Type} (p : prog A) (network : nat -> jsstring -> outcome * nat)
  (c : MemoryCache.state) (done : list jsstring) : run A :=
  match p with
  | Ret a => mkRun a c done
  | CacheGet key k => exec (k (MemoryCache.get key c)) network c done
  | CacheSet key v ttl k => exec k network (MemoryCache.set key v (Some ttl) c) done
  | Fetch title k =>
      let '(o, ms) := network (length done) title in
      exec (k o) network (MemoryCache.wait ms c) (done ++ [title])
  end.

(** *** The request queue *)

(** A queued request: [{ title, resolve, reject }]; the two callbacks
    belong to the promise numbered [rid]. *)
Record request : Type := mkRequest {
  rid : nat;
  title : jsstring
}.

(** Where an activation of [_processQueue] is suspended. *)
Inductive phase : Type :=
  | AwaitGet (r : request)
  | AwaitDelay (wake : Z).

(** The fields of the service ([requestQueue], [isProcessing],
    [minRequestInterval]), the suspended activations of [_processQueue],
    the clock, and a record of what happened: the requests pushed, the
    GETs sent with their times (latest first), the promises settled. *)
Record qstate : Type := mkQ {
  requestQueue : list request;
  isProcessing : bool;
  minRequestInterval : Z;
  drains : list phase;
  clock : Z;
  pushed : list request;
  dispatched : list (Z * request);
  settled : list (nat * outcome)
}.

(** The state the constructor leaves. *)
Definition init (interval : Z) : qstate :=
  {| requestQueue := []; isProcessing := false; minRequestInterval := interval;
     drains := []; clock := 0%Z; pushed := []; dispatched := []; settled := [] |}.

Definition isSurrogateHigh (c : N) : bool := (55296 <=? c) && (c <=? 56319).
Definition isSurrogateLow (c : N) : bool := (56320 <=? c) && (c <=? 57343).

(** [encodeURIComponent(title)] throws a URIError on a surrogate that
    is not part of a pair. *)
Fixpoint encodable (s : jsstring) : bool :=
  match s with
  | [] => true
  | c :: s' =>
      if isSurrogateHigh c then
        match s' with
        | d :: s'' => isSurrogateLow d && encodable s''
        | [] => false
        end
      else negb (isSurrogateLow c) && encodable s'
  end.

(** The head of the [while] loop for the activation that runs: with a
    request in the queue, [shift] it and send the GET (or, when the title
    cannot be encoded, reject and go to the delay); with an empty queue,
    leave the loop and reset [isProcessing]. [others] are the other
    suspended activations. *)
Definition loopHead (others : list phase) (s : qstate) : qstate :=
  match requestQueue s with
  | r :: queue =>
      if encodable (title r) then
        {| requestQueue := queue; isProcessing := isProcessing s;
           minRequestInterval := minRequestInterval s;
           drains := others ++ [AwaitGet r];
           clock := clock s; pushed := pushed s;
           dispatched := (clock s, r) :: dispatched s;
           settled := settled s |}
      else
        {| requestQueue := queue; isProcessing := isProcessing s;
           minRequestInterval := minRequestInterval s;
           drains := others ++
             [AwaitDelay (clock s + MemoryCache.timerDelay (minRequestInterval s))];
           clock := clock s; pushed := pushed s;
           dispatched := dispatched s;
           settled := (rid r, Rejected) :: settled s |}
  | [] =>
      {| requestQueue := []; isProcessing := false;
         minRequestInterval := minRequestInterval s;
         drains := others;
         clock := clock s; pushed := pushed s;
         dispatched := dispatched s; settled := settled s |}
  end.

(** [_processQueue()] up to its first [await]. *)
Definition processQueue (s : qstate) : qstate :=
  if isProcessing s || match requestQueue s with [] => true | _ => false end
  then s
  else
    loopHead (drains s)
      {| requestQueue := requestQueue s; isProcessing := true;
         minRequestInterval := minRequestInterval s;
         drains := drains s; clock := clock s; pushed := pushed s;
         dispatched := dispatched s; settled := settled s |}.

(** [_fetchDescriptionByTitle(title)]: push the request, call
    [_processQueue]. *)
Definition fetchDescriptionByTitle (title : jsstring) (s : qstate) : qstate :=
  let r := {| rid := length (pushed s); title := title |} in
  processQueue
    {| requestQueue := requestQueue s ++ [r]; isProcessing := isProcessing s;
       minRequestInterval := minRequestInterval s;
       drains := drains s; clock := clock s; pushed := pushed s ++ [r];
       dispatched := dispatched s; settled := settled s |}.

(** What can happen next. *)
Inductive event : Type :=
  | EFetch (title : jsstring)
  | EReply (i : nat) (r : reply)
  | EWake (i : nat)
  | ETime (ms : nat).

(** One event; [None] when it cannot happen in this state: a reply
    needs an activation waiting for its GET, a wake-up one whose delay
    has run out. After a reply the request is settled and the activation
    waits for [_delay(minRequestInterval)]. *)
Definition qstep (s : qstate) (e : event) : option qstate :=
  match e with
  | EFetch title => Some (fetchDescriptionByTitle title s)
  | EReply i r =>
      match drains s !! i with
      | Some (AwaitGet req) =>
          Some {| requestQueue := requestQueue s; isProcessing := isProcessing s;
                  minRequestInterval := minRequestInterval s;
                  drains := <[i := AwaitDelay
                    (clock s + MemoryCache.timerDelay (minRequestInterval s))]> (drains s);
                  clock := clock s; pushed := pushed s;
                  dispatched := dispatched s;
                  settled := (rid req, settle r) :: settled s |}
      | _ => None
      end
  | EWake i =>
      match drains s !! i with
      | Some (AwaitDelay wake) =>
          if (wake <=? clock s)%Z
          then Some (loopHead (base.delete i (drains s)) s)
          else None
      | _ => None
      end
  | ETime ms =>
      Some {| requestQueue := requestQueue s; isProcessing := isProcessing s;
              minRequestInterval := minRequestInterval s;
              drains := drains s; clock := (clock s + Z.of_nat ms)%Z;
              pushed := pushed s; dispatched := dispatched s;
              settled := settled s |}
  end.

Fixpoint qrun (s : qstate) (es : list event) : option qstate :=
  match es with
  | [] => Some s
  | e :: es' =>
      match qstep s e with
      | Some s' => qrun s' es'
      | None => None
      end
  end.

(** GETs sent and not yet answered. *)
Definition inFlight (s : qstate) : nat :=
  length (List.filter (fun p => match p with AwaitGet _ => true | _ => false end)
            (drains s)).

End WikipediaService.

(** ** [validatePaginationParams] (src/middleware/validation.js) and the
    query parameters as the controller reads them *)

Module Validation.
Import JS.

(** The longest prefix of [s] made of digits of the radix, as their
    values. *)
Fixpoint takeRadixDigits (radix : Z) (s : jsstring) : list Z :=
  match s with
  | c :: s' =>
      match digitOf radix c with
      | Some v => v :: takeRadixDigits radix s'
      | None => []
      end
  | [] => []
  end.

(** The sign at the head of the string, and what follows it. *)
Definition takeSign (s : jsstring) : bool * jsstring :=
  match s with
  | 45 :: r => (true, r)
  | 43 :: r => (false, r)
  | _ => (false, s)
  end.

(** With [stripPrefix], a leading [0x] or [0X] is dropped and selects
    radix 16. *)
Definition takePrefix (stripPrefix : bool) (R : Z) (s : jsstring) : Z * jsstring :=
  match s with
  | c0 :: c1 :: r =>
      if stripPrefix && (c0 =? 48) && ((c1 =? 120) || (c1 =? 88)) then (16%Z, r)
      else (R, s)
  | _ => (R, s)
  end.

(** The Number for the digits of radix [R] at the head of [s]; [NaN]
    when there is none. *)
Definition radixInteger (R : Z) (s : jsstring) : number :=
  match takeRadixDigits R s with
  | [] => NaN
  | ds => ofDecimal (fold_left (fun acc d => (R * acc + d)%Z) ds 0%Z) 0
  end.

(** The global [parseInt(string, radix)]; [radix] is [0] when the
    argument is absent. The string is [ToString] of the argument, which
    can throw, with leading white space removed; a sign is read; with
    radix 0 or 16 a prefix [0x] or [0X] is dropped and selects radix 16;
    the digits of the radix that follow are the value, and [NaN] when
    there is none. The value is rounded to the nearest binary64, also
    for a literal of more than 20 digits, where the standard leaves the
    last digits to the implementation. *)
Definition parseInt (string : value) (radix : Z) : completion number :=
  let* inputString := ToString string in
  let '(negative, S1) := takeSign (trimStart inputString) in
  if negb (radix =? 0)%Z && ((radix <? 2)%Z || (36 <? radix)%Z) then Normal NaN
  else
    let stripPrefix := (radix =? 0)%Z || (radix =? 16)%Z in
    let '(R, S2) := takePrefix stripPrefix (if (radix =? 0)%Z then 10%Z else radix) S1 in
    Normal (if negative then negate (radixInteger R S2) else radixInteger R S2).

(** What the middleware does with the request: it calls [next()], or
    answers with status 400 and a body [{ error, message }]. *)
Inductive verdict : Type :=
  | Next
  | Status400 (error message : jsstring).

(** [validatePaginationParams(req, res, next)], on [req.query]. *)
Definition validatePaginationParams (query : list (jsstring * value))
  : completion verdict :=
  let page := lookupProp (js "page") query in
  let limit := lookupProp (js "limit") query in
  let* pageError :=
    match page with
    | VUndefined => Normal None
    | _ =>
        let* pageNum := parseInt page 10 in
        let* invalid := orElse (isNaN (VNumber pageNum)) (Normal (lt pageNum (ofZ 1))) in
        if invalid then
          Normal (Some (Status400 (js "Invalid page parameter")
                                  (js "Page must be a positive integer")))
        else if gt pageNum (ofZ 1000) then
          Normal (Some (Status400 (js "Invalid page parameter")
                                  (js "Page number too large (max: 1000)")))
        else Normal None
    end in
  match pageError with
  | Some answer => Normal answer
  | None =>
      match limit with
      | VUndefined => Normal Next
      | _ =>
          let* limitNum := parseInt limit 10 in
          let* invalid := orElse (isNaN (VNumber limitNum)) (Normal (lt limitNum (ofZ 1))) in
          if invalid then
            Normal (Status400 (js "Invalid limit parameter")
                              (js "Limit must be a positive integer"))
          else if gt limitNum (ofZ 100) then
            Normal (Status400 (js "Invalid limit parameter")
                              (js "Limit too large (max: 100)"))
          else Normal Next
      end
  end.

(** [x || d] on a Number [x]. *)
Definition orDefault (x : number) (d : Z) : number :=
  if ToBoolean (VNumber x) then x else ofZ d.

(** The first lines of [getCitiesPollution]
    (src/controllers/citiesController.js), which runs after the
    middleware: [parseInt(req.query.page) || 1] and
    [parseInt(req.query.limit) || 10]. *)
Definition pageOf (query : list (jsstring * value)) : completion number :=
  let* x := parseInt (lookupProp (js "page") query) 0 in Normal (orDefault x 1).

Definition limitOf (query : list (jsstring * value)) : completion number :=
  let* x := parseInt (lookupProp (js "limit") query) 0 in Normal (orDefault x 10).

End Validation.

(** ** [PollutionService] (src/services/pollutionService.js) *)

Module PollutionService.
Import JS.

(** How a call of the HTTP client ends: with a response, of which the
    program reads the parsed body [data], or with a rejection (no
    response, a timeout, a status outside 2xx). *)
Inductive http : Type :=
  | Response (data : value)
  | Failure (message : jsstring).

(** The pollution source as the service meets it during one call of
    [fetchPollutionData]: what [POST /auth/login] gives, and what
    [GET /pollution] gives for an [Authorization] header and the
    parameters [country], [page] and [limit]. *)
Record upstream : Type := mkUpstream {
  login : http;
  pollution : jsstring -> value -> value -> value -> http
}.

(** [authenticate()] once the POST has settled with [reply], for
    [this.token] being [token]: the token afterwards, and how the call
    ends. Reading [token] of a body that is [null] or [undefined] is a
    TypeError; the log line after the assignment converts the new token
    to a string, which can throw. *)
Definition authenticate (reply : http) (token : value) : value * completion unit :=
  match reply with
  | Failure message => (token, Throw message)
  | Response VUndefined =>
      (token, Throw (js "TypeError: Cannot read properties of undefined (reading 'token')"))
  | Response VNull =>
      (token, Throw (js "TypeError: Cannot read properties of null (reading 'token')"))
  | Response data =>
      let token' := getProp (js "token") data in
      (token', let* logged := ToString token' in Normal tt)
  end.

(** [Array.isArray(v)] *)
Definition isArray (v : value) : bool :=
  match v with VArray _ => true | _ => false end.

(** The [Authorization] header for [this.token] being [token]. *)
Definition bearer (token : value) : completion jsstring :=
  let* t := ToString token in Normal (js "Bearer " ++ t).

(** What follows the GET once it has settled with [reply]: the check
    of the body. [results] is no property of a string, a number or an
    array of a parsed body. *)
Definition checked (reply : http) : completion value :=
  match reply with
  | Failure message => Throw message
  | Response data =>
      if negb (ToBoolean data) || negb (isArray (getProp (js "results") data))
      then Throw (js "Invalid response format: expected array")
      else Normal data
  end.

(** *** One call on its own *)

(** What one call of [fetchPollutionData] leaves: how it ended, the
    token the service holds afterwards, whether it logged in, and the
    [Authorization] header of the GET it sent, if it sent one. *)
Record fetched : Type := mkFetched {
  outcome : completion value;
  tokenAfter : value;
  loggedIn : bool;
  authorization : option jsstring
}.

(** The GET of [fetchPollutionData] and the check of its response, with
    the token [token]. *)
Definition getPollution (up : upstream) (token : value) (page limit country : value)
  : completion value * option jsstring :=
  match bearer token with
  | Throw message => (Throw message, None)
  | Normal header => (checked (pollution up header country page limit), Some header)
  end.

(** [fetchPollutionData(page, limit, country = null)] with [this.token]
    being [token], while no other call of the service is under way;
    every error is logged and thrown again. *)
Definition fetchPollutionData (up : upstream) (token : value) (page limit country : value)
  : fetched :=
  let country := match country with VUndefined => VNull | _ => country end in
  if negb (ToBoolean token) then
    match authenticate (login up) token with
    | (token', Throw message) =>
        {| outcome := Throw message; tokenAfter := token'; loggedIn := true;
           authorization := None |}
    | (token', Normal _) =>
        let '(result, header) := getPollution up token' page limit country in
        {| outcome := result; tokenAfter := token'; loggedIn := true;
           authorization := header |}
    end
  else
    let '(result, header) := getPollution up token page limit country in
    {| outcome := result; tokenAfter := token; loggedIn := false;
       authorization := header |}.

(** The token the constructor leaves. *)
Definition noToken : value := VNull.

(** *** Calls that overlap *)

(** The service is one object and its method is [async]: a call gives
    way at each [await], and other calls of the method run meanwhile
    on the same [this.token]. Where a call is: waiting for the POST of
    [authenticate]; [authenticate] has ended, as [ended] says, and the
    call has not resumed yet; waiting for the GET; settled. *)
Inductive phase : Type :=
  | AwaitLogin
  | AwaitAuthenticate (ended : completion unit)
  | AwaitGet
  | Settled (result : completion value).

(** [this.token], the calls made so far in order, the number of logins
    posted, and the [Authorization] headers of the GETs sent, latest
    first. *)
Record service : Type := mkService {
  token : value;
  calls : list phase;
  logins : nat;
  sent : list jsstring
}.

(** The state the constructor leaves. *)
Definition init : service :=
  {| token := noToken; calls := []; logins := 0; sent := [] |}.

(** From the log line before the GET to the [await] of the GET, for the
    call numbered [i]: the header is built from [this.token] as it is
    now, and the GET is sent unless that throws. *)
Definition sendGet (i : nat) (s : service) : service :=
  match bearer (token s) with
  | Throw message =>
      {| token := token s; calls := <[i := Settled (Throw message)]> (calls s);
         logins := logins s; sent := sent s |}
  | Normal header =>
      {| token := token s; calls := <[i := AwaitGet]> (calls s);
         logins := logins s; sent := header :: sent s |}
  end.

(** What can happen next: [fetchPollutionData] is called; the POST of
    the call numbered [i] settles; that call resumes after
    [await this.authenticate()]; its GET settles. *)
Inductive event : Type :=
  | Called
  | LoginSettles (i : nat) (reply : http)
  | Resumes (i : nat)
  | GetSettles (i : nat) (reply : http).

(** One event; [None] when it cannot happen in this state. A call runs
    up to its first [await]: without a token that is the POST of
    [authenticate], with one it is the GET. *)
Definition step (s : service) (e : event) : option service :=
  match e with
  | Called =>
      if negb (ToBoolean (token s)) then
        Some {| token := token s; calls := calls s ++ [AwaitLogin];
                logins := S (logins s); sent := sent s |}
      else
        Some (sendGet (length (calls s))
                {| token := token s; calls := calls s ++ [AwaitGet];
                   logins := logins s; sent := sent s |})
  | LoginSettles i reply =>
      match calls s !! i with
      | Some AwaitLogin =>
          let '(token', ended) := authenticate reply (token s) in
          Some {| token := token'; calls := <[i := AwaitAuthenticate ended]> (calls s);
                  logins := logins s; sent := sent s |}
      | _ => None
      end
  | Resumes i =>
      match calls s !! i with
      | Some (AwaitAuthenticate (Throw message)) =>
          Some {| token := token s; calls := <[i := Settled (Throw message)]> (calls s);
                  logins := logins s; sent := sent s |}
      | Some (AwaitAuthenticate (Normal _)) => Some (sendGet i s)
      | _ => None
      end
  | GetSettles i reply =>
      match calls s !! i with
      | Some AwaitGet =>
          Some {| token := token s; calls := <[i := Settled (checked reply)]> (calls s);
                  logins := logins s; sent := sent s |}
      | _ => None
      end
  end.

Fixpoint run (s : service) (es : list event) : option service :=
  match es with
  | [] => Some s
  | e :: es' =>
      match step s e with
      | Some s' => run s' es'
      | None => None
      end
  end.

End PollutionService.

(** * The vocabulary of the properties *)

(** ** For the record classifier *)

Module ClassifierSpec.
Import JS DataValidator.

(** A record [{ name, country, pollution }] as the pollution source sends
    it. *)
Definition record (n c p : value) : value :=
  VObject [(js "name", n); (js "country", c); (js "pollution", p)].

(** Names the classifier is meant to turn away. *)
Definition purelyNumeric (s : jsstring) : bool :=
  nonEmpty s && forallb isDigit s.

(** Punctuation and symbols: those of ASCII, of Latin-1 (U+00A1 to
    U+00BF), of the General Punctuation block from U+2010 on, and of the
    CJK Symbols and Punctuation block. *)
Definition isPunctuation (c : N) : bool :=
  ((33 <=? c) && (c <=? 47)) || ((58 <=? c) && (c <=? 64))
  || ((91 <=? c) && (c <=? 96)) || ((123 <=? c) && (c <=? 126))
  || ((161 <=? c) && (c <=? 191)) || ((8208 <=? c) && (c <=? 8231))
  || ((8240 <=? c) && (c <=? 8286)) || ((12289 <=? c) && (c <=? 12351)).

Definition purelyPunctuation (s : jsstring) : bool :=
  nonEmpty s && forallb isPunctuation s.

Definition placeholderTokens : list jsstring :=
  List.map js ["test"; "sample"; "dummy"; "fake"; "n/a"; "null"; "undefined"]%string.

(** A match that ignores the case of ASCII letters. *)
Definition isPlaceholder (s : jsstring) : bool :=
  existsb (fun token => eqbI s token) placeholderTokens.

(** No object with an own property [toString], neither the value
    itself nor, for an array, any of its elements at any depth. *)
Fixpoint convertible (v : value) : bool :=
  match v with
  | VArray elems => forallb convertible elems
  | VObject props => negb (hasOwnProperty (js "toString") props)
  | _ => true
  end.

(** A JSON object [{ "toString": null }]. *)
Definition unprintable : value := VObject [(js "toString", VNull)].

(** A finite Number between 0 and 1000, both included. *)
Definition inRange (x : number) : Prop :=
  exists q, x = Fin q /\ (0 <= q)%Q /\ (q <= 1000)%Q.

End ClassifierSpec.

(** ** For one call of the enrichment service *)

Module EnrichmentSpec.
Import JS WikipediaService.

(** The truncation as the specification words it: cut after the last
    period before character 200 when there is one, otherwise cut at 300
    and append the ellipsis. *)
Definition truncateAsSpecified (s : jsstring) : jsstring :=
  if (300 <? length s)%nat then
    let p := lastIndexOf 46 (firstn 200 s) in
    if (0 <=? p)%Z then firstn (Z.to_nat (p + 1)) s
    else firstn 300 s ++ js "..."
  else s.

(** 301 letters [a] with one period, at index 100. *)
Definition longSentence : jsstring := repeat 97 100 ++ [46] ++ repeat 97 200.

(** 299 letters [a] followed by five spaces. *)
Definition paddedWord : jsstring := repeat 97 299 ++ repeat 32 5.

(** A lookup that did not produce a description: it was rejected, or
    it resolved with [null] (status 404, no extract) or with an empty
    text. *)
Definition failed (o : outcome) : bool :=
  match o with
  | Rejected => true
  | Resolved v => negb (ToBoolean v)
  end.

(** A network on which every page is missing, each answer taking 10 ms. *)
Definition alwaysNotFound (n : nat) (searchTerm : jsstring) : outcome * nat :=
  (settle (StatusError 404), 10%nat).

(** The cache one call for an unknown city leaves behind. *)
Definition cacheAfterMiss : MemoryCache.state :=
  finalCache (exec (getCityDescription toLowerCase (js "Atlantis") (js "Nowhere"))
                alwaysNotFound MemoryCache.empty []).

(** A network whose first answer is a server error and whose second
    carries an extract. *)
Definition errorThenFound (n : nat) (searchTerm : jsstring) : outcome * nat :=
  match n with
  | O => (settle (StatusError 500), 10%nat)
  | _ => (settle (Response (VObject
            [(js "extract", VString (js "Berlin is the capital of Germany."))])),
          10%nat)
  end.

End EnrichmentSpec.

(** ** For the cache and its timers *)

Module CacheSpec.
Import JS MemoryCache.

(** What the cache maintains between calls: every scheduled timeout is
    the one registered in [timers] under its key, registered handles are
    older than the next handle, and no handle is registered under two
    keys. *)
Definition coherent (s : state) : Prop :=
  (forall t, In t (scheduled s) -> timers s !! target t = Some (handle t))
  /\ (forall k h, timers s !! k = Some h -> (h < nextHandle s)%nat)
  /\ (forall k1 k2 h, timers s !! k1 = Some h -> timers s !! k2 = Some h -> k1 = k2).

(** Between events, moreover, no scheduled timeout is overdue. *)
Definition wellFormed (s : state) : Prop :=
  coherent s /\ forall t, In t (scheduled s) -> (now s < due t)%Z.

(** The part of the state that concerns one key: its cache entry and the
    timeouts that target it. *)
Definition sameFor (key : jsstring) (s s' : state) : Prop :=
  cache s' !! key = cache s !! key
  /\ forall t, target t = key -> (In t (scheduled s') <-> In t (scheduled s)).

Definition noTimeoutFor (key : jsstring) (s : state) : Prop :=
  forall t, In t (scheduled s) -> target t <> key.

Definition armedFor (key : jsstring) (D : Z) (s : state) : Prop :=
  (exists t, In t (scheduled s) /\ target t = key)
  /\ forall t, In t (scheduled s) -> target t = key -> due t = D.

(** Does [set] schedule a removal for this [ttl]? *)
Definition expires (ttl : option Z) : option Z :=
  match ttl with
  | Some ms => if (0 <? ms)%Z then Some (timerDelay ms) else None
  | None => None
  end.

(** What the cache holds for a key: a value that stays, a value whose
    removal is scheduled for the clock value [D], or nothing. *)
Inductive status : Type :=
  | Kept (v : value)
  | Armed (v : value) (D : Z)
  | Gone.

Definition holds (key : jsstring) (st : status) (s : state) : Prop :=
  match st with
  | Kept v => cache s !! key = Some v /\ noTimeoutFor key s
  | Armed v D => cache s !! key = Some v /\ armedFor key D s
  | Gone => cache s !! key = None /\ noTimeoutFor key s
  end.

(** The status once the clock shows [time]. *)
Definition after (st : status) (time : Z) : status :=
  match st with
  | Armed v D => if (time <? D)%Z then Armed v D else Gone
  | _ => st
  end.

Definition elapsedOf (o : op) : nat :=
  match o with OWait ms => ms | _ => 0%nat end.

Definition leaves (key : jsstring) (ops : list op) : bool :=
  forallb (fun o => negb (writes key o)) ops.

End CacheSpec.

(** ** For the request queue *)

Module QueueSpec.
Import JS WikipediaService.

(** Send times, latest first, at least [gap] apart. *)
Fixpoint spaced (gap : Z) (sent : list (Z * request)) : Prop :=
  match sent with
  | (t2, _) :: rest =>
      match rest with
      | (t1, _) :: _ => (t1 + gap <= t2)%Z
      | [] => True
      end /\ spaced gap rest
  | [] => True
  end.

Definition canEncode (r : request) : bool := encodable (title r).

(** What holds of the queue between events, for the interval [gap]:
    the interval is the configured one; [isProcessing] is set exactly
    while one activation of the loop is suspended, and there is never a
    second one; the GETs sent are [gap] apart, and the next one cannot
    be sent before [gap] has passed since the last; the requests taken
    from the queue are the first ones pushed, and those that could be
    encoded are the GETs sent, in that order. *)
Record invariant (gap : Z) (s : qstate) : Prop := mkInvariant {
  inv_interval : minRequestInterval s = gap;
  inv_single :
    (isProcessing s = false /\ drains s = [])
    \/ (isProcessing s = true /\ exists p, drains s = [p]);
  inv_spaced : spaced gap (dispatched s);
  inv_next : forall t r rest, dispatched s = (t, r) :: rest ->
    match drains s with
    | [] => (t + gap <= clock s)%Z
    | AwaitGet _ :: _ => (t <= clock s)%Z
    | AwaitDelay wake :: _ => (t + gap <= wake)%Z
    end;
  inv_fifo : exists taken,
    pushed s = taken ++ requestQueue s
    /\ rev (List.map snd (dispatched s)) = List.filter canEncode taken
}.

(** Two pushes at once, replies after 5 and 30 ms, a third push once
    the queue is idle again. *)
Definition sampleEvents : list event :=
  [ EFetch (js "Berlin"); EFetch (js "Paris"); ETime 5; EReply 0 NoResponse;
    ETime 100; EWake 0; ETime 30; EReply 0 (StatusError 404); ETime 100;
    EWake 0; ETime 7; EFetch (js "Rome") ].

End QueueSpec.

(** ** For batches of records and the words of a name *)

Module BatchSpec.
Import JS DataValidator.

(** The entries [isValidCity] answers [true] for. *)
Definition accepted (entry : value) : bool :=
  match isValidCity entry with
  | Normal true => true
  | _ => false
  end.

(** An entry that ends the loop of [filterValidCities] with the error
    [message]: [isValidCity] throws it, or the entry is accepted and
    [normalizeCity] throws it. *)
Definition throwing (message : jsstring) (entry : value) : Prop :=
  isValidCity entry = Throw message
  \/ (isValidCity entry = Normal true /\ normalizeCity entry = Throw message).

(** The same letters, whatever the case of the ASCII ones. *)
Definition sameLetters (w word : jsstring) : bool := eqbI w word.

End BatchSpec.

(** ** For the texts and the cache entries of the enrichment service *)

Module DescriptionSpec.
Import JS WikipediaService.

(** No white space at either end. *)
Definition trimmed (s : jsstring) : Prop := trim s = s.

(** The TTL [getCityDescription] stores a result with: a day for a
    description, an hour for [null]. *)
Definition ttlOf (v : value) : Z :=
  if ToBoolean v then 86400000%Z else 3600000%Z.

(** The first code unit, if there is one, is not white space. *)
Definition headOk (l : jsstring) : Prop :=
  match l with c :: _ => isWhiteSpace c = false | [] => True end.

(** A network that knows every city at the first lookup. *)
Definition alwaysFound (n : nat) (searchTerm : jsstring) : outcome * nat :=
  (settle (Response (VObject [(js "extract", VString (js "A city."))])), 10%nat).

End DescriptionSpec.

(** ** For the bookkeeping of the cache *)

Module StoreSpec.
Import JS MemoryCache CacheSpec.

(** At most one removal is scheduled per key; a key with a scheduled
    removal is in the cache; and whatever [timers] registers is
    scheduled. *)
Definition tidy (s : state) : Prop :=
  (forall t1 t2, In t1 (scheduled s) -> In t2 (scheduled s) ->
                 target t1 = target t2 -> t1 = t2)
  /\ (forall t, In t (scheduled s) -> is_Some (cache s !! target t))
  /\ (forall k h, timers s !! k = Some h ->
        exists t, In t (scheduled s) /\ handle t = h /\ target t = k).

(** A [set] or [delete] of the key. *)
Definition writesOnly (key : jsstring) (o : op) : bool :=
  match o with
  | OSet k _ _ | ODelete k => jsstring_eqb k key
  | _ => false
  end.

(** The value a status stands for. *)
Definition valueOf (st : status) : option value :=
  match st with
  | Kept v | Armed v _ => Some v
  | Gone => None
  end.

End StoreSpec.

(** ** For the promises of the request queue *)

Module DrainSpec.
Import JS WikipediaService.

(** The promise of the request whose GET is awaited, if any. *)
Definition awaited (s : qstate) : list nat :=
  match drains s with
  | AwaitGet r :: _ => [rid r]
  | _ => []
  end.

(** The bookkeeping of the queue: no loop runs only when nothing is
    queued, and then nothing is suspended; the promises are numbered in
    the order of the pushes; the promises settled so far, in order, and
    the one awaited are those of the requests taken from the queue, which
    are the first ones pushed. *)
Record accounted (s : qstate) : Prop := mkAccounted {
  acc_single :
    (isProcessing s = false /\ drains s = [] /\ requestQueue s = [])
    \/ (isProcessing s = true /\ exists p, drains s = [p]);
  acc_rids : List.map rid (pushed s) = seq 0 (length (pushed s));
  acc_taken : exists taken,
    pushed s = taken ++ requestQueue s
    /\ rev (List.map fst (settled s)) ++ awaited s = List.map rid taken
}.

(** Nothing queued, nothing suspended, no loop. *)
Definition idle (s : qstate) : Prop :=
  isProcessing s = false /\ drains s = [] /\ requestQueue s = [].

(** The events that let a suspended loop finish with the queue as it
    is: each awaited GET is answered as [answer] says, each delay is
    waited for. [fuel] bounds the number of suspensions. *)
Definition resume (answer : request -> reply) (s : qstate) : list event :=
  match drains s with
  | AwaitGet r :: _ => [EReply 0 (answer r)]
  | AwaitDelay wake :: _ => [ETime (Z.to_nat (wake - clock s)); EWake 0]
  | [] => []
  end.

Fixpoint drainEvents (answer : request -> reply) (fuel : nat) (s : qstate) : list event :=
  match fuel with
  | O => []
  | S fuel' =>
      match drains s with
      | [] => []
      | _ :: _ =>
          resume answer s
          ++ match qrun s (resume answer s) with
             | Some s' => drainEvents answer fuel' s'
             | None => []
             end
      end
  end.

End DrainSpec.

(** ** For requests and the pollution source *)

Module RequestSpec.
Import JS.

(** A query [{ page, limit }] of strings. *)
Definition queryOf (page limit : string) : list (jsstring * value) :=
  [(js "page", VString (js page)); (js "limit", VString (js limit))].

(** A pollution source that accepts every login with the token
    ["t0k3n"] and answers every GET with [body]. *)
Definition steady (body : value) : PollutionService.upstream :=
  {| PollutionService.login := PollutionService.Response
       (VObject [(js "token", VString (js "t0k3n"))]);
     PollutionService.pollution := fun _ _ _ _ => PollutionService.Response body |}.

(** The body of a login that grants the token [t]. *)
Definition grants (t : string) : value := VObject [(js "token", VString (js t))].

(** The source turns a GET away. *)
Definition unauthorized : PollutionService.http :=
  PollutionService.Failure (js "Request failed with status code 401").

(** No call is waiting for the POST of [authenticate]. *)
Definition noLoginPending (s : PollutionService.service) : Prop :=
  Forall (fun p => p <> PollutionService.AwaitLogin) (PollutionService.calls s).

(** The service after one call has logged in with the token ["t0k3n"]
    and before that call resumes. *)
Definition loggedIn : PollutionService.service :=
  {| PollutionService.token := VString (js "t0k3n");
     PollutionService.calls := [PollutionService.AwaitAuthenticate (Normal tt)];
     PollutionService.logins := 1;
     PollutionService.sent := [] |}.

Definition sampleBody : value :=
  VObject [(js "page", VNumber (ofZ 1));
           (js "results",
            VArray [VObject [(js "name", VString (js "Berlin"));
                             (js "country", VString (js "Germany"));
                             (js "pollution", VNumber (ofZ 51))]])].

End RequestSpec.

(** * Properties *)

Import JS.

(** ** The ECMAScript fragment on known values *)

Example parseFloat_examples :
  parseFloat (js "51.3") = Fin (3609916576314163 # 70368744177664)
  /\ parseFloat (js "  12abc") = Fin 12
  /\ parseFloat (js "1e3") = Fin 1000
  /\ parseFloat (js ".5") = Fin (1 # 2)
  /\ parseFloat (js "-Infinity") = Inf true
  /\ parseFloat (js "0x10") = Fin 0
  /\ parseFloat (js "abc") = NaN
  /\ parseFloat (js "") = NaN
  /\ parseFloat (js "1e400") = Inf false
  /\ parseFloat (js "1000.00000000000000001") = Fin 1000.
Proof. repeat split; vm_compute; reflexivity. Qed.

Example StringToNumber_examples :
  StringToNumber (js "") = Fin 0
  /\ StringToNumber (js " 0x1F ") = Fin 31
  /\ StringToNumber (js "12abc") = NaN
  /\ StringToNumber (js "5,6") = NaN.
Proof. repeat split; vm_compute; reflexivity. Qed.

Example NumberToString_examples :
  NumberToString (parseFloat (js "0.1")) = js "0.1"
  /\ NumberToString (parseFloat (js "51.30")) = js "51.3"
  /\ NumberToString (ofZ 1000) = js "1000"
  /\ NumberToString (parseFloat (js "1e21")) = js "1e+21"
  /\ NumberToString (parseFloat (js "0.0000001")) = js "1e-7"
  /\ NumberToString (parseFloat (js "-1000.1")) = js "-1000.1"
  /\ NumberToString (parseFloat (js "0.30000000000000004")) = js "0.30000000000000004"
  /\ NumberToString (parseFloat (js "9007199254740993")) = js "9007199254740992".
Proof. repeat split; vm_compute; reflexivity. Qed.

Example ToNumber_examples :
  ToNumber (VArray []) = Normal (Fin 0)
  /\ ToNumber (VArray [VNumber (ofZ 5)]) = Normal (Fin 5)
  /\ ToNumber (VArray [VNumber (ofZ 5); VNumber (ofZ 6)]) = Normal NaN
  /\ ToNumber (VObject []) = Normal NaN
  /\ ToNumber (VBool true) = Normal (Fin 1)
  /\ ToNumber VNull = Normal (Fin 0)
  /\ ToNumber VUndefined = Normal NaN
  /\ ToNumber (VObject [(js "toString", VNull)]) = Throw notPrimitive
  /\ ToNumber (VArray [VObject [(js "valueOf", VNumber (ofZ 5))]]) = Normal NaN.
Proof. repeat split; vm_compute; reflexivity. Qed.

Example ToString_examples :
  ToString (VArray [VNumber (ofZ 1); VNull; VArray [VString (js "a"); VObject []]])
  = Normal (js "1,,a,[object Object]")
  /\ ToString (VObject [(js "name", VString (js "Berlin"))]) = Normal (js "[object Object]")
  /\ ToString (VObject [(js "toString", VString (js "Berlin"))]) = Throw notPrimitive
  /\ ToString (VArray [VNumber (ofZ 1); VObject [(js "toString", VNull)]]) = Throw notPrimitive.
Proof. repeat split; vm_compute; reflexivity. Qed.

Example trim_examples :
  trim (js "  New York  ") = js "New York"
  /\ trim [160; 65279; 66; 32; 8232] = [66]
  /\ splitWhiteSpace (js "Port  City") = [js "Port"; js "City"]
  /\ toLowerCase (js "LaKe") = js "lake"
  /\ toLowerCase [76; 65; 8490; 69] = js "lake".
Proof. repeat split; vm_compute; reflexivity. Qed.

(** ** The record classifier *)

Section Classifier.
Import DataValidator ClassifierSpec.

(** The batch of the specification: of Berlin, "12345" and "Test" only
    Berlin survives, its pollution parsed. *)
Example filterValidCities_example :
  filterValidCities
    (VArray [ record (VString (js "Berlin")) (VString (js "Germany")) (VString (js "51.3"));
              record (VString (js "12345")) (VString (js "XX")) (VNumber (ofZ 10));
              record (VString (js "Test")) (VString (js "US")) (VNumber (ofZ 5)) ])
  = Normal [ {| name := js "Berlin"; country := js "Germany";
                pollution := parseFloat (js "51.3") |} ].
Proof. vm_compute. reflexivity. Qed.

Example isValidCityName_examples :
  List.map (fun s => isValidCityName (VString (js s)))
    ["Berlin"; "Port"; "Port City"; "Seattle"; "New York State"; "a1"; "a12";
     " Paris "; "<>"; "N/A"]%string
  = [true; false; true; false; false; true; false; true; false; false].
Proof. vm_compute. reflexivity. Qed.

Example isValidCountry_examples :
  List.map (fun s => isValidCountry (VString (js s)))
    ["Germany"; "XX"; "US"; "us"; "undefined"; "D"]%string
  = [true; false; true; true; false; false].
Proof. vm_compute. reflexivity. Qed.


Lemma isValidCity_not_nullish entry :
  isValidCity entry = Normal true -> isNullish entry = false.
Proof. destruct entry; simpl; auto; discriminate. Qed.

(** What [ToString] does is settled by [convertible]. *)
Lemma ToString_convertible : forall v,
  if convertible v then exists s, ToString v = Normal s
  else ToString v = Throw notPrimitive.
Proof.
  fix IH 1. intros [| |[|]|x|s|elems|props]; cbn [convertible ToString]; eauto.
  - assert (Helems :
      if forallb convertible elems
      then exists parts,
             (fix elements (l : list value) : completion (list jsstring) :=
                match l with
                | [] => Normal []
                | e :: rest =>
                    let* s := match e with
                              | VUndefined | VNull => Normal []
                              | _ => ToString e
                              end in
                    let* parts := elements rest in
                    Normal (s :: parts)
                end) elems = Normal parts
      else (fix elements (l : list value) : completion (list jsstring) :=
              match l with
              | [] => Normal []
              | e :: rest =>
                  let* s := match e with
                            | VUndefined | VNull => Normal []
                            | _ => ToString e
                            end in
                  let* parts := elements rest in
                  Normal (s :: parts)
              end) elems = Throw notPrimitive).
    { induction elems as [|e rest IHrest]; cbn [forallb]; [eauto|].
      pose proof (IH e) as He.
      destruct (convertible e); cbn [andb].
      - destruct He as [s He].
        assert (Hhead : exists s', match e with
                                   | VUndefined | VNull => Normal []
                                   | _ => ToString e
                                   end = Normal s')
          by (destruct e; eauto).
        destruct Hhead as [s' ->]. cbn [bind].
        destruct (forallb convertible rest).
        + destruct IHrest as [parts ->]. cbn [bind]. eauto.
        + rewrite IHrest. reflexivity.
      - assert (Hhead : match e with
                        | VUndefined | VNull => Normal []
                        | _ => ToString e
                        end = Throw notPrimitive)
          by (destruct e; try discriminate He; exact He).
        rewrite Hhead. reflexivity. }
    destruct (forallb convertible elems).
    + destruct Helems as [parts ->]. cbn [bind]. eauto.
    + rewrite Helems. reflexivity.
  - destruct (hasOwnProperty (js "toString") props); cbn [negb]; eauto.
Qed.

Lemma ToString_returns v : convertible v = true -> exists s, ToString v = Normal s.
Proof. intros H. pose proof (ToString_convertible v) as Hs. rewrite H in Hs. exact Hs. Qed.

Lemma ToString_throws v : convertible v = false -> ToString v = Throw notPrimitive.
Proof. intros H. pose proof (ToString_convertible v) as Hs. rewrite H in Hs. exact Hs. Qed.

Lemma ToNumber_returns v : convertible v = true -> exists x, ToNumber v = Normal x.
Proof.
  intros H. destruct (ToString_returns v H) as [s Hs].
  destruct v as [| |[|]|x|t|elems|props]; cbn [ToNumber]; eauto; rewrite Hs; cbn; eauto.
Qed.

Lemma ToNumber_throws v : convertible v = false -> ToNumber v = Throw notPrimitive.
Proof.
  intros H. pose proof (ToString_throws v H) as Hs.
  destruct v as [| |[|]|x|t|elems|props]; try discriminate H; cbn [ToNumber]; rewrite Hs;
    reflexivity.
Qed.

(** A value [ToNumber] converts is one [ToString] converts. *)
Lemma ToNumber_ToString v x : ToNumber v = Normal x -> exists s, ToString v = Normal s.
Proof.
  destruct v as [| |[|]|y|t|elems|props]; cbn [ToNumber]; try (cbn [ToString]; eauto; fail).
  - destruct (ToString (VArray elems)) as [s|m]; [eauto | discriminate].
  - destruct (ToString (VObject props)) as [s|m]; [eauto | discriminate].
Qed.

(** With a Number in hand nothing throws: the answer of
    [isValidPollutionValue] is that of the four tests. *)
Lemma isValidPollutionValue_ToNumber p x :
  ToNumber (match p with VString s => VNumber (parseFloat s) | _ => p end) = Normal x ->
  isValidPollutionValue p
  = Normal (negb (numIsNaN x || negb (numIsFinite x) || lt x (ofZ 0) || gt x (ofZ 1000))).
Proof.
  intros Hx. unfold isValidPollutionValue, isNaN, isFinite, lessThan, greaterThan, orElse.
  rewrite Hx. cbn [bind].
  destruct (numIsNaN x); cbn [bind orb negb]; [reflexivity|].
  destruct (numIsFinite x); cbn [bind orb negb]; [|reflexivity].
  destruct (lt x (ofZ 0)); cbn [bind orb negb]; [reflexivity|].
  destruct (gt x (ofZ 1000)); reflexivity.
Qed.

Lemma isValidPollutionValue_returns p :
  convertible p = true -> exists b, isValidPollutionValue p = Normal b.
Proof.
  intros H.
  assert (Hc : convertible (match p with VString s => VNumber (parseFloat s) | _ => p end)
               = true) by (destruct p; auto).
  destruct (ToNumber_returns _ Hc) as [x Hx].
  rewrite (isValidPollutionValue_ToNumber p x Hx). eauto.
Qed.

Lemma isValidPollutionValue_throws p :
  convertible p = false -> isValidPollutionValue p = Throw notPrimitive.
Proof.
  intros H. pose proof (ToNumber_throws p H) as Hx.
  unfold isValidPollutionValue, isNaN, orElse.
  destruct p; try discriminate H; rewrite Hx; reflexivity.
Qed.

(** A value [isValidPollutionValue] answers for is one [ToString]
    converts. *)
Lemma isValidPollutionValue_ToString p b :
  isValidPollutionValue p = Normal b -> exists s, ToString p = Normal s.
Proof.
  intros H. destruct (convertible p) eqn:Hc; [apply ToString_returns, Hc|].
  rewrite (isValidPollutionValue_throws p Hc) in H. discriminate H.
Qed.

Lemma isValidCity_returns entry :
  convertible (getProp (js "pollution") entry) = true ->
  exists b, isValidCity entry = Normal b.
Proof.
  intros H. unfold isValidCity.
  destruct (negb (ToBoolean entry) || negb (typeofIsObject entry)); [eauto|].
  destruct (negb (ToBoolean (getProp (js "name") entry))
            || isNullish (getProp (js "pollution") entry)); [eauto|].
  destruct (negb (isValidCityName (getProp (js "name") entry))); [eauto|].
  destruct (isValidPollutionValue_returns _ H) as [b ->]. cbn [bind].
  destruct b; cbn; eauto.
Qed.

Lemma isValidCity_accepts entry :
  isValidCity entry = Normal true <->
    ToBoolean entry = true
    /\ typeofIsObject entry = true
    /\ ToBoolean (getProp (js "name") entry) = true
    /\ isNullish (getProp (js "pollution") entry) = false
    /\ isValidCityName (getProp (js "name") entry) = true
    /\ isValidPollutionValue (getProp (js "pollution") entry) = Normal true.
Proof.
  unfold isValidCity.
  destruct (ToBoolean entry); simpl; [|intuition discriminate].
  destruct (typeofIsObject entry); simpl; [|intuition discriminate].
  destruct (ToBoolean (getProp (js "name") entry)); simpl; [|intuition discriminate].
  destruct (isNullish (getProp (js "pollution") entry)); simpl; [intuition discriminate|].
  destruct (isValidCityName (getProp (js "name") entry)); simpl; [|intuition discriminate].
  destruct (isValidPollutionValue (getProp (js "pollution") entry)) as [[|]|m]; simpl;
    intuition discriminate.
Qed.

(** For an accepted entry only the country can make [normalizeCity]
    throw. *)
Lemma normalizeCity_returns entry :
  isValidCity entry = Normal true ->
  convertible (getProp (js "country") entry) = true ->
  exists city, normalizeCity entry = Normal city.
Proof.
  intros Hvalid Hcountry.
  pose proof (proj1 (isValidCity_accepts entry) Hvalid) as (_ & _ & _ & _ & Hname & Hpoll).
  unfold normalizeCity, parseFloatOf. rewrite (isValidCity_not_nullish entry Hvalid).
  destruct (getProp (js "name") entry) as [| |b|x|nm|l|o]; try discriminate Hname.
  cbn [ToString bind].
  destruct (ToString_returns _ Hcountry) as [c ->]. cbn [bind].
  destruct (isValidPollutionValue_ToString _ _ Hpoll) as [p ->]. cbn [bind]. eauto.
Qed.

Lemma normalizeCity_throws entry :
  isValidCity entry = Normal true ->
  convertible (getProp (js "country") entry) = false ->
  normalizeCity entry = Throw notPrimitive.
Proof.
  intros Hvalid Hcountry.
  pose proof (proj1 (isValidCity_accepts entry) Hvalid) as (_ & _ & _ & _ & Hname & _).
  unfold normalizeCity. rewrite (isValidCity_not_nullish entry Hvalid).
  destruct (getProp (js "name") entry) as [| |b|x|nm|l|o]; try discriminate Hname.
  cbn [ToString bind]. rewrite (ToString_throws _ Hcountry). reflexivity.
Qed.

Lemma filterLoop_normal entries :
  Forall (fun entry => convertible (getProp (js "country") entry) = true
                       /\ convertible (getProp (js "pollution") entry) = true) entries ->
  forall acc n, exists cities m, filterLoop entries acc n = Normal (cities, m).
Proof.
  induction 1 as [|entry rest [Hcountry Hpollution] _ IH]; intros acc n; cbn [filterLoop].
  - eauto.
  - destruct (isValidCity_returns entry Hpollution) as [[|] Hv]; rewrite Hv; cbn [bind].
    + destruct (normalizeCity_returns entry Hv Hcountry) as [city ->]. cbn [bind]. apply IH.
    + apply IH.
Qed.

(** C10, as stated, fails: an entry with a valid name and pollution
    whose country is the object [{ "toString": null }] is accepted, and
    [String(city.country)] in [normalizeCity] throws a TypeError, which
    nothing catches; so does [isNaN] in [isValidPollutionValue] when the
    pollution is such an object. *)
Lemma filterValidCities_throws :
  (let entry := record (VString (js "Berlin")) unprintable (VNumber (ofZ 5)) in
   isValidCity entry = Normal true
   /\ normalizeCity entry = Throw notPrimitive
   /\ filterValidCities (VArray [entry]) = Throw notPrimitive)
  /\ (let entry := record (VString (js "Berlin")) (VString (js "DE")) unprintable in
      isValidCity entry = Throw notPrimitive
      /\ filterValidCities (VArray [entry]) = Throw notPrimitive)
  /\ ~ (forall rawData, exists cities, filterValidCities rawData = Normal cities).
Proof.
  split; [cbv zeta; repeat split; vm_compute; reflexivity|].
  split; [cbv zeta; repeat split; vm_compute; reflexivity|].
  intros Htotal.
  destruct (Htotal (VArray [record (VString (js "Berlin")) unprintable (VNumber (ofZ 5))]))
    as [cities Hcities].
  vm_compute in Hcities. discriminate Hcities.
Qed.

(** C10, amended. For anything but an array (an object, a string,
    [null], [undefined], a number, a boolean) [filterValidCities]
    returns the empty list and does not throw; for an array it returns
    and does not throw when no entry carries, as its country or its
    pollution, an object with an own [toString] or an array that holds
    one. *)
Theorem filterValidCities_total :
  (forall rawData, (forall entries, rawData <> VArray entries) ->
     filterValidCities rawData = Normal [])
  /\ (forall entries,
        Forall (fun entry => convertible (getProp (js "country") entry) = true
                             /\ convertible (getProp (js "pollution") entry) = true)
               entries ->
        exists cities, filterValidCities (VArray entries) = Normal cities).
Proof.
  split.
  - intros rawData Hna. destruct rawData; simpl; try reflexivity.
    exfalso. eapply Hna. reflexivity.
  - intros entries Hentries. cbn [filterValidCities].
    destruct (filterLoop_normal entries Hentries [] 0%nat) as (cities & m & ->).
    cbn. eauto.
Qed.

Lemma filterValidCities_total_witness :
  filterValidCities (VObject [(js "results", VArray [])]) = Normal []
  /\ filterValidCities (VString (js "Berlin")) = Normal []
  /\ filterValidCities VNull = Normal []
  /\ filterValidCities VUndefined = Normal []
  /\ exists cities,
       filterValidCities
         (VArray [record (VString (js "Berlin")) (VArray [VObject []]) (VString (js "51.3"));
                  VNull]) = Normal cities.
Proof.
  split; [|split; [|split; [|split]]];
    try (apply (proj1 filterValidCities_total); intros; discriminate).
  apply (proj2 filterValidCities_total).
  constructor; [split; reflexivity|]. constructor; [split; reflexivity|]. constructor.
Defined.

(** C8. [isValidCity] accepts exactly the entries that are objects, have
    a truthy [name], a [pollution] that is neither [undefined] nor
    [null], a valid name and a valid pollution value. The country plays
    no part: two objects with the same [name] and [pollution] get the
    same answer, and records whose country is no valid country (an
    unknown two-letter code, or none at all) are accepted. *)
Theorem isValidCity_iff :
  (forall entry,
     isValidCity entry = Normal true <->
       ToBoolean entry = true
       /\ typeofIsObject entry = true
       /\ ToBoolean (getProp (js "name") entry) = true
       /\ isNullish (getProp (js "pollution") entry) = false
       /\ isValidCityName (getProp (js "name") entry) = true
       /\ isValidPollutionValue (getProp (js "pollution") entry) = Normal true)
  /\ (forall n p c c', isValidCity (record n c p) = isValidCity (record n c' p))
  /\ (isValidCountry (VString (js "XX")) = false
      /\ isValidCity (record (VString (js "Berlin")) (VString (js "XX"))
                        (VNumber (ofZ 5))) = Normal true)
  /\ (isValidCountry VUndefined = false
      /\ isValidCity (VObject [(js "name", VString (js "Berlin"));
                               (js "pollution", VNumber (ofZ 5))]) = Normal true).
Proof.
  split; [|split; [|split]].
  - exact isValidCity_accepts.
  - intros n p c c'. reflexivity.
  - split; vm_compute; reflexivity.
  - split; vm_compute; reflexivity.
Qed.

Lemma no_letter_invalid s :
  forallb (fun c => negb (isLetter c)) s = true ->
  existsb (fun pattern : jsstring -> bool => pattern s) invalidPatterns = true.
Proof.
  intros H. unfold invalidPatterns.
  cbn [existsb]. rewrite H. rewrite orb_true_r. reflexivity.
Qed.

Lemma digit_not_letter c : isDigit c = true -> negb (isLetter c) = true.
Proof.
  unfold isDigit, isLetter, isUpper, isLower. intros H.
  apply andb_true_iff in H as [H1 H2].
  apply N.leb_le in H1, H2.
  destruct (65 <=? c) eqn:E1; destruct (97 <=? c) eqn:E2; simpl; auto;
    try (apply N.leb_le in E1); try (apply N.leb_le in E2); lia.
Qed.

Lemma punctuation_not_letter c : isPunctuation c = true -> negb (isLetter c) = true.
Proof.
  unfold isPunctuation, isLetter, isUpper, isLower. intros H.
  destruct (65 <=? c) eqn:E1; destruct (c <=? 90) eqn:E2;
  destruct (97 <=? c) eqn:E3; destruct (c <=? 122) eqn:E4; simpl; auto; exfalso;
    repeat match goal with
           | H : (_ <=? _) = true |- _ => apply N.leb_le in H
           | H : (_ <=? _) = false |- _ => apply N.leb_gt in H
           end;
    repeat (apply orb_true_iff in H as [H|H]);
    apply andb_true_iff in H as [Ha Hb];
    apply N.leb_le in Ha, Hb; lia.
Qed.

Lemma placeholder_invalid s :
  isPlaceholder s = true ->
  existsb (fun pattern : jsstring -> bool => pattern s) invalidPatterns = true.
Proof.
  unfold isPlaceholder, placeholderTokens, invalidPatterns. intros H.
  cbn [existsb List.map] in *.
  repeat (apply orb_true_iff in H as [H|H]); try discriminate;
    rewrite H; rewrite ?orb_true_r; reflexivity.
Qed.

Lemma isValidCityName_invalid s :
  existsb (fun pattern : jsstring -> bool => pattern (trim s)) invalidPatterns = true ->
  isValidCityName (VString s) = false.
Proof.
  intros H. unfold isValidCityName.
  destruct ((length (trim s) <? 1)%nat || (100 <? length (trim s))%nat); [reflexivity|].
  rewrite H. reflexivity.
Qed.

Lemma isValidCity_name entry :
  isValidCityName (getProp (js "name") entry) = false -> isValidCity entry = Normal false.
Proof.
  intros H. unfold isValidCity.
  destruct (negb (ToBoolean entry) || negb (typeofIsObject entry)); [reflexivity|].
  destruct (negb (ToBoolean (getProp (js "name") entry))
            || isNullish (getProp (js "pollution") entry)); [reflexivity|].
  rewrite H. reflexivity.
Qed.

(** C7. An entry whose name, trimmed, consists of digits only, of
    punctuation only, or is one of the words test, sample, dummy, fake,
    n/a, null, undefined in any mix of upper and lower case, is rejected,
    whatever its other fields are. *)
Theorem isValidCity_rejects_placeholder_names entry s :
  getProp (js "name") entry = VString s ->
  purelyNumeric (trim s) || purelyPunctuation (trim s) || isPlaceholder (trim s) = true ->
  isValidCity entry = Normal false.
Proof.
  intros Hname H. apply isValidCity_name. rewrite Hname.
  apply isValidCityName_invalid.
  apply orb_true_iff in H as [H|H]; [apply orb_true_iff in H as [H|H]|].
  - apply no_letter_invalid. apply andb_true_iff in H as [_ H].
    apply forallb_forall. intros c Hc.
    apply digit_not_letter. eapply forallb_forall in H; eauto.
  - apply no_letter_invalid. apply andb_true_iff in H as [_ H].
    apply forallb_forall. intros c Hc.
    apply punctuation_not_letter. eapply forallb_forall in H; eauto.
  - apply placeholder_invalid, H.
Qed.

Lemma isValidCity_rejects_placeholder_names_witness :
  isValidCity (record (VString (js "12345")) (VString (js "XX")) (VNumber (ofZ 10)))
  = Normal false
  /\ isValidCity (record (VString (js " ?!-- ")) (VString (js "DE")) (VNumber (ofZ 10)))
     = Normal false
  /\ isValidCity (record (VString (js "Test")) (VString (js "US")) (VNumber (ofZ 5)))
     = Normal false
  /\ isValidCity (record (VString (js "N/A")) (VString (js "US")) (VNumber (ofZ 5)))
     = Normal false.
Proof.
  split; [|split; [|split]].
  - apply (isValidCity_rejects_placeholder_names _ (js "12345")); reflexivity.
  - apply (isValidCity_rejects_placeholder_names _ (js " ?!-- ")); reflexivity.
  - apply (isValidCity_rejects_placeholder_names _ (js "Test")); reflexivity.
  - apply (isValidCity_rejects_placeholder_names _ (js "N/A")); reflexivity.
Defined.

Lemma isValidPollutionValue_number x :
  isValidPollutionValue (VNumber x) = Normal true <-> inRange x.
Proof.
  rewrite (isValidPollutionValue_ToNumber (VNumber x) x eq_refl). unfold inRange.
  destruct x as [|neg|q]; cbn.
  - split; [discriminate|]. intros (q & H & _). discriminate.
  - split; [discriminate|]. intros (q & H & _). discriminate.
  - unfold Qltb.
    destruct (Qle_bool (inject_Z 0) q) eqn:E0;
      destruct (Qle_bool q (inject_Z 1000)) eqn:E1; cbn.
    + split; [|reflexivity]. intros _. exists q.
      apply Qle_bool_iff in E0, E1. auto.
    + split; [discriminate|]. intros (q' & [= <-] & _ & H).
      apply Qle_bool_iff in H. unfold inject_Z in *. congruence.
    + split; [discriminate|]. intros (q' & [= <-] & H & _).
      apply Qle_bool_iff in H. unfold inject_Z in *. congruence.
    + split; [discriminate|]. intros (q' & [= <-] & H & _).
      apply Qle_bool_iff in H. unfold inject_Z in *. congruence.
Qed.

Lemma isValidCityName_truthy nm :
  isValidCityName (VString nm) = true -> ToBoolean (VString nm) = true.
Proof. destruct nm; [vm_compute; discriminate | reflexivity]. Qed.



Lemma trimStart_stable s :
  match s with c :: _ => isWhiteSpace c = false | [] => True end ->
  trimStart s = s.
Proof. destruct s as [|c s]; cbn; [reflexivity|]. intros ->. reflexivity. Qed.

Lemma trimStart_head s :
  match trimStart s with c :: _ => isWhiteSpace c = false | [] => True end.
Proof.
  induction s as [|c s IH]; cbn; [exact I|].
  destruct (isWhiteSpace c) eqn:E; [exact IH | exact E].
Qed.

Lemma trimStart_suffix s : exists ws, s = ws ++ trimStart s.
Proof.
  induction s as [|c s [ws IH]]; cbn; [exists []; reflexivity|].
  destruct (isWhiteSpace c).
  - exists (c :: ws). cbn. rewrite <- IH. reflexivity.
  - exists []. reflexivity.
Qed.

(** Trimming a trimmed string changes nothing. *)
Lemma trim_idempotent s : trim (trim s) = trim s.
Proof.
  unfold trim, trimEnd.
  set (u := trimStart s). set (v := trimStart (rev u)).
  assert (Hhead : match rev v with c :: _ => isWhiteSpace c = false | [] => True end).
  { destruct (trimStart_suffix (rev u)) as [ws Hws]. fold v in Hws.
    apply (f_equal (@rev N)) in Hws. rewrite rev_involutive, rev_app_distr in Hws.
    pose proof (trimStart_head s) as Hu. fold u in Hu. rewrite Hws in Hu.
    destruct (rev v) as [|c r]; [exact I | exact Hu]. }
  rewrite (trimStart_stable (rev v) Hhead), rev_involutive.
  rewrite (trimStart_stable v); [reflexivity|].
  apply trimStart_head.
Qed.

Lemma isValidCityName_trim s :
  isValidCityName (VString (trim s)) = isValidCityName (VString s).
Proof. unfold isValidCityName. rewrite trim_idempotent. reflexivity. Qed.

Lemma isValidCountry_trim s :
  isValidCountry (VString (trim s)) = isValidCountry (VString s).
Proof. unfold isValidCountry. rewrite trim_idempotent. reflexivity. Qed.

(** What does hold of the normalised city of an accepted entry, when
    there is one: its name is the entry's, trimmed, and a valid name;
    its country is a valid country if the entry's country was one; its
    pollution is in range if the entry's pollution was a string. *)
Lemma normalizeCity_accepted entry city :
  isValidCity entry = Normal true ->
  normalizeCity entry = Normal city ->
  (exists s, getProp (js "name") entry = VString s /\ name city = trim s)
  /\ (exists c, ToString (getProp (js "country") entry) = Normal c
                /\ country city = trim c)
  /\ isValidCityName (VString (name city)) = true
  /\ (isValidCountry (getProp (js "country") entry) = true ->
      isValidCountry (VString (country city)) = true)
  /\ (forall s, getProp (js "pollution") entry = VString s ->
                pollution city = parseFloat s /\ inRange (pollution city)).
Proof.
  intros Hvalid. pose proof (proj1 (isValidCity_accepts entry) Hvalid)
    as (_ & _ & _ & _ & Hname & Hpoll).
  unfold normalizeCity, parseFloatOf. rewrite (isValidCity_not_nullish entry Hvalid).
  destruct (getProp (js "name") entry) as [| |b|x|nm|l|o]; try discriminate Hname.
  cbn [ToString bind].
  destruct (ToString (getProp (js "country") entry)) as [c|m] eqn:Hc; [|discriminate].
  cbn [bind].
  destruct (ToString (getProp (js "pollution") entry)) as [p|m] eqn:Hp; [|discriminate].
  cbn [bind]. intros [= <-]. cbn [name country pollution].
  split; [eauto|]. split; [eauto|]. split; [|split].
  - rewrite isValidCityName_trim. exact Hname.
  - intros Hcountry.
    destruct (getProp (js "country") entry) as [| |b|x|s|l|o]; try discriminate Hcountry.
    cbn [ToString] in Hc. injection Hc as <-.
    rewrite isValidCountry_trim. exact Hcountry.
  - intros s Hs. rewrite Hs in *. cbn [ToString] in Hp. injection Hp as <-.
    split; [reflexivity|].
    apply (isValidPollutionValue_number (parseFloat s)). exact Hpoll.
Qed.

(** C4. [isValidCity] does not look at the country, and it lets a
    boolean pollution through: accepted entries whose normalised country
    fails [isValidCountry] (an unknown two-letter code; no country at
    all, which becomes the text "undefined") and an accepted entry whose
    normalised pollution is NaN. *)
Theorem normalizeCity_fields_unchecked :
  (let entry := record (VString (js "Berlin")) (VString (js "XX")) (VNumber (ofZ 5)) in
   isValidCity entry = Normal true
   /\ normalizeCity entry
      = Normal {| name := js "Berlin"; country := js "XX"; pollution := ofZ 5 |}
   /\ isValidCountry (VString (js "XX")) = false)
  /\ (let entry := VObject [(js "name", VString (js "Berlin"));
                            (js "pollution", VNumber (ofZ 5))] in
      isValidCity entry = Normal true
      /\ normalizeCity entry
         = Normal {| name := js "Berlin"; country := js "undefined"; pollution := ofZ 5 |}
      /\ isValidCountry (VString (js "undefined")) = false)
  /\ (let entry := record (VString (js "Berlin")) (VString (js "DE")) (VBool true) in
      isValidCity entry = Normal true
      /\ normalizeCity entry
         = Normal {| name := js "Berlin"; country := js "DE"; pollution := NaN |}
      /\ isValidPollutionValue (VNumber NaN) = Normal false).
Proof.
  split; [|split]; cbv zeta; (split; [|split]); vm_compute; reflexivity.
Qed.

End Classifier.

(** ** The enrichment service: one call *)

Section Enrichment.
Import WikipediaService EnrichmentSpec.

Lemma trimStart_length s : (length (trimStart s) <= length s)%nat.
Proof.
  induction s as [|c s IH]; simpl; [lia|].
  destruct (isWhiteSpace c); simpl; lia.
Qed.

Lemma trim_length s : (length (trim s) <= length s)%nat.
Proof.
  unfold trim, trimEnd. rewrite length_rev.
  etransitivity; [apply trimStart_length|]. rewrite length_rev.
  apply trimStart_length.
Qed.

Lemma lastIndexOf_aux_spec c s : forall i found,
  lastIndexOf_aux c s i found = found
  \/ (i <= lastIndexOf_aux c s i found < i + Z.of_nat (length s))%Z
     /\ s !! Z.to_nat (lastIndexOf_aux c s i found - i) = Some c.
Proof.
  induction s as [|d s IH]; intros i found; simpl; [left; reflexivity|].
  destruct (IH (i + 1)%Z (if d =? c then i else found)) as [H|[H1 H2]].
  - rewrite H. destruct (N.eqb_spec d c) as [->|]; [|left; reflexivity].
    right. split; [lia|]. replace (Z.to_nat (i - i)) with 0%nat by lia. reflexivity.
  - right. split; [lia|].
    replace (Z.to_nat (lastIndexOf_aux c s (i + 1) (if d =? c then i else found) - i))
      with (S (Z.to_nat (lastIndexOf_aux c s (i + 1) (if d =? c then i else found) - (i + 1))))
      by lia.
    exact H2.
Qed.

Lemma lastIndexOf_spec c s :
  (0 <= lastIndexOf c s)%Z ->
  (lastIndexOf c s < Z.of_nat (length s))%Z
  /\ s !! Z.to_nat (lastIndexOf c s) = Some c.
Proof.
  unfold lastIndexOf. intros H.
  destruct (lastIndexOf_aux_spec c s 0 (-1)) as [E|[H1 H2]]; [lia|].
  split; [lia|]. rewrite Z.sub_0_r in H2. exact H2.
Qed.

(** C2, as stated, fails: an extract of 301 characters with its only
    period at index 100 comes back 303 characters long, the first 300
    followed by the ellipsis, not cut at the period; and an extract of
    304 characters that is 299 long once trimmed comes back as those 299
    letters, with neither period nor ellipsis at its end. *)
Lemma cleanExtract_exceeds_300 :
  (300 < length longSentence)%nat
  /\ ~ (length (cleanExtract longSentence) <= 300)%nat
  /\ lastIndexOf 46 (firstn 200 longSentence) = 100%Z
  /\ cleanExtract longSentence = firstn 300 longSentence ++ js "..."
  /\ cleanExtract longSentence <> truncateAsSpecified longSentence
  /\ (300 < length paddedWord)%nat
  /\ cleanExtract paddedWord = repeat 97 299.
Proof.
  split; [vm_compute; lia|].
  split; [vm_compute; lia|].
  split; [vm_compute; reflexivity|].
  split; [vm_compute; reflexivity|].
  split; [vm_compute; discriminate|].
  split; [vm_compute; lia|].
  vm_compute. reflexivity.
Qed.

(** C2, amended. When the trimmed extract has more than 300 code units,
    the result is built from [head], the trimmed first 300 of them:
    if the last period of [head] lies beyond index 200 the result is
    [head] up to and including that period, between 202 and 300 long;
    otherwise it is [head] followed by the three periods of the
    ellipsis, at most 303 long. Either way it ends with a period. *)
Theorem cleanExtract_long raw :
  (300 < length (trim raw))%nat ->
  let head := trim (firstn 300 (trim raw)) in
  let p := lastIndexOf 46 head in
  (length (cleanExtract raw) <= 303)%nat
  /\ (exists body, cleanExtract raw = body ++ [46])
  /\ (((200 < p)%Z
       /\ cleanExtract raw = firstn (Z.to_nat (p + 1)) head
       /\ (202 <= length (cleanExtract raw) <= 300)%nat)
      \/ ((p <= 200)%Z /\ cleanExtract raw = head ++ js "...")).
Proof.
  intros Hlong head p.
  assert (Hhead : (length head <= 300)%nat).
  { subst head. etransitivity; [apply trim_length|].
    rewrite length_take. lia. }
  unfold cleanExtract.
  apply Nat.ltb_lt in Hlong. rewrite Hlong. unfold substring0.
  fold head. fold p.
  destruct (200 <? p)%Z eqn:Hp.
  - apply Z.ltb_lt in Hp.
    destruct (lastIndexOf_spec 46 head) as [Hlt Hat]; [fold p; lia|].
    fold p in Hlt, Hat.
    assert (Hlen : length (firstn (Z.to_nat (p + 1)) head) = Z.to_nat (p + 1)).
    { rewrite length_take. lia. }
    split; [rewrite Hlen; lia|].
    split.
    + exists (firstn (Z.to_nat p) head).
      replace (Z.to_nat (p + 1)) with (S (Z.to_nat p)) by lia.
      apply take_S_r. exact Hat.
    + left. split; [exact Hp|]. split; [reflexivity|]. rewrite Hlen. lia.
  - apply Z.ltb_ge in Hp.
    split; [rewrite length_app; simpl; lia|].
    split.
    + exists (head ++ [46; 46]). rewrite <- app_assoc. reflexivity.
    + right. split; [exact Hp | reflexivity].
Qed.

Lemma cleanExtract_long_witness :
  (300 < length (trim longSentence))%nat
  /\ (length (cleanExtract longSentence) <= 303)%nat
  /\ (exists body, cleanExtract longSentence = body ++ [46]).
Proof.
  assert (H : (300 < length (trim longSentence))%nat) by (vm_compute; lia).
  destruct (cleanExtract_long longSentence H) as (H1 & H2 & _).
  split; [exact H | split; [exact H1 | exact H2]].
Defined.

Lemma exec_lookups_from {A} (p : prog A) : forall network c done,
  exists more, lookups (exec p network c done) = done ++ more.
Proof.
  induction p as [a|key k IH|key v ttl k IH|title k IH]; intros network c done; cbn [exec].
  - exists []. cbn. rewrite app_nil_r. reflexivity.
  - apply IH.
  - apply IH.
  - destruct (network (length done) title) as [o ms].
    destruct (IH o network (MemoryCache.wait ms c) (done ++ [title])) as [more ->].
    exists (title :: more). rewrite <- app_assoc. reflexivity.
Qed.

Lemma exec_trySearchTerms_failed key term rest network c done :
  failed (fst (network (length done) term)) = true ->
  exec (trySearchTerms key (term :: rest)) network c done
  = exec (trySearchTerms key rest) network
      (MemoryCache.wait (snd (network (length done) term)) c) (done ++ [term]).
Proof.
  intros H. cbn [trySearchTerms exec].
  destruct (network (length done) term) as [o ms]. cbn in *.
  destruct o as [v|]; [|reflexivity].
  unfold failed in H.
  destruct (ToBoolean v); [discriminate H | reflexivity].
Qed.

Lemma exec_getCityDescription_miss lower city country network c :
  (forall v, MemoryCache.get (cacheKeyOf lower city country) c = Some v -> ToBoolean v = false) ->
  exec (getCityDescription lower city country) network c []
  = exec (trySearchTerms (cacheKeyOf lower city country) (searchTermsOf city country))
      network c [].
Proof.
  intros H. cbn [getCityDescription exec].
  destruct (MemoryCache.get (cacheKeyOf lower city country) c) as [v|]; [|reflexivity].
  rewrite (H v eq_refl). reflexivity.
Qed.

Lemma exec_trySearchTerms_first key term rest network c done :
  exists more,
    lookups (exec (trySearchTerms key (term :: rest)) network c done)
    = done ++ term :: more.
Proof.
  cbn [trySearchTerms exec].
  destruct (network (length done) term) as [o ms].
  match goal with
  | |- context [exec ?p ?n ?c ?d] =>
      destruct (exec_lookups_from p n c d) as [more ->]
  end.
  exists more. rewrite <- app_assoc. reflexivity.
Qed.

(** C1. With the "not found" value [null] in the cache under the key of
    the pair, [getCityDescription] does not return at the cache check:
    it puts the bare city name on the queue, however the network
    answers. *)
Theorem getCityDescription_cached_null_refetches lower city country network c :
  MemoryCache.get (cacheKeyOf lower city country) c = Some VNull ->
  exists more,
    lookups (exec (getCityDescription lower city country) network c []) = city :: more.
Proof.
  intros Hnull. rewrite exec_getCityDescription_miss.
  - unfold searchTermsOf. apply (exec_trySearchTerms_first _ _ _ _ _ []).
  - intros v Hv. assert (v = VNull) as -> by congruence. reflexivity.
Qed.

Lemma getCityDescription_cached_null_refetches_witness :
  MemoryCache.get (cacheKeyOf toLowerCase (js "Atlantis") (js "Nowhere")) cacheAfterMiss = Some VNull
  /\ exists more,
       lookups (exec (getCityDescription toLowerCase (js "Atlantis") (js "Nowhere"))
                  alwaysNotFound cacheAfterMiss [])
       = js "Atlantis" :: more.
Proof.
  assert (H : MemoryCache.get (cacheKeyOf toLowerCase (js "Atlantis") (js "Nowhere")) cacheAfterMiss
              = Some VNull) by (vm_compute; reflexivity).
  split; [exact H|].
  exact (getCityDescription_cached_null_refetches
           toLowerCase (js "Atlantis") (js "Nowhere") alwaysNotFound cacheAfterMiss H).
Defined.

(** A cached description, on the other hand, is returned at once: no
    lookup, and the cache stays as it was. *)
Lemma getCityDescription_cache_hit lower city country network c v :
  MemoryCache.get (cacheKeyOf lower city country) c = Some v ->
  ToBoolean v = true ->
  exec (getCityDescription lower city country) network c []
  = {| result := v; finalCache := c; lookups := [] |}.
Proof.
  intros Hget Hv. cbn [getCityDescription exec]. rewrite Hget, Hv. reflexivity.
Qed.

Lemma get_set_eq key v ttl c :
  MemoryCache.get key (MemoryCache.set key v ttl c) = Some v.
Proof.
  unfold MemoryCache.get, MemoryCache.set.
  destruct ttl as [ms|]; [destruct ((ms =? 0)%Z || negb (0 <? ms)%Z)|];
    cbn; apply lookup_insert_eq.
Qed.

(** C3, as stated, fails: after a lookup rejected for a server error
    (status 500) the call goes on to the next search term and returns the
    description that one finds. *)
Lemma getCityDescription_continues_after_error :
  settle (StatusError 500) = Rejected
  /\ lookups (exec (getCityDescription toLowerCase (js "Berlin") (js "Germany"))
                errorThenFound MemoryCache.empty [])
     = [js "Berlin"; js "Berlin, Germany"]
  /\ result (exec (getCityDescription toLowerCase (js "Berlin") (js "Germany"))
               errorThenFound MemoryCache.empty [])
     = VString (js "Berlin is the capital of Germany.").
Proof.
  split; [reflexivity|]. split; vm_compute; reflexivity.
Qed.

(** C3, amended. A lookup that fails in any way, by a not-found
    response (resolved with [null]) or by any other error (rejected),
    makes the call go on to the next search term: when the first [n]
    lookups fail, the term after them is looked up as well, if there is
    one. When all three fail the call has looked up all three terms,
    stores [null] under the cache key and returns [null]. *)
Theorem getCityDescription_tries_next_term lower city country network c n :
  (forall v, MemoryCache.get (cacheKeyOf lower city country) c = Some v -> ToBoolean v = false) ->
  (forall i term, (i < n)%nat -> searchTermsOf city country !! i = Some term ->
                  failed (fst (network i term)) = true) ->
  (forall status, failed (settle (StatusError status)) = true)
  /\ failed (settle NoResponse) = true
  /\ (exists more,
        lookups (exec (getCityDescription lower city country) network c [])
        = firstn (S n) (searchTermsOf city country) ++ more)
  /\ ((3 <= n)%nat ->
      let r := exec (getCityDescription lower city country) network c [] in
      lookups r = searchTermsOf city country
      /\ result r = VNull
      /\ MemoryCache.get (cacheKeyOf lower city country) (finalCache r) = Some VNull).
Proof.
  intros Hmiss Hfail.
  split. { intros status. cbn. destruct (status =? 404)%Z; reflexivity. }
  split; [reflexivity|].
  rewrite (exec_getCityDescription_miss _ _ _ _ _ Hmiss).
  set (key := cacheKeyOf lower city country).
  unfold searchTermsOf in *.
  set (t2 := city ++ js ", " ++ country) in *.
  set (t3 := city ++ js " " ++ country) in *.
  destruct n as [|n].
  { split; [|lia]. apply (exec_trySearchTerms_first key city [t2; t3] network c []). }
  rewrite (exec_trySearchTerms_failed key city [t2; t3] network c []);
    [|apply Hfail; [cbn; lia|reflexivity]].
  destruct n as [|n].
  { split; [|lia].
    destruct (exec_trySearchTerms_first key t2 [t3] network
                (MemoryCache.wait (snd (network (length (@nil jsstring)) city)) c)
                ([] ++ [city])) as [more ->].
    exists more. reflexivity. }
  rewrite (exec_trySearchTerms_failed key t2 [t3] network _ ([] ++ [city]));
    [|apply Hfail; [cbn; lia|reflexivity]].
  destruct n as [|n].
  { split; [|lia].
    destruct (exec_trySearchTerms_first key t3 [] network
                (MemoryCache.wait (snd (network (length ([] ++ [city])) t2))
                   (MemoryCache.wait (snd (network (length (@nil jsstring)) city)) c))
                (([] ++ [city]) ++ [t2])) as [more ->].
    exists more. reflexivity. }
  rewrite (exec_trySearchTerms_failed key t3 [] network _ (([] ++ [city]) ++ [t2]));
    [|apply Hfail; [cbn; lia|reflexivity]].
  cbn [trySearchTerms exec lookups result finalCache].
  split.
  { exists []. reflexivity. }
  intros _. split; [reflexivity|]. split; [reflexivity|].
  apply get_set_eq.
Qed.

Lemma getCityDescription_tries_next_term_witness :
  lookups (exec (getCityDescription toLowerCase (js "Atlantis") (js "Nowhere"))
             alwaysNotFound MemoryCache.empty [])
  = searchTermsOf (js "Atlantis") (js "Nowhere")
  /\ result (exec (getCityDescription toLowerCase (js "Atlantis") (js "Nowhere"))
               alwaysNotFound MemoryCache.empty [])
     = VNull.
Proof.
  assert (Hmiss : forall v,
            MemoryCache.get (cacheKeyOf toLowerCase (js "Atlantis") (js "Nowhere")) MemoryCache.empty
            = Some v -> ToBoolean v = false).
  { intros v Hv. vm_compute in Hv. discriminate Hv. }
  assert (Hfail : forall i term, (i < 3)%nat ->
            searchTermsOf (js "Atlantis") (js "Nowhere") !! i = Some term ->
            failed (fst (alwaysNotFound i term)) = true).
  { intros i term _ _. reflexivity. }
  destruct (getCityDescription_tries_next_term
              toLowerCase (js "Atlantis") (js "Nowhere") alwaysNotFound MemoryCache.empty 3
              Hmiss Hfail) as (_ & _ & _ & Hall).
  destruct (Hall (le_n 3)) as (Hl & Hr & _).
  split; [exact Hl | exact Hr].
Defined.

End Enrichment.

(** ** The cache and its timers *)

Section CacheTimers.
Import MemoryCache CacheSpec.

Lemma wellFormed_empty : wellFormed empty.
Proof.
  split; [split; [|split]|]; cbn; intros; try contradiction;
    match goal with H : ∅ !! _ = Some _ |- _ => rewrite lookup_empty in H; discriminate end.
Qed.

Lemma In_clearTimeout h l t :
  In t (clearTimeout h l) <-> In t l /\ handle t <> h.
Proof.
  unfold clearTimeout. rewrite filter_In, negb_true_iff, Nat.eqb_neq. reflexivity.
Qed.

Lemma clearTimerOf_fields key s :
  cache (clearTimerOf key s) = cache s
  /\ nextHandle (clearTimerOf key s) = nextHandle s
  /\ now (clearTimerOf key s) = now s.
Proof. unfold clearTimerOf. destruct (timers s !! key); auto. Qed.

Lemma clearTimerOf_timers key s :
  timers (clearTimerOf key s) = base.delete key (timers s).
Proof.
  unfold clearTimerOf. destruct (timers s !! key) eqn:E; cbn; [reflexivity|].
  symmetry. apply delete_id. exact E.
Qed.

Lemma clearTimerOf_scheduled key s t :
  coherent s ->
  In t (scheduled (clearTimerOf key s)) <-> In t (scheduled s) /\ target t <> key.
Proof.
  intros (Hreg & _ & Hinj). unfold clearTimerOf.
  destruct (timers s !! key) as [h|] eqn:E; cbn.
  - rewrite In_clearTimeout. split; intros [Hin Hne]; split; auto.
    + intros <-. apply Hne. specialize (Hreg t Hin). congruence.
    + intros <-. apply Hne. eapply Hinj; eauto.
  - split; [|tauto]. intros Hin. split; [exact Hin|].
    intros <-. specialize (Hreg t Hin). congruence.
Qed.

Lemma coherent_clearTimerOf key s : coherent s -> coherent (clearTimerOf key s).
Proof.
  intros Hc. pose proof Hc as (Hreg & Hold & Hinj).
  destruct (clearTimerOf_fields key s) as (_ & Hn & _).
  split; [|split].
  - intros t Hin. apply (clearTimerOf_scheduled key s t Hc) in Hin as [Hin Hne].
    rewrite clearTimerOf_timers, lookup_delete_ne by congruence. auto.
  - intros k h. rewrite clearTimerOf_timers, Hn. intros H.
    apply lookup_delete_Some in H as [_ H]. eauto.
  - intros k1 k2 h. rewrite clearTimerOf_timers. intros H1 H2.
    apply lookup_delete_Some in H1 as [_ H1]. apply lookup_delete_Some in H2 as [_ H2].
    eauto.
Qed.

Lemma sameFor_refl key s : sameFor key s s.
Proof. split; [reflexivity | tauto]. Qed.

Lemma sameFor_trans key s1 s2 s3 :
  sameFor key s1 s2 -> sameFor key s2 s3 -> sameFor key s1 s3.
Proof.
  intros [Hc1 Ht1] [Hc2 Ht2]. split; [congruence|].
  intros t Ht. rewrite (Ht2 t Ht). apply Ht1, Ht.
Qed.

Lemma sameFor_noTimeoutFor key s s' :
  sameFor key s s' -> noTimeoutFor key s -> noTimeoutFor key s'.
Proof.
  intros [_ Ht] Hno t Hin Htarget. apply (Hno t); [|exact Htarget].
  apply Ht; assumption.
Qed.

Lemma sameFor_armedFor key D s s' :
  sameFor key s s' -> armedFor key D s -> armedFor key D s'.
Proof.
  intros [_ Ht] [(t0 & Hin0 & Ht0) Hdue]. split.
  - exists t0. split; [apply Ht; assumption | exact Ht0].
  - intros t Hin Htarget. apply Hdue; [|exact Htarget]. apply Ht; assumption.
Qed.

(** [delete(key')] *)
Lemma delete_coherent key s : coherent s -> coherent (fst (delete key s)).
Proof. intros Hc. apply (coherent_clearTimerOf key) in Hc. exact Hc. Qed.

Lemma delete_gone key s :
  coherent s ->
  cache (fst (delete key s)) !! key = None /\ noTimeoutFor key (fst (delete key s)).
Proof.
  intros Hc. unfold delete; cbn. split; [apply lookup_delete_eq|].
  intros t Hin. apply (clearTimerOf_scheduled key s t Hc) in Hin. tauto.
Qed.

Lemma delete_other key key' s :
  coherent s -> key' <> key -> sameFor key s (fst (delete key' s)).
Proof.
  intros Hc Hne. unfold sameFor, delete; cbn. split.
  - rewrite lookup_delete_ne by congruence.
    destruct (clearTimerOf_fields key' s) as (-> & _). reflexivity.
  - intros t Ht. rewrite (clearTimerOf_scheduled key' s t Hc).
    split; [tauto|]. intros Hin. split; [exact Hin | congruence].
Qed.

Lemma delete_fields key s :
  now (fst (delete key s)) = now s /\ nextHandle (fst (delete key s)) = nextHandle s.
Proof.
  unfold delete; cbn. destruct (clearTimerOf_fields key s) as (_ & -> & ->). auto.
Qed.

Lemma timerDelay_pos ms : (1 <= timerDelay ms)%Z.
Proof.
  unfold timerDelay. destruct (1 <=? ms)%Z eqn:E; cbn; [|lia].
  destruct (ms <=? TIMEOUT_MAX)%Z; lia.
Qed.

Lemma set_fields key v ttl s : now (set key v ttl s) = now s.
Proof.
  unfold set. destruct (clearTimerOf_fields key s) as (_ & _ & Hn).
  destruct ttl as [ms|]; [destruct ((ms =? 0)%Z || negb (0 <? ms)%Z)|]; cbn; exact Hn.
Qed.

Lemma set_no_timer_test ms :
  (ms =? 0)%Z || negb (0 <? ms)%Z = negb (0 <? ms)%Z.
Proof. destruct (Z.eqb_spec ms 0) as [->|]; cbn; reflexivity. Qed.

Lemma set_coherent key v ttl s : coherent s -> coherent (set key v ttl s).
Proof.
  intros Hc. pose proof (coherent_clearTimerOf key s Hc) as Hc1.
  pose proof (clearTimerOf_scheduled key s) as Hsch.
  pose proof (clearTimerOf_timers key s) as Htim.
  unfold set. set (s1 := clearTimerOf key s) in *.
  destruct Hc1 as (Hreg & Hold & Hinj).
  destruct ttl as [ms|]; [rewrite set_no_timer_test; destruct (0 <? ms)%Z|]; cbn;
    try (split; [|split]; assumption).
  split; [|split]; cbn.
  - intros t Hin. apply in_app_or in Hin as [Hin|[<-|[]]]; cbn.
    + rewrite lookup_insert_ne; [auto|].
      intros Heq. apply (Hsch t Hc) in Hin. symmetry in Heq. tauto.
    + apply lookup_insert_eq.
  - intros k h Hk. destruct (decide (key = k)) as [<-|Hne].
    + rewrite lookup_insert_eq in Hk. injection Hk as <-. lia.
    + rewrite lookup_insert_ne in Hk by exact Hne. apply Hold in Hk. lia.
  - intros k1 k2 h H1 H2.
    destruct (decide (key = k1)) as [<-|Hne1]; destruct (decide (key = k2)) as [<-|Hne2];
      try reflexivity.
    + rewrite lookup_insert_eq in H1. rewrite lookup_insert_ne in H2 by exact Hne2.
      injection H1 as <-. apply Hold in H2. lia.
    + rewrite lookup_insert_eq in H2. rewrite lookup_insert_ne in H1 by exact Hne1.
      injection H2 as <-. apply Hold in H1. lia.
    + rewrite lookup_insert_ne in H1 by exact Hne1.
      rewrite lookup_insert_ne in H2 by exact Hne2. eauto.
Qed.

Lemma set_written key v ttl s :
  coherent s ->
  cache (set key v ttl s) !! key = Some v
  /\ match expires ttl with
     | Some delay => armedFor key (now s + delay) (set key v ttl s)
     | None => noTimeoutFor key (set key v ttl s)
     end.
Proof.
  intros Hc. split; [apply get_set_eq|].
  pose proof (clearTimerOf_scheduled key s) as Hsch.
  destruct (clearTimerOf_fields key s) as (_ & _ & Hn).
  unfold set, expires.
  destruct ttl as [ms|]; [rewrite set_no_timer_test; destruct (0 <? ms)%Z|]; cbn.
  - split.
    + eexists. split; [apply in_or_app; right; left; reflexivity | reflexivity].
    + intros t Hin Ht. apply in_app_or in Hin as [Hin|[<-|[]]]; cbn.
      * apply (Hsch t Hc) in Hin. tauto.
      * rewrite Hn. reflexivity.
  - intros t Hin. apply (Hsch t Hc) in Hin. tauto.
  - intros t Hin. apply (Hsch t Hc) in Hin. tauto.
Qed.

Lemma set_other key key' v ttl s :
  coherent s -> key' <> key -> sameFor key s (set key' v ttl s).
Proof.
  intros Hc Hne.
  pose proof (clearTimerOf_scheduled key' s) as Hsch.
  destruct (clearTimerOf_fields key' s) as (Hcache & _ & _).
  assert (Hframe : forall t, target t = key ->
            (In t (scheduled (clearTimerOf key' s)) <-> In t (scheduled s))).
  { intros t Ht. rewrite (Hsch t Hc). split; [tauto|].
    intros Hin. split; [exact Hin | congruence]. }
  unfold set.
  destruct ttl as [ms|]; [rewrite set_no_timer_test; destruct (0 <? ms)%Z|];
    (split; cbn; [rewrite lookup_insert_ne by congruence; rewrite Hcache; reflexivity|]);
    try exact Hframe.
  intros t Ht. rewrite <- (Hframe t Ht). split.
  - intros Hin. apply in_app_or in Hin as [Hin|[<-|[]]]; [exact Hin|].
    cbn in Ht. congruence.
  - intros Hin. apply in_or_app. left. exact Hin.
Qed.

Lemma wellFormed_set key v ttl s : wellFormed s -> wellFormed (set key v ttl s).
Proof.
  intros [Hc Hdue]. split; [apply set_coherent, Hc|].
  pose proof (clearTimerOf_scheduled key s) as Hsch.
  destruct (clearTimerOf_fields key s) as (_ & _ & Hn).
  pose proof (timerDelay_pos) as Hpos.
  unfold set.
  destruct ttl as [ms|]; [rewrite set_no_timer_test; destruct (0 <? ms)%Z|]; cbn;
    intros t Hin; rewrite Hn;
    try (apply (Hsch t Hc) in Hin as [Hin _]; apply Hdue, Hin).
  apply in_app_or in Hin as [Hin|[<-|[]]]; cbn.
  - apply (Hsch t Hc) in Hin as [Hin _]. apply Hdue, Hin.
  - specialize (Hpos ms). lia.
Qed.

Lemma wellFormed_delete key s : wellFormed s -> wellFormed (fst (delete key s)).
Proof.
  intros [Hc Hdue]. split; [apply delete_coherent, Hc|].
  destruct (delete_fields key s) as [-> _].
  unfold delete; cbn. intros t Hin.
  apply (clearTimerOf_scheduled key s t Hc) in Hin as [Hin _]. apply Hdue, Hin.
Qed.

Lemma In_clear_all (l : list timeout) (m : gmap jsstring nat) t :
  In t (map_fold (fun _ h l => clearTimeout h l) l m) ->
  In t l /\ forall k h, m !! k = Some h -> handle t <> h.
Proof.
  revert t.
  apply (map_fold_weak_ind
           (fun r m => forall t, In t r ->
              In t l /\ forall k h, m !! k = Some h -> handle t <> h)).
  - intros t Hin. split; [exact Hin|]. intros k h Hk.
    rewrite lookup_empty in Hk. discriminate.
  - intros i x m' r Hnone IH t Hin.
    apply In_clearTimeout in Hin as [Hin Hne].
    destruct (IH t Hin) as [Hl Hm]. split; [exact Hl|].
    intros k h Hk. destruct (decide (i = k)) as [<-|Hik].
    + rewrite lookup_insert_eq in Hk. congruence.
    + rewrite lookup_insert_ne in Hk by exact Hik. eauto.
Qed.

Lemma clear_scheduled s : coherent s -> scheduled (clear s) = [].
Proof.
  intros (Hreg & _). unfold clear; cbn.
  destruct (map_fold _ _ _) as [|t l] eqn:E; [reflexivity|].
  assert (Hin : In t (map_fold (fun _ h l => clearTimeout h l) (scheduled s) (timers s))).
  { rewrite E. left. reflexivity. }
  apply In_clear_all in Hin as [Hin Hne].
  exfalso. apply (Hne (target t) (handle t)); [apply Hreg, Hin | reflexivity].
Qed.

Lemma wellFormed_clear s : wellFormed s -> wellFormed (clear s).
Proof.
  intros [Hc _]. pose proof (clear_scheduled s Hc) as Hnil.
  split; [split; [|split]|]; try rewrite Hnil; cbn; intros; try contradiction;
    match goal with H : ∅ !! _ = Some _ |- _ => rewrite lookup_empty in H; discriminate end.
Qed.

Lemma coherent_unschedule t s : coherent s -> coherent (unschedule t s).
Proof.
  intros (Hreg & Hold & Hinj). split; [|split]; cbn; auto.
  intros u Hin. apply In_clearTimeout in Hin as [Hin _]. auto.
Qed.

Lemma unschedule_other key t s :
  coherent s -> In t (scheduled s) -> target t <> key ->
  sameFor key s (unschedule t s).
Proof.
  intros (Hreg & _ & Hinj) Hin Hne. split; [reflexivity|]. cbn.
  intros u Hu. rewrite In_clearTimeout. split; [tauto|].
  intros Hinu. split; [exact Hinu|]. intros Hh.
  apply Hne. rewrite <- Hu. symmetry.
  apply (Hinj (target u) (target t) (handle t)); [rewrite <- Hh|]; auto.
Qed.

Lemma length_clearTimeout_le h l : (length (clearTimeout h l) <= length l)%nat.
Proof. apply filter_length_le. Qed.

Lemma length_clearTimeout_lt t l :
  In t l -> (length (clearTimeout (handle t) l) < length l)%nat.
Proof.
  induction l as [|u l IH]; [contradiction|]. intros [->|Hin]; cbn.
  - rewrite Nat.eqb_refl. cbn. pose proof (length_clearTimeout_le (handle t) l).
    unfold clearTimeout in *. lia.
  - specialize (IH Hin). unfold clearTimeout in *.
    destruct (negb (handle u =? handle t)%nat); cbn; lia.
Qed.

Lemma length_clearTimerOf key s :
  (length (scheduled (clearTimerOf key s)) <= length (scheduled s))%nat.
Proof.
  unfold clearTimerOf. destruct (timers s !! key); cbn; [|lia].
  apply length_clearTimeout_le.
Qed.

Lemma fireOne_length t s :
  In t (scheduled s) -> (length (scheduled (fireOne t s)) < length (scheduled s))%nat.
Proof.
  intros Hin.
  pose proof (length_clearTimerOf (target t) (unschedule t s)) as H1.
  pose proof (length_clearTimeout_lt t (scheduled s) Hin) as H2.
  change (scheduled (fireOne t s))
    with (scheduled (clearTimerOf (target t) (unschedule t s))).
  change (scheduled (unschedule t s))
    with (clearTimeout (handle t) (scheduled s)) in H1.
  lia.
Qed.

Lemma fireOne_coherent t s : coherent s -> coherent (fireOne t s).
Proof. intros Hc. apply delete_coherent, (coherent_unschedule t s Hc). Qed.

Lemma fireOne_fields t s : now (fireOne t s) = now s.
Proof.
  unfold fireOne. destruct (delete_fields (target t) (unschedule t s)) as [H _].
  exact H.
Qed.

Lemma fireOne_other key t s :
  coherent s -> In t (scheduled s) -> target t <> key -> sameFor key s (fireOne t s).
Proof.
  intros Hc Hin Hne. eapply sameFor_trans.
  - apply (unschedule_other key t s Hc Hin Hne).
  - apply (delete_other key (target t) (unschedule t s));
      [apply coherent_unschedule, Hc | exact Hne].
Qed.

Lemma fireOne_target t s :
  coherent s ->
  cache (fireOne t s) !! target t = None /\ noTimeoutFor (target t) (fireOne t s).
Proof.
  intros Hc. apply (delete_gone (target t) (unschedule t s)).
  apply coherent_unschedule, Hc.
Qed.

Lemma fireOne_subset t s u :
  coherent s -> In u (scheduled (fireOne t s)) -> In u (scheduled s).
Proof.
  intros Hc Hin. unfold fireOne, delete in Hin; cbn in Hin.
  apply (clearTimerOf_scheduled (target t) (unschedule t s) u) in Hin as [Hin _];
    [|apply coherent_unschedule, Hc].
  cbn in Hin. apply In_clearTimeout in Hin. tauto.
Qed.

Lemma runDue_S fuel s :
  runDue (S fuel) s
  = match List.find (fun t => (due t <=? now s)%Z) (scheduled s) with
    | Some t => runDue fuel (fireOne t s)
    | None => s
    end.
Proof. reflexivity. Qed.

(** The timer phase, seen from one key: it keeps the invariant and the
    clock, leaves no timeout overdue, and either leaves the key alone or
    has run a due timeout of the key, after which the key is gone. *)
Lemma runDue_spec key : forall fuel s,
  coherent s -> (length (scheduled s) <= fuel)%nat ->
  coherent (runDue fuel s)
  /\ now (runDue fuel s) = now s
  /\ (forall t, In t (scheduled (runDue fuel s)) ->
        In t (scheduled s) /\ (now s < due t)%Z)
  /\ (sameFor key s (runDue fuel s)
      \/ ((exists t, In t (scheduled s) /\ target t = key /\ (due t <= now s)%Z)
          /\ cache (runDue fuel s) !! key = None
          /\ noTimeoutFor key (runDue fuel s))).
Proof.
  induction fuel as [|fuel IH]; intros s Hc Hlen.
  - cbn. split; [exact Hc|]. split; [reflexivity|]. split.
    + destruct (scheduled s); [contradiction | cbn in Hlen; lia].
    + left. apply sameFor_refl.
  - rewrite runDue_S.
    destruct (List.find (fun t => (due t <=? now s)%Z) (scheduled s)) as [t|] eqn:Hfind.
    + apply find_some in Hfind as [Hin Hdue]. apply Z.leb_le in Hdue.
      pose proof (fireOne_length t s Hin) as Hlt.
      destruct (IH (fireOne t s) (fireOne_coherent t s Hc)) as (Hc' & Hnow & Hrest & Hkey);
        [lia|].
      rewrite (fireOne_fields t s) in *.
      split; [exact Hc'|]. split; [exact Hnow|]. split.
      * intros u Hu. destruct (Hrest u Hu) as [Hu' Hlate].
        split; [apply (fireOne_subset t s u Hc Hu') | exact Hlate].
      * destruct (decide (target t = key)) as [Heq|Hne].
        -- right. split; [exists t; auto|].
           destruct (fireOne_target t s Hc) as [Hgone Hno]. rewrite Heq in Hgone, Hno.
           destruct Hkey as [Hsame|(( u & Hu & Htu & _) & _)].
           ++ split; [destruct Hsame as [-> _]; exact Hgone|].
              apply (sameFor_noTimeoutFor key _ _ Hsame Hno).
           ++ exfalso. apply (Hno u Hu Htu).
        -- pose proof (fireOne_other key t s Hc Hin Hne) as Hsame1.
           destruct Hkey as [Hsame|((u & Hu & Htu & Hdu) & Hgone)].
           ++ left. eapply sameFor_trans; eauto.
           ++ right. split; [|exact Hgone].
              exists u. split; [|auto]. apply Hsame1; assumption.
    + split; [exact Hc|]. split; [reflexivity|]. split.
      * intros t Hin. split; [exact Hin|].
        pose proof (find_none _ _ Hfind t Hin) as Hnot. cbn in Hnot.
        apply Z.leb_gt in Hnot. exact Hnot.
      * left. apply sameFor_refl.
Qed.

Lemma tick_spec key s :
  wellFormed s ->
  wellFormed (tick s)
  /\ now (tick s) = (now s + 1)%Z
  /\ (sameFor key s (tick s)
      \/ ((exists t, In t (scheduled s) /\ target t = key /\ (due t <= now s + 1)%Z)
          /\ cache (tick s) !! key = None
          /\ noTimeoutFor key (tick s))).
Proof.
  intros [Hc _]. unfold tick.
  set (s1 := {| cache := cache s; timers := timers s; scheduled := scheduled s;
                nextHandle := nextHandle s; now := (now s + 1)%Z |}).
  assert (Hc1 : coherent s1) by exact Hc.
  destruct (runDue_spec key (length (scheduled s)) s1 Hc1 (le_n _))
    as (Hc' & Hnow & Hrest & Hkey).
  split; [split; [exact Hc'|]|split; [exact Hnow|exact Hkey]].
  intros t Hin. rewrite Hnow. apply Hrest, Hin.
Qed.

Lemma after_after st t1 t2 : (t1 <= t2)%Z -> after (after st t1) t2 = after st t2.
Proof.
  intros Hle. destruct st as [v|v D|]; cbn; try reflexivity.
  destruct (t1 <? D)%Z eqn:E1; cbn; [reflexivity|].
  apply Z.ltb_ge in E1. destruct (t2 <? D)%Z eqn:E2; [|reflexivity].
  apply Z.ltb_lt in E2. lia.
Qed.

Lemma holds_sameFor key st s s' :
  sameFor key s s' -> holds key st s -> holds key st s'.
Proof.
  intros Hsame. pose proof Hsame as [Hcache _].
  destruct st as [v|v D|]; cbn; rewrite Hcache; intros [H1 H2]; (split; [exact H1|]).
  - eapply sameFor_noTimeoutFor; eauto.
  - eapply sameFor_armedFor; eauto.
  - eapply sameFor_noTimeoutFor; eauto.
Qed.

Lemma holds_now key st s :
  wellFormed s -> holds key st s -> after st (now s) = st.
Proof.
  intros [_ Hdue]. destruct st as [v|v D|]; cbn; try reflexivity.
  intros (_ & (t & Hin & Ht) & HD).
  rewrite <- (HD t Hin Ht). apply Hdue in Hin.
  apply Z.ltb_lt in Hin. rewrite Hin. reflexivity.
Qed.

Lemma tick_status key st s :
  wellFormed s -> holds key st s ->
  holds key (after st (now s + 1)) (tick s).
Proof.
  intros Hwf Hst.
  destruct (tick_spec key s Hwf) as (Hwf' & Hnow & [Hsame|((t & Hin & Ht & Hdue) & Hgone)]).
  - pose proof (holds_sameFor key st s (tick s) Hsame Hst) as Hst'.
    rewrite <- Hnow. rewrite (holds_now key st (tick s) Hwf' Hst'). exact Hst'.
  - destruct st as [v|v D|]; cbn in *.
    + exfalso. destruct Hst as [_ Hno]. apply (Hno t Hin Ht).
    + destruct Hst as (_ & _ & HD). rewrite (HD t Hin Ht) in Hdue.
      apply Z.ltb_ge in Hdue. rewrite Hdue. exact Hgone.
    + exact Hgone.
Qed.

Lemma wait_status key : forall ms st s,
  wellFormed s -> holds key st s ->
  wellFormed (wait ms s)
  /\ now (wait ms s) = (now s + Z.of_nat ms)%Z
  /\ holds key (after st (now s + Z.of_nat ms)) (wait ms s).
Proof.
  induction ms as [|ms IH]; intros st s Hwf Hst.
  - cbn. rewrite Z.add_0_r. rewrite (holds_now key st s Hwf Hst). auto.
  - cbn [wait].
    destruct (tick_spec key s Hwf) as (Hwf' & Hnow & _).
    pose proof (tick_status key st s Hwf Hst) as Hst'.
    destruct (IH _ _ Hwf' Hst') as (Hwf'' & Hnow'' & Hst'').
    rewrite Hnow in *.
    replace (now s + Z.of_nat (S ms))%Z with (now s + 1 + Z.of_nat ms)%Z by lia.
    split; [exact Hwf''|]. split; [exact Hnow''|].
    rewrite after_after in Hst'' by lia. exact Hst''.
Qed.

Lemma wellFormed_wait ms : forall s, wellFormed s -> wellFormed (wait ms s).
Proof.
  induction ms as [|ms IH]; intros s Hwf; cbn; [exact Hwf|].
  apply IH. apply (tick_spec [] s Hwf).
Qed.

Lemma wellFormed_step s o : wellFormed s -> wellFormed (step s o).
Proof.
  intros Hwf. destruct o as [k v ttl|k|k|k| |ms]; cbn.
  - apply wellFormed_set, Hwf.
  - exact Hwf.
  - exact Hwf.
  - apply wellFormed_delete, Hwf.
  - apply wellFormed_clear, Hwf.
  - apply wellFormed_wait, Hwf.
Qed.

(** Every state the cache can reach from the empty one is well formed. *)
Lemma wellFormed_run ops : forall s, wellFormed s -> wellFormed (run ops s).
Proof.
  induction ops as [|o ops IH]; intros s Hwf; cbn; [exact Hwf|].
  apply IH, wellFormed_step, Hwf.
Qed.

Lemma step_status key st s o :
  wellFormed s -> writes key o = false -> holds key st s ->
  now (step s o) = (now s + Z.of_nat (elapsedOf o))%Z
  /\ holds key (after st (now (step s o))) (step s o).
Proof.
  intros Hwf Hw Hst. pose proof Hwf as [Hc _].
  pose proof (holds_now key st s Hwf Hst) as Hnow.
  destruct o as [k v ttl|k|k|k| |ms]; cbn [step elapsedOf writes] in *;
    rewrite ?Z.add_0_r.
  - apply bool_decide_eq_false in Hw.
    rewrite set_fields, Hnow. split; [reflexivity|].
    apply (holds_sameFor key st s); [apply set_other; assumption | exact Hst].
  - rewrite Hnow. auto.
  - rewrite Hnow. auto.
  - apply bool_decide_eq_false in Hw.
    destruct (delete_fields k s) as [-> _]. rewrite Hnow. split; [reflexivity|].
    apply (holds_sameFor key st s); [apply delete_other; assumption | exact Hst].
  - discriminate Hw.
  - destruct (wait_status key ms st s Hwf Hst) as (_ & -> & H). auto.
Qed.

Lemma elapsed_cons o ops : elapsed (o :: ops) = (elapsedOf o + elapsed ops)%nat.
Proof. destruct o; reflexivity. Qed.

Lemma run_status key : forall ops st s,
  wellFormed s -> holds key st s -> leaves key ops = true ->
  holds key (after st (now s + Z.of_nat (elapsed ops))) (run ops s).
Proof.
  induction ops as [|o ops IH]; intros st s Hwf Hst Hleave.
  - cbn. rewrite Z.add_0_r, (holds_now key st s Hwf Hst). exact Hst.
  - cbn in Hleave. apply andb_true_iff in Hleave as [Hw Hleave].
    apply negb_true_iff in Hw.
    destruct (step_status key st s o Hwf Hw Hst) as [Hnow Hst'].
    pose proof (IH _ _ (wellFormed_step s o Hwf) Hst' Hleave) as H.
    rewrite after_after in H by lia.
    rewrite Hnow in H. rewrite elapsed_cons.
    replace (now s + Z.of_nat (elapsedOf o + elapsed ops))%Z
      with (now s + Z.of_nat (elapsedOf o) + Z.of_nat (elapsed ops))%Z by lia.
    exact H.
Qed.

Lemma set_status key v ttl s :
  wellFormed s ->
  holds key (match expires ttl with
             | Some delay => Armed v (now s + delay)
             | None => Kept v
             end) (set key v ttl s).
Proof.
  intros [Hc _]. destruct (set_written key v ttl s Hc) as [Hcache Htimer].
  destruct (expires ttl); cbn; auto.
Qed.

(** C9. Whatever was done with the cache before, and whatever TTL an
    earlier [set] of the key had, after [set(key, v2, ttl2)] the entry
    follows [ttl2] alone, as long as the key is not written, deleted or
    the cache cleared: with a positive [ttl2] it reads [v2] until the
    delay has passed and is absent from then on; with no (or a
    non-positive) [ttl2] it reads [v2] for good, no earlier timer removes
    it. A delay up to [2^31 - 1] ms is the TTL itself. *)
Theorem set_ttl_governs key v1 ttl1 v2 ttl2 before between ops :
  leaves key ops = true ->
  let s1 := set key v1 ttl1 (run before empty) in
  let s2 := set key v2 ttl2 (run between s1) in
  get key (run ops s2)
  = match expires ttl2 with
    | Some delay => if (Z.of_nat (elapsed ops) <? delay)%Z then Some v2 else None
    | None => Some v2
    end
  /\ (forall ms, (1 <= ms <= TIMEOUT_MAX)%Z -> expires (Some ms) = Some ms)
  /\ (forall ms, (ms <= 0)%Z -> expires (Some ms) = None)
  /\ expires None = None.
Proof.
  intros Hleave s1 s2.
  assert (Hwf : wellFormed (run between s1)).
  { apply wellFormed_run, wellFormed_set, wellFormed_run, wellFormed_empty. }
  split; [|split; [|split]].
  - pose proof (run_status key ops _ _ (wellFormed_set key v2 ttl2 _ Hwf)
                  (set_status key v2 ttl2 _ Hwf) Hleave) as H.
    rewrite set_fields in H. fold s2 in H. unfold get.
    destruct (expires ttl2) as [delay|]; cbn in H.
    + replace (now (run between s1) + Z.of_nat (elapsed ops)
               <? now (run between s1) + delay)%Z
        with (Z.of_nat (elapsed ops) <? delay)%Z in H.
      * destruct (Z.of_nat (elapsed ops) <? delay)%Z; cbn in H; tauto.
      * destruct (Z.ltb_spec (Z.of_nat (elapsed ops)) delay);
          symmetry; [apply Z.ltb_lt | apply Z.ltb_ge]; lia.
    + tauto.
  - intros ms [H1 H2]. unfold expires, timerDelay.
    destruct (Z.ltb_spec 0 ms); [|lia].
    destruct (Z.leb_spec 1 ms); [|lia].
    destruct (Z.leb_spec ms TIMEOUT_MAX); [reflexivity|lia].
  - intros ms Hms. unfold expires. destruct (Z.ltb_spec 0 ms); [lia|reflexivity].
  - reflexivity.
Qed.

Lemma set_ttl_governs_witness :
  (let s2 := set (js "k") (VString (js "v2")) (Some 50%Z)
               (set (js "k") (VString (js "v1")) None empty) in
   get (js "k") (run [OWait 49] s2) = Some (VString (js "v2"))
   /\ get (js "k") (run [OWait 50] s2) = None
   /\ get (js "k") (run [OWait 60] s2) = None)
  /\ (let s2 := set (js "k") (VString (js "v2")) None
                  (set (js "k") (VString (js "v1")) (Some 50%Z) empty) in
      get (js "k")
        (run [OWait 60; OSet (js "other") VNull (Some 10%Z); OGet (js "k"); OWait 1000] s2)
      = Some (VString (js "v2"))).
Proof.
  split; [split; [|split]|].
  - exact (proj1 (set_ttl_governs (js "k") (VString (js "v1")) None
                    (VString (js "v2")) (Some 50%Z) [] [] [OWait 49] eq_refl)).
  - exact (proj1 (set_ttl_governs (js "k") (VString (js "v1")) None
                    (VString (js "v2")) (Some 50%Z) [] [] [OWait 50] eq_refl)).
  - exact (proj1 (set_ttl_governs (js "k") (VString (js "v1")) None
                    (VString (js "v2")) (Some 50%Z) [] [] [OWait 60] eq_refl)).
  - exact (proj1 (set_ttl_governs (js "k") (VString (js "v1")) (Some 50%Z)
                    (VString (js "v2")) None [] []
                    [OWait 60; OSet (js "other") VNull (Some 10%Z); OGet (js "k"); OWait 1000]
                    eq_refl)).
Defined.

End CacheTimers.

(** ** The request queue *)

Section RequestQueue.
Import WikipediaService QueueSpec.

Lemma invariant_init gap : invariant gap (init gap).
Proof.
  constructor; cbn; auto.
  - intros; discriminate.
  - exists []. auto.
Qed.

Lemma timerDelay_ge gap :
  (gap <= MemoryCache.TIMEOUT_MAX)%Z -> (gap <= MemoryCache.timerDelay gap)%Z.
Proof.
  intros H. unfold MemoryCache.timerDelay.
  destruct (Z.leb_spec 1 gap); cbn; [|lia].
  destruct (Z.leb_spec gap MemoryCache.TIMEOUT_MAX); lia.
Qed.

Lemma timerDelay_nonneg gap : (0 <= MemoryCache.timerDelay gap)%Z.
Proof.
  unfold MemoryCache.timerDelay.
  destruct (Z.leb_spec 1 gap); cbn; [|lia].
  destruct (Z.leb_spec gap MemoryCache.TIMEOUT_MAX); lia.
Qed.

(** The head of the loop, entered by the only activation at a moment
    when the next GET may be sent. *)
Lemma invariant_loopHead gap s :
  (gap <= MemoryCache.TIMEOUT_MAX)%Z ->
  minRequestInterval s = gap ->
  isProcessing s = true ->
  spaced gap (dispatched s) ->
  (forall t r rest, dispatched s = (t, r) :: rest -> (t + gap <= clock s)%Z) ->
  (exists taken, pushed s = taken ++ requestQueue s
                 /\ rev (List.map snd (dispatched s)) = List.filter canEncode taken) ->
  invariant gap (loopHead [] s).
Proof.
  intros Hgap Hint Hproc Hsp Hnext (taken & Hpushed & Hsent).
  pose proof (timerDelay_nonneg gap) as Hd.
  destruct s as [queue proc interval dr cl pu di se]; cbn in *. subst interval proc.
  unfold loopHead; cbn.
  destruct queue as [|r queue]; cbn.
  - constructor; cbn; auto.
    exists taken. auto.
  - destruct (encodable (title r)) eqn:Henc; constructor; cbn; auto.
    + right. eauto.
    + split; [|exact Hsp]. destruct di as [|[t1 r1] di']; [exact I|].
      apply (Hnext t1 r1 di' eq_refl).
    + intros t r' rest [= <- <- <-]. lia.
    + exists (taken ++ [r]). rewrite <- app_assoc. split; [exact Hpushed|].
      rewrite List.filter_app, Hsent. cbn [List.filter].
      change (canEncode r) with (encodable (title r)). rewrite Henc. reflexivity.
    + right. eauto.
    + intros t r' rest ->. specialize (Hnext t r' rest eq_refl). lia.
    + exists (taken ++ [r]). rewrite <- app_assoc. split; [exact Hpushed|].
      rewrite List.filter_app, Hsent. cbn [List.filter].
      change (canEncode r) with (encodable (title r)). rewrite Henc.
      rewrite app_nil_r. reflexivity.
Qed.

Lemma invariant_qstep gap s e s' :
  (gap <= MemoryCache.TIMEOUT_MAX)%Z ->
  invariant gap s -> qstep s e = Some s' -> invariant gap s'.
Proof.
  intros Hgap [Hint Hsingle Hsp Hnext Hfifo] Hstep.
  pose proof (timerDelay_ge gap Hgap) as Hdelay.
  destruct e as [ttl|i r|i|ms]; cbn [qstep] in Hstep.
  - (* a request is pushed *)
    injection Hstep as <-. unfold fetchDescriptionByTitle, processQueue. cbn.
    destruct Hfifo as (taken & Hpushed & Hsent).
    assert (Hfifo' : exists taken',
              pushed s ++ [{| rid := length (pushed s); title := ttl |}]
              = taken' ++ requestQueue s ++ [{| rid := length (pushed s); title := ttl |}]
              /\ rev (List.map snd (dispatched s)) = List.filter canEncode taken').
    { exists taken. rewrite Hpushed at 1. rewrite <- app_assoc. auto. }
    destruct Hsingle as [[Hproc Hdr]|[Hproc (p & Hdr)]]; rewrite Hproc; cbn.
    + assert (Hne : match requestQueue s ++ [{| rid := length (pushed s); title := ttl |}]
                    with [] => true | _ => false end = false)
        by (destruct (requestQueue s); reflexivity).
      rewrite Hne, Hdr.
      apply invariant_loopHead; cbn; auto.
      intros t r rest Hd. specialize (Hnext t r rest Hd). rewrite Hdr in Hnext. exact Hnext.
    + constructor; cbn; auto. right. eauto.
  - (* the GET is answered *)
    destruct Hsingle as [[Hproc Hdr]|[Hproc (p & Hdr)]]; rewrite Hdr in Hstep.
    { rewrite lookup_nil in Hstep. discriminate. }
    destruct i as [|i]; [|rewrite lookup_cons, lookup_nil in Hstep; discriminate].
    cbn in Hstep. destruct p as [req|wake]; [|discriminate].
    injection Hstep as <-. constructor; cbn; auto.
    + right. eauto.
    + intros t r' rest Hd. specialize (Hnext t r' rest Hd). rewrite Hdr in Hnext.
      rewrite Hint. lia.
  - (* the delay has run out *)
    destruct Hsingle as [[Hproc Hdr]|[Hproc (p & Hdr)]]; rewrite Hdr in Hstep.
    { rewrite lookup_nil in Hstep. discriminate. }
    destruct i as [|i]; [|rewrite lookup_cons, lookup_nil in Hstep; discriminate].
    cbn in Hstep. destruct p as [req|wake]; [discriminate|].
    destruct (Z.leb_spec wake (clock s)) as [Hwake|]; [|discriminate].
    injection Hstep as <-.
    apply invariant_loopHead; auto.
    intros t r rest Hd. specialize (Hnext t r rest Hd). rewrite Hdr in Hnext. lia.
  - (* time passes *)
    injection Hstep as <-. constructor; cbn; auto.
    intros t r rest Hd. specialize (Hnext t r rest Hd).
    destruct (drains s) as [|[req|wake] ?]; lia.
Qed.

Lemma invariant_qrun gap : forall es s s',
  (gap <= MemoryCache.TIMEOUT_MAX)%Z ->
  invariant gap s -> qrun s es = Some s' -> invariant gap s'.
Proof.
  induction es as [|e es IH]; intros s s' Hgap Hinv Hrun; cbn in Hrun.
  - injection Hrun as <-. exact Hinv.
  - destruct (qstep s e) as [s1|] eqn:Hstep; [|discriminate].
    apply (IH s1 s' Hgap); [|exact Hrun].
    apply (invariant_qstep gap s e s1 Hgap Hinv Hstep).
Qed.

(** C5. In every state the service reaches from the one its constructor
    leaves, whatever is pushed, whenever replies and timers arrive:
    consecutive GETs are at least the configured interval apart; the
    requests leave the queue in the order they were pushed, and the GETs
    sent are those requests in that order; at most one GET is
    unanswered; there is at most one activation of the drain loop, which
    exists exactly while [isProcessing] is set, and a call of
    [_fetchDescriptionByTitle] made while it is set starts no loop and
    sends nothing. *)
Theorem queue_spacing_fifo_single gap events s :
  (gap <= MemoryCache.TIMEOUT_MAX)%Z ->
  qrun (init gap) events = Some s ->
  spaced gap (dispatched s)
  /\ (exists taken,
        pushed s = taken ++ requestQueue s
        /\ rev (List.map snd (dispatched s)) = List.filter canEncode taken)
  /\ (inFlight s <= 1)%nat
  /\ (length (drains s) <= 1)%nat
  /\ (isProcessing s = true <-> drains s <> [])
  /\ (forall searchTerm, isProcessing s = true ->
        drains (fetchDescriptionByTitle searchTerm s) = drains s
        /\ dispatched (fetchDescriptionByTitle searchTerm s) = dispatched s).
Proof.
  intros Hgap Hrun.
  destruct (invariant_qrun gap events (init gap) s Hgap (invariant_init gap) Hrun)
    as [Hint Hsingle Hsp Hnext Hfifo].
  split; [exact Hsp|]. split; [exact Hfifo|].
  split; [|split; [|split]].
  - unfold inFlight.
    destruct Hsingle as [[_ ->]|[_ (p & ->)]]; cbn; [lia|].
    destruct p; cbn; lia.
  - destruct Hsingle as [[_ ->]|[_ (p & ->)]]; cbn; lia.
  - destruct Hsingle as [[-> ->]|[-> (p & ->)]]; split; congruence.
  - intros searchTerm Hproc.
    unfold fetchDescriptionByTitle, processQueue. cbn. rewrite Hproc. cbn. auto.
Qed.

Lemma queue_spacing_fifo_single_witness :
  match qrun (init 100) sampleEvents with
  | Some s =>
      List.map fst (dispatched s) = [242; 105; 0]%Z
      /\ spaced 100 (dispatched s)
      /\ (inFlight s <= 1)%nat
  | None => False
  end.
Proof.
  destruct (qrun (init 100) sampleEvents) as [s|] eqn:Hrun.
  - assert (Hgap : (100 <= MemoryCache.TIMEOUT_MAX)%Z) by (vm_compute; discriminate).
    destruct (queue_spacing_fifo_single 100 sampleEvents s Hgap Hrun)
      as (Hsp & _ & Hone & _).
    split; [|split; assumption].
    vm_compute in Hrun. injection Hrun as <-. reflexivity.
  - vm_compute in Hrun. discriminate Hrun.
Defined.

End RequestQueue.

(** ** The record classifier: batches, words and countries *)

Section ClassifierMore.
Import DataValidator ClassifierSpec BatchSpec.

Lemma filterLoop_kept entries : forall acc n cities m,
  filterLoop entries acc n = Normal (cities, m) ->
  exists kept,
    cities = acc ++ kept
    /\ List.map Normal kept = List.map normalizeCity (List.filter accepted entries)
    /\ (n <= m)%nat
    /\ (length kept + (m - n) = length entries)%nat.
Proof.
  induction entries as [|entry rest IH]; intros acc n cities m; cbn [filterLoop].
  - intros [= <- <-]. exists []. rewrite app_nil_r, Nat.sub_diag. auto.
  - unfold accepted at 1. cbn [List.filter].
    change (match isValidCity entry with Normal true => true | _ => false end)
      with (accepted entry).
    unfold accepted at 1.
    destruct (isValidCity entry) as [[|]|message]; cbn [bind]; [| |discriminate].
    + destruct (normalizeCity entry) as [city|message] eqn:Hcity; cbn [bind]; [|discriminate].
      intros Hrest. destruct (IH _ _ _ _ Hrest) as (kept & -> & Hkept & Hle & Hlen).
      exists (city :: kept). rewrite <- app_assoc. cbn [app List.map length].
      rewrite Hcity, Hkept. split; [reflexivity|]. split; [reflexivity|]. lia.
    + intros Hrest. destruct (IH _ _ _ _ Hrest) as (kept & -> & Hkept & Hle & Hlen).
      exists kept. split; [reflexivity|]. split; [exact Hkept|]. cbn [length]. lia.
Qed.

(** The loop does the same whatever it starts from. *)
Lemma filterLoop_from entries : forall acc n,
  filterLoop entries acc n
  = let* kept := filterLoop entries [] 0%nat in
    Normal (acc ++ fst kept, (n + snd kept)%nat).
Proof.
  assert (Hgen : forall acc' n' acc n,
            filterLoop entries (acc' ++ acc) (n' + n)%nat
            = let* kept := filterLoop entries acc n in
              Normal (acc' ++ fst kept, (n' + snd kept)%nat)).
  { induction entries as [|entry rest IH]; intros acc' n' acc n; cbn [filterLoop bind fst snd].
    - reflexivity.
    - destruct (isValidCity entry) as [[|]|message]; cbn [bind]; [| |reflexivity].
      + destruct (normalizeCity entry) as [city|message]; cbn [bind]; [|reflexivity].
        rewrite <- app_assoc. apply IH.
      + replace (S (n' + n)) with (n' + S n)%nat by lia. apply (IH acc' n' acc (S n)). }
  intros acc n. rewrite <- (app_nil_r acc) at 1. rewrite <- (Nat.add_0_r n) at 1.
  apply Hgen.
Qed.

Lemma filterLoop_app a : forall b acc n,
  filterLoop (a ++ b) acc n
  = let* kept := filterLoop a acc n in filterLoop b (fst kept) (snd kept).
Proof.
  induction a as [|entry a IH]; intros b acc n; cbn [app filterLoop bind fst snd].
  - reflexivity.
  - destruct (isValidCity entry) as [[|]|message]; cbn [bind]; [| |reflexivity].
    + destruct (normalizeCity entry) as [city|message]; cbn [bind]; [|reflexivity].
      apply IH.
    + apply IH.
Qed.

Lemma filterValidCities_loop entries cities :
  filterValidCities (VArray entries) = Normal cities ->
  exists filteredCount, filterLoop entries [] 0%nat = Normal (cities, filteredCount).
Proof.
  cbn [filterValidCities].
  destruct (filterLoop entries [] 0%nat) as [[kept m]|message]; cbn [bind fst];
    [|discriminate].
  intros [= <-]. eauto.
Qed.

(** X1. On an array for which it returns, [filterValidCities] returns
    the normalised accepted entries and nothing else, in the order of
    the input, and the entries it keeps and the ones it counts as
    filtered out add up to the input. A batch can be cut in two: the
    result for [a ++ b] is the result for [a] followed by the result for
    [b]. And the loop ends at the first entry on which [isValidCity] or
    [normalizeCity] throws, with the error of that entry. *)
Theorem filterValidCities_keeps_order :
  (forall entries cities,
     filterValidCities (VArray entries) = Normal cities ->
     List.map Normal cities = List.map normalizeCity (List.filter accepted entries)
     /\ exists filteredCount,
          filterLoop entries [] 0%nat = Normal (cities, filteredCount)
          /\ (length cities + filteredCount = length entries)%nat)
  /\ (forall a b ca cb,
        filterValidCities (VArray a) = Normal ca ->
        filterValidCities (VArray b) = Normal cb ->
        filterValidCities (VArray (a ++ b)) = Normal (ca ++ cb))
  /\ (forall a entry b ca message,
        filterValidCities (VArray a) = Normal ca ->
        throwing message entry ->
        filterValidCities (VArray (a ++ entry :: b)) = Throw message).
Proof.
  split; [|split].
  - intros entries cities Hcities.
    destruct (filterValidCities_loop entries cities Hcities) as [m Hloop].
    destruct (filterLoop_kept entries [] 0%nat cities m Hloop) as (kept & -> & Hkept & _ & Hlen).
    cbn [app]. split; [exact Hkept|]. exists m. split; [exact Hloop|].
    rewrite Nat.sub_0_r in Hlen. exact Hlen.
  - intros a b ca cb Ha Hb.
    destruct (filterValidCities_loop a ca Ha) as [ma Hla].
    destruct (filterValidCities_loop b cb Hb) as [mb Hlb].
    cbn [filterValidCities]. rewrite filterLoop_app, Hla. cbn [bind fst snd].
    rewrite filterLoop_from, Hlb. reflexivity.
  - intros a entry b ca message Ha Hthrow.
    destruct (filterValidCities_loop a ca Ha) as [ma Hla].
    cbn [filterValidCities]. rewrite filterLoop_app, Hla. cbn [bind fst snd filterLoop].
    destruct Hthrow as [->|[-> ->]]; reflexivity.
Qed.

Lemma filterValidCities_keeps_order_witness :
  filterValidCities
    (VArray ([record (VString (js "Berlin")) (VString (js "DE")) (VString (js "51.3"))]
             ++ [record (VString (js "12345")) (VString (js "XX")) (VNumber (ofZ 10));
                 record (VString (js "Paris")) (VString (js "FR")) (VNumber (ofZ 7))]))
  = Normal ([ {| name := js "Berlin"; country := js "DE"; pollution := parseFloat (js "51.3") |} ]
            ++ [ {| name := js "Paris"; country := js "FR"; pollution := ofZ 7 |} ])
  /\ filterValidCities
       (VArray ([record (VString (js "Berlin")) (VString (js "DE")) (VString (js "51.3"))]
                ++ record (VString (js "Paris")) unprintable (VNumber (ofZ 7))
                   :: [record (VString (js "Rome")) (VString (js "IT")) (VNumber (ofZ 9))]))
     = Throw notPrimitive.
Proof.
  split.
  - apply (proj1 (proj2 filterValidCities_keeps_order)); vm_compute; reflexivity.
  - apply (proj2 (proj2 filterValidCities_keeps_order)
             _ _ _ [ {| name := js "Berlin"; country := js "DE";
                        pollution := parseFloat (js "51.3") |} ]).
    + vm_compute. reflexivity.
    + right. split; vm_compute; reflexivity.
Defined.

End ClassifierMore.

Section ClassifierWords.
Import DataValidator ClassifierSpec BatchSpec.

Lemma toLowerCase_app a b : toLowerCase (a ++ b) = toLowerCase a ++ toLowerCase b.
Proof. unfold toLowerCase. rewrite List.map_app, List.concat_app. reflexivity. Qed.

Lemma isPrefix_app w b : isPrefix w (w ++ b) = true.
Proof. induction w as [|c w IH]; cbn; [reflexivity|]. rewrite N.eqb_refl. exact IH. Qed.

Lemma includes_app a w b : includes (a ++ w ++ b) w = true.
Proof.
  induction a as [|c a IH].
  - cbn [app]. destruct (w ++ b) eqn:E; cbn [includes]; rewrite <- E, isPrefix_app; reflexivity.
  - cbn [app includes]. rewrite IH. apply orb_true_r.
Qed.

Lemma lowerUnit_sameLetter c d :
  isLower d = true -> canonicalize c = canonicalize d -> lowerUnit c = [d].
Proof.
  unfold canonicalize, lowerUnit. intros Hd. rewrite Hd.
  unfold isLower, isUpper in *.
  apply andb_true_iff in Hd as [H1 H2]. apply N.leb_le in H1, H2.
  destruct (N.leb_spec 97 c); destruct (N.leb_spec c 122); cbn [andb];
    destruct (N.leb_spec 65 c); destruct (N.leb_spec c 90); cbn [andb];
    intros E; try lia; try (f_equal; lia).
  all: destruct (N.eqb_spec c 304); [lia|]; destruct (N.eqb_spec c 8490); [lia|];
       f_equal; lia.
Qed.

Lemma toLowerCase_sameLetters w word :
  forallb isLower word = true -> sameLetters w word = true -> toLowerCase w = word.
Proof.
  unfold sameLetters, eqbI, jsstring_eqb. intros Hlow H.
  apply bool_decide_eq_true in H.
  revert word Hlow H. induction w as [|c w IH]; intros [|d word] Hlow H;
    cbn in H; try discriminate; [reflexivity|].
  injection H as Hc Hrest. cbn in Hlow. apply andb_true_iff in Hlow as [Hd Hlow].
  change (toLowerCase (c :: w)) with (lowerUnit c ++ toLowerCase w).
  rewrite (lowerUnit_sameLetter c d Hd Hc), (IH word Hlow Hrest). reflexivity.
Qed.

Lemma splitWhiteSpace_aux_one s : forall cur,
  forallb (fun c => negb (isWhiteSpace c)) s = true ->
  splitWhiteSpace_aux cur false s = [rev cur ++ s].
Proof.
  induction s as [|c s IH]; intros cur H; cbn [splitWhiteSpace_aux].
  - rewrite app_nil_r. reflexivity.
  - cbn in H. apply andb_true_iff in H as [Hc H]. apply negb_true_iff in Hc.
    rewrite Hc, (IH _ H). cbn [rev]. rewrite <- app_assoc. reflexivity.
Qed.

Lemma splitWhiteSpace_aux_more s : forall cur,
  existsb isWhiteSpace s = true ->
  (2 <= length (splitWhiteSpace_aux cur false s))%nat.
Proof.
  induction s as [|c s IH]; intros cur H; cbn in H; [discriminate|].
  cbn [splitWhiteSpace_aux]. destruct (isWhiteSpace c) eqn:Hc.
  - cbn [length]. assert (forall b cur', (1 <= length (splitWhiteSpace_aux cur' b s))%nat) as Hone.
    { clear. induction s as [|d s IH]; intros b cur'; cbn; [lia|].
      destruct (isWhiteSpace d); [destruct b|]; cbn; try apply IH; lia. }
    specialize (Hone true []). lia.
  - cbn in H. apply IH, H.
Qed.

Lemma suspiciousWords_lower :
  forallb (forallb isLower) suspiciousWords = true.
Proof. vm_compute. reflexivity. Qed.

(** X2. A name of one word (no white space inside) that contains one
    of the suspicious words, in any mix of upper and lower case, is
    rejected: Seattle (sea), Portland (port), Chelsea (sea).  A name
    with white space inside is judged without that rule: it is valid
    exactly when its length is in range, no pattern matches, it has a
    letter and no more digits than letters. *)
Theorem isValidCityName_suspicious_words :
  (forall s before w after word,
     trim s = before ++ w ++ after ->
     In word suspiciousWords ->
     sameLetters w word = true ->
     forallb (fun c => negb (isWhiteSpace c)) (trim s) = true ->
     isValidCityName (VString s) = false)
  /\ (forall s,
        existsb isWhiteSpace (trim s) = true ->
        isValidCityName (VString s)
        = negb ((length (trim s) <? 1)%nat || (100 <? length (trim s))%nat)
          && negb (existsb (fun pattern : jsstring -> bool => pattern (trim s)) invalidPatterns)
          && existsb isLetter (trim s)
          && negb (count isLetter (trim s) <? count isDigit (trim s))%nat).
Proof.
  split.
  - intros s before w after word Hsplit Hin Hsame Hone.
    unfold isValidCityName.
    destruct ((length (trim s) <? 1)%nat || (100 <? length (trim s))%nat); [reflexivity|].
    destruct (existsb (fun pattern : jsstring -> bool => pattern (trim s)) invalidPatterns);
      [reflexivity|].
    assert (Hex : existsb (fun word0 =>
                     includes (toLowerCase (trim s)) word0
                     && (length (splitWhiteSpace (trim s)) =? 1)%nat) suspiciousWords = true).
    { apply existsb_exists. exists word. split; [exact Hin|].
      assert (Hlow : forallb isLower word = true).
      { pose proof suspiciousWords_lower as H.
        rewrite forallb_forall in H. apply H, Hin. }
      rewrite Hsplit, !toLowerCase_app, (toLowerCase_sameLetters w word Hlow Hsame).
      rewrite includes_app. rewrite <- Hsplit.
      unfold splitWhiteSpace. rewrite (splitWhiteSpace_aux_one _ [] Hone). reflexivity. }
    rewrite Hex. reflexivity.
  - intros s Hws. unfold isValidCityName.
    destruct ((length (trim s) <? 1)%nat || (100 <? length (trim s))%nat); [reflexivity|].
    destruct (existsb (fun pattern : jsstring -> bool => pattern (trim s)) invalidPatterns);
      [reflexivity|].
    assert (Hex : existsb (fun word0 =>
                     includes (toLowerCase (trim s)) word0
                     && (length (splitWhiteSpace (trim s)) =? 1)%nat) suspiciousWords = false).
    { apply not_true_is_false. intros H. apply existsb_exists in H as (word & _ & H).
      apply andb_true_iff in H as [_ H]. apply Nat.eqb_eq in H.
      pose proof (splitWhiteSpace_aux_more (trim s) [] Hws) as H2.
      unfold splitWhiteSpace in H. lia. }
    rewrite Hex. cbn [negb andb].
    destruct (existsb isLetter (trim s)); cbn [negb andb]; [|reflexivity].
    destruct (count isLetter (trim s) <? count isDigit (trim s))%nat; reflexivity.
Qed.

Lemma isValidCityName_suspicious_words_witness :
  isValidCityName (VString (js "Seattle")) = false
  /\ isValidCityName (VString (js " PORTLAND ")) = false
  /\ isValidCityName (VString (js "Port City"))
     = true.
Proof.
  split; [|split].
  - apply (proj1 isValidCityName_suspicious_words (js "Seattle") [] (js "Sea") (js "ttle") (js "sea"));
      vm_compute; auto 20.
  - apply (proj1 isValidCityName_suspicious_words (js " PORTLAND ") [] (js "PORT") (js "LAND") (js "port"));
      vm_compute; auto 20.
  - rewrite (proj2 isValidCityName_suspicious_words (js "Port City")); reflexivity.
Defined.

End ClassifierWords.

Section ClassifierCountry.
Import DataValidator ClassifierSpec BatchSpec.

Lemma letter_not_digit c : isLetter c = true -> isDigit c = false.
Proof.
  intros H. destruct (isDigit c) eqn:E; [|reflexivity].
  apply digit_not_letter in E. rewrite H in E. discriminate.
Qed.

Lemma letter_not_space c : isLetter c = true -> isWhiteSpace c = false.
Proof.
  unfold isLetter, isUpper, isLower, isWhiteSpace. intros H.
  apply orb_true_iff in H as [H|H]; apply andb_true_iff in H as [H1 H2];
    apply N.leb_le in H1, H2;
    repeat match goal with
           | |- context [?a <=? ?b] => destruct (N.leb_spec a b); try lia
           | |- context [?a =? ?b] => destruct (N.eqb_spec a b); try lia
           end; reflexivity.
Qed.

Lemma letter_not_bracket c : isLetter c = true -> isBracket c = false.
Proof.
  unfold isLetter, isUpper, isLower, isBracket. intros H. cbn.
  apply orb_true_iff in H as [H|H]; apply andb_true_iff in H as [H1 H2];
    apply N.leb_le in H1, H2;
    repeat match goal with
           | |- context [?a =? ?b] => destruct (N.eqb_spec a b); try lia
           end; reflexivity.
Qed.

Lemma eqbI_length s t : eqbI s t = true -> length s = length t.
Proof.
  unfold eqbI, jsstring_eqb. intros H. apply bool_decide_eq_true in H.
  apply (f_equal (@length N)) in H. rewrite !length_map in H. exact H.
Qed.

Lemma isPrefix_length p s : isPrefix p s = true -> (length p <= length s)%nat.
Proof.
  revert s. induction p as [|a p IH]; intros [|b s] H; cbn in *; try lia; try discriminate.
  apply andb_true_iff in H as [_ H]. apply IH in H. lia.
Qed.

Lemma endsWithI_length w s : endsWithI w s = true -> (length w <= length s)%nat.
Proof.
  unfold endsWithI, isSuffix. intros H. apply isPrefix_length in H.
  rewrite !length_rev, !length_map in H. exact H.
Qed.

(** On a string of two code units the patterns come down to the second
    one: no letter. *)
Lemma invalidPatterns_two t :
  length t = 2%nat ->
  existsb (fun pattern : jsstring -> bool => pattern t) invalidPatterns
  = negb (existsb isLetter t).
Proof.
  intros Hlen.
  assert (Hwords : forall words,
            forallb (fun w : jsstring => negb (length w =? 2)%nat) words = true ->
            existsb (eqbI t) words = false).
  { intros words Hw. apply not_true_is_false. intros H.
    apply existsb_exists in H as (w & Hin & H). apply eqbI_length in H.
    rewrite forallb_forall in Hw. specialize (Hw w Hin).
    apply negb_true_iff, Nat.eqb_neq in Hw. congruence. }
  assert (Hends : forall words,
            forallb (fun w : jsstring => (2 <? length w)%nat) words = true ->
            existsb (fun w => endsWithI w t) words = false).
  { intros words Hw. apply not_true_is_false. intros H.
    apply existsb_exists in H as (w & Hin & H). apply endsWithI_length in H.
    rewrite forallb_forall in Hw. specialize (Hw w Hin).
    apply Nat.ltb_lt in Hw. lia. }
  unfold invalidPatterns. cbn [existsb].
  rewrite !Hwords by (vm_compute; reflexivity).
  rewrite Hends by (vm_compute; reflexivity).
  destruct t as [|a [|b [|c t]]]; try discriminate Hlen. clear Hlen Hwords Hends.
  cbn [nonEmpty forallb existsb andb orb negb].
  destruct (isLetter a) eqn:Ha; destruct (isLetter b) eqn:Hb; cbn [negb andb orb];
    try rewrite (letter_not_digit a Ha), (letter_not_space a Ha), (letter_not_bracket a Ha);
    try rewrite (letter_not_digit b Hb), (letter_not_space b Hb), (letter_not_bracket b Hb);
    cbn [andb orb]; rewrite ?andb_false_r, ?orb_true_r; reflexivity.
Qed.

Lemma upper_letter c : isUpper c = true -> isLetter c = true.
Proof. unfold isLetter. intros ->. reflexivity. Qed.

(** X3. A country of two code units (after trimming) is judged by the
    list of codes only when both are upper-case letters: then it is valid
    exactly when it is in the list. Any other pair is valid as soon as it
    contains a letter, so "de" and "xx" are valid countries while "XX"
    is not. *)
Theorem isValidCountry_two_letters s :
  length (trim s) = 2%nat ->
  isValidCountry (VString s)
  = if forallb isUpper (trim s)
    then existsb (jsstring_eqb (trim s)) validCountryCodes
    else existsb isLetter (trim s).
Proof.
  intros Hlen. unfold isValidCountry.
  rewrite Hlen. cbn [Nat.ltb Nat.leb Nat.eqb orb andb].
  rewrite (invalidPatterns_two (trim s) Hlen).
  destruct (trim s) as [|a [|b [|c t]]]; try discriminate Hlen.
  cbn [forallb existsb].
  destruct (isUpper a) eqn:Ha; cbn [andb].
  - rewrite (upper_letter a Ha). cbn [orb negb].
    destruct (isUpper b) eqn:Hb; cbn [andb]; reflexivity.
  - rewrite ?andb_true_r, ?orb_false_r.
    destruct (isLetter a || isLetter b); reflexivity.
Qed.

Lemma isValidCountry_two_letters_witness :
  isValidCountry (VString (js " DE ")) = true
  /\ isValidCountry (VString (js "XX")) = false
  /\ isValidCountry (VString (js "xx")) = true
  /\ isValidCountry (VString (js "42")) = false.
Proof.
  split; [|split; [|split]].
  - rewrite (isValidCountry_two_letters (js " DE ")); reflexivity.
  - rewrite (isValidCountry_two_letters (js "XX")); reflexivity.
  - rewrite (isValidCountry_two_letters (js "xx")); reflexivity.
  - rewrite (isValidCountry_two_letters (js "42")); reflexivity.
Defined.

(** X4. For an accepted entry only the country can make
    [normalizeCity] throw: it returns when the country is no object
    with an own [toString] (and no array that holds one), and throws
    the TypeError of the conversion when it is. When it returns, the
    name is the entry's name trimmed, and it is a valid name; name and
    country are free of surrounding white space; the country is a valid
    country if the entry's was; and when the entry's pollution was a
    string the normalised record is again an accepted entry, with the
    pollution in range. *)
Theorem normalizeCity_of_accepted entry :
  isValidCity entry = Normal true ->
  (if convertible (getProp (js "country") entry)
   then exists city, normalizeCity entry = Normal city
   else normalizeCity entry = Throw notPrimitive)
  /\ (forall city,
        normalizeCity entry = Normal city ->
        (exists s, getProp (js "name") entry = VString s /\ name city = trim s)
        /\ trim (name city) = name city
        /\ trim (country city) = country city
        /\ isValidCityName (VString (name city)) = true
        /\ (isValidCountry (getProp (js "country") entry) = true ->
            isValidCountry (VString (country city)) = true)
        /\ (forall s, getProp (js "pollution") entry = VString s ->
              inRange (pollution city)
              /\ isValidCity (record (VString (name city)) (VString (country city))
                                (VNumber (pollution city))) = Normal true)).
Proof.
  intros Hvalid. split.
  { destruct (convertible (getProp (js "country") entry)) eqn:Hc.
    - apply (normalizeCity_returns entry Hvalid Hc).
    - apply (normalizeCity_throws entry Hvalid Hc). }
  intros city Hn.
  destruct (normalizeCity_accepted entry city Hvalid Hn)
    as ((s & Hs & Hnm) & (c & Hc & Hcn) & Hname & Hcountry & Hpoll).
  split; [eauto|].
  split; [rewrite Hnm; apply trim_idempotent|].
  split; [rewrite Hcn; apply trim_idempotent|].
  split; [exact Hname|]. split; [exact Hcountry|].
  intros p Hp. destruct (Hpoll p Hp) as [_ Hrange]. split; [exact Hrange|].
  apply isValidCity_accepts. cbn [getProp lookupProp ToBoolean typeofIsObject isNullish].
  change (jsstring_eqb (js "name") (js "name")) with true.
  change (jsstring_eqb (js "name") (js "pollution")) with false.
  change (jsstring_eqb (js "country") (js "pollution")) with false.
  change (jsstring_eqb (js "pollution") (js "pollution")) with true.
  cbn iota.
  split; [reflexivity|]. split; [reflexivity|].
  split; [exact (isValidCityName_truthy _ Hname)|].
  split; [reflexivity|]. split; [exact Hname|].
  apply isValidPollutionValue_number, Hrange.
Qed.

Lemma normalizeCity_of_accepted_witness :
  (exists city,
     normalizeCity (record (VString (js " Berlin ")) (VString (js " DE")) (VString (js "51.3")))
     = Normal city
     /\ name city = js "Berlin"
     /\ isValidCityName (VString (name city)) = true)
  /\ normalizeCity (record (VString (js "Berlin")) unprintable (VNumber (ofZ 5)))
     = Throw notPrimitive.
Proof.
  split.
  - destruct (normalizeCity_of_accepted
                (record (VString (js " Berlin ")) (VString (js " DE")) (VString (js "51.3")))
                eq_refl) as [[city Hn] Hcity].
    destruct (Hcity city Hn) as ((s & Hs & Hname) & _ & _ & Hvalid & _).
    exists city. split; [exact Hn|]. split; [|exact Hvalid].
    rewrite Hname. vm_compute in Hs. injection Hs as <-. reflexivity.
  - exact (proj1 (normalizeCity_of_accepted
                    (record (VString (js "Berlin")) unprintable (VNumber (ofZ 5)))
                    eq_refl)).
Defined.

End ClassifierCountry.

(** ** The enrichment service: texts and cache entries *)

Section EnrichmentMore.
Import WikipediaService EnrichmentSpec DescriptionSpec.

Lemma trim_rev_head s : headOk (rev (trim s)).
Proof. unfold trim, trimEnd. rewrite rev_involutive. apply trimStart_head. Qed.

Lemma trim_head s : headOk (trim s).
Proof.
  unfold trim, trimEnd.
  set (u := trimStart s). set (v := trimStart (rev u)).
  destruct (trimStart_suffix (rev u)) as [ws Hws]. fold v in Hws.
  apply (f_equal (@rev N)) in Hws. rewrite rev_involutive, rev_app_distr in Hws.
  pose proof (trimStart_head s) as Hu. fold u in Hu. rewrite Hws in Hu.
  unfold headOk. destruct (rev v) as [|c r]; [exact I | exact Hu].
Qed.

Lemma trim_fixed t : headOk t -> headOk (rev t) -> trim t = t.
Proof.
  intros H1 H2. unfold trim, trimEnd.
  rewrite (trimStart_stable t H1), (trimStart_stable (rev t) H2).
  apply rev_involutive.
Qed.

Lemma cleanExtract_trimmed raw : trim (cleanExtract raw) = cleanExtract raw.
Proof.
  unfold cleanExtract, substring0.
  destruct (300 <? length (trim raw))%nat eqn:Hlong; [|apply trim_idempotent].
  set (head := trim (firstn 300 (trim raw))).
  pose proof (trim_head (firstn 300 (trim raw))) as Hh. fold head in Hh.
  destruct (200 <? lastIndexOf 46 head)%Z eqn:Hp.
  - apply Z.ltb_lt in Hp.
    destruct (lastIndexOf_spec 46 head) as [Hlt Hat]; [lia|].
    replace (Z.to_nat (lastIndexOf 46 head + 1)) with (S (Z.to_nat (lastIndexOf 46 head)))
      by lia.
    rewrite (take_S_r _ _ _ Hat).
    apply trim_fixed.
    + destruct head as [|c head']; [rewrite lookup_nil in Hat; discriminate|].
      destruct (Z.to_nat (lastIndexOf 46 (c :: head'))) eqn:E; [lia | exact Hh].
    + rewrite rev_app_distr. reflexivity.
  - apply trim_fixed.
    + destruct head; [reflexivity | exact Hh].
    + rewrite rev_app_distr. reflexivity.
Qed.

Lemma cleanExtract_length raw : (length (cleanExtract raw) <= 303)%nat.
Proof.
  unfold cleanExtract, substring0.
  destruct (300 <? length (trim raw))%nat eqn:Hlong.
  - assert (Hhead : (length (trim (firstn 300 (trim raw))) <= 300)%nat).
    { etransitivity; [apply trim_length|]. rewrite length_take. lia. }
    destruct (200 <? _)%Z.
    + rewrite length_take. lia.
    + rewrite length_app. cbn. lia.
  - apply Nat.ltb_ge in Hlong. lia.
Qed.

(** X5. Whatever the extract, the cleaned text is at most 303 code
    units long and has no white space at either end; an extract of at
    most 300 code units after trimming comes back trimmed and otherwise
    unchanged, whether or not it ends a sentence. *)
Theorem cleanExtract_bounds raw :
  (length (cleanExtract raw) <= 303)%nat
  /\ trimmed (cleanExtract raw)
  /\ ((length (trim raw) <= 300)%nat -> cleanExtract raw = trim raw).
Proof.
  split; [apply cleanExtract_length|]. split; [apply cleanExtract_trimmed|].
  intros Hshort. unfold cleanExtract.
  apply Nat.ltb_ge in Hshort. rewrite Hshort. reflexivity.
Qed.

Lemma cleanExtract_bounds_witness :
  cleanExtract (js "  Berlin is the capital of Germany ") = js "Berlin is the capital of Germany".
Proof.
  rewrite (proj2 (proj2 (cleanExtract_bounds (js "  Berlin is the capital of Germany ")))).
  - reflexivity.
  - vm_compute. lia.
Defined.


(** X6. However a GET ends, a lookup that is resolved is resolved with
    [null] or with a string, and the string is trimmed and at most 303
    code units long; it may be empty. A body without a truthy [extract]
    and status 404 give [null]. *)
Theorem settle_resolves :
  (forall r v, settle r = Resolved v ->
     v = VNull
     \/ exists s, v = VString s /\ (length s <= 303)%nat /\ trimmed s)
  /\ (forall data, ToBoolean (getProp (js "extract") data) = false ->
        settle (Response data) = Resolved VNull)
  /\ settle (StatusError 404) = Resolved VNull
  /\ settle (Response (VObject [(js "extract", VString (js "   "))])) = Resolved (VString []).
Proof.
  split; [|split; [|split]].
  - intros r v. destruct r as [data|status|]; cbn [settle].
    + unfold onResponse.
      destruct (ToBoolean data && ToBoolean (getProp (js "extract") data)).
      * destruct (getProp (js "extract") data); try discriminate.
        intros [= <-]. right. eexists. split; [reflexivity|].
        split; [apply cleanExtract_length | apply cleanExtract_trimmed].
      * intros [= <-]. left. reflexivity.
    + destruct (status =? 404)%Z; [|discriminate]. intros [= <-]. left. reflexivity.
    + discriminate.
  - intros data H. cbn [settle]. unfold onResponse. rewrite H, andb_false_r. reflexivity.
  - reflexivity.
  - vm_compute. reflexivity.
Qed.

Lemma settle_resolves_witness :
  exists s,
    settle (Response (VObject [(js "extract", VString (js " Berlin is a city. "))]))
    = Resolved (VString s)
    /\ (length s <= 303)%nat.
Proof.
  destruct (proj1 settle_resolves
              (Response (VObject [(js "extract", VString (js " Berlin is a city. "))]))
              (VString (js "Berlin is a city.")) eq_refl) as [H|(s & H & Hlen & _)].
  - discriminate H.
  - exists s. split; [rewrite <- H; reflexivity | exact Hlen].
Defined.

Lemma wait_add a : forall b c,
  MemoryCache.wait b (MemoryCache.wait a c) = MemoryCache.wait (a + b) c.
Proof.
  induction a as [|a IH]; intros b c; cbn [MemoryCache.wait Nat.add]; [reflexivity|].
  apply IH.
Qed.

Lemma exec_trySearchTerms_effect key network : forall terms c done,
  let r := exec (trySearchTerms key terms) network c done in
  exists n ms,
    (n <= length terms)%nat
    /\ (terms <> [] -> (1 <= n)%nat)
    /\ lookups r = done ++ firstn n terms
    /\ (result r = VNull \/ ToBoolean (result r) = true)
    /\ finalCache r
       = MemoryCache.set key (result r) (Some (ttlOf (result r))) (MemoryCache.wait ms c).
Proof.
  induction terms as [|term rest IH]; intros c done; cbn zeta.
  - exists 0%nat, 0%nat. cbn. rewrite app_nil_r. repeat split; auto. congruence.
  - cbn [trySearchTerms exec].
    destruct (network (length done) term) as [o ms].
    assert (Hnext : exists n ms',
               (n <= length (term :: rest))%nat
               /\ (term :: rest <> [] -> (1 <= n)%nat)
               /\ lookups (exec (trySearchTerms key rest) network (MemoryCache.wait ms c)
                             (done ++ [term]))
                  = done ++ firstn n (term :: rest)
               /\ (result (exec (trySearchTerms key rest) network (MemoryCache.wait ms c)
                             (done ++ [term])) = VNull
                   \/ ToBoolean (result (exec (trySearchTerms key rest) network
                                           (MemoryCache.wait ms c) (done ++ [term]))) = true)
               /\ finalCache (exec (trySearchTerms key rest) network (MemoryCache.wait ms c)
                                (done ++ [term]))
                  = MemoryCache.set key
                      (result (exec (trySearchTerms key rest) network (MemoryCache.wait ms c)
                                 (done ++ [term])))
                      (Some (ttlOf (result (exec (trySearchTerms key rest) network
                                              (MemoryCache.wait ms c) (done ++ [term])))))
                      (MemoryCache.wait ms' c)).
    { destruct (IH (MemoryCache.wait ms c) (done ++ [term])) as (n & ms' & Hn & _ & Hl & Hr & Hc).
      exists (S n), (ms + ms')%nat. cbn [length firstn].
      split; [lia|]. split; [lia|].
      split; [rewrite Hl, <- app_assoc; reflexivity|].
      split; [exact Hr|]. rewrite Hc, wait_add. reflexivity. }
    destruct o as [v|]; [|exact Hnext].
    destruct (ToBoolean v) eqn:Hv; [|exact Hnext].
    exists 1%nat, ms. cbn [exec result lookups finalCache length firstn].
    split; [lia|]. split; [lia|]. split; [reflexivity|]. split; [right; exact Hv|].
    unfold ttlOf. rewrite Hv. reflexivity.
Qed.

(** X7. One call of [getCityDescription] looks up at most three titles,
    and they are the search terms from the first on, in order; it returns
    [null] or a truthy value, never an empty text; and it touches the
    cache in one of two ways: on a truthy cached value it returns it, with
    no lookup and the cache as it was; otherwise it makes at least one
    lookup and ends with one [set] under its own key, of the value it
    returns, for a day if that is a description and for an hour if it is
    [null]. *)
Theorem getCityDescription_effect lower city country network c :
  let r := exec (getCityDescription lower city country) network c [] in
  let key := cacheKeyOf lower city country in
  (exists n, (n <= 3)%nat /\ lookups r = firstn n (searchTermsOf city country))
  /\ (result r = VNull \/ ToBoolean (result r) = true)
  /\ ((lookups r = [] /\ finalCache r = c /\ MemoryCache.get key c = Some (result r))
      \/ (lookups r <> []
          /\ exists ms,
               finalCache r
               = MemoryCache.set key (result r) (Some (ttlOf (result r)))
                   (MemoryCache.wait ms c))).
Proof.
  cbn zeta.
  assert (Hmiss : (forall v, MemoryCache.get (cacheKeyOf lower city country) c = Some v ->
                             ToBoolean v = false) ->
    (exists n, (n <= 3)%nat
               /\ lookups (exec (getCityDescription lower city country) network c [])
                  = firstn n (searchTermsOf city country))
    /\ (result (exec (getCityDescription lower city country) network c []) = VNull
        \/ ToBoolean (result (exec (getCityDescription lower city country) network c [])) = true)
    /\ (lookups (exec (getCityDescription lower city country) network c []) <> []
        /\ exists ms,
             finalCache (exec (getCityDescription lower city country) network c [])
             = MemoryCache.set (cacheKeyOf lower city country)
                 (result (exec (getCityDescription lower city country) network c []))
                 (Some (ttlOf (result (exec (getCityDescription lower city country) network c []))))
                 (MemoryCache.wait ms c))).
  { intros H. rewrite (exec_getCityDescription_miss _ _ _ _ _ H).
    destruct (exec_trySearchTerms_effect (cacheKeyOf lower city country) network
                (searchTermsOf city country) c []) as (n & ms & Hn & Hpos & Hl & Hr & Hc).
    cbn [app] in Hl.
    split; [exists n; split; [exact Hn | exact Hl]|].
    split; [exact Hr|]. split.
    - rewrite Hl. specialize (Hpos ltac:(discriminate)).
      destruct n; [lia|]. discriminate.
    - exists ms. exact Hc. }
  destruct (MemoryCache.get (cacheKeyOf lower city country) c) as [v|] eqn:Hget.
  - destruct (ToBoolean v) eqn:Hv.
    + rewrite (getCityDescription_cache_hit _ _ _ _ _ _ Hget Hv). cbn [lookups result finalCache].
      split; [exists 0%nat; split; [lia | reflexivity]|].
      split; [right; exact Hv|]. left. auto.
    + destruct Hmiss as (H1 & H2 & H3); [intros v' [= <-]; exact Hv|].
      split; [exact H1|]. split; [exact H2|]. right. exact H3.
  - destruct Hmiss as (H1 & H2 & H3); [intros v' Hv'; discriminate|].
    split; [exact H1|]. split; [exact H2|]. right. exact H3.
Qed.

End EnrichmentMore.

(** ** The cache: bookkeeping and independence of keys *)

Section CacheMore.
Import MemoryCache CacheSpec StoreSpec.

Lemma get_run_set key v ttl ops s :
  wellFormed s -> leaves key ops = true ->
  get key (run ops (set key v ttl s))
  = match expires ttl with
    | Some delay => if (Z.of_nat (elapsed ops) <? delay)%Z then Some v else None
    | None => Some v
    end.
Proof.
  intros Hwf Hleave.
  pose proof (run_status key ops _ _ (wellFormed_set key v ttl _ Hwf)
                (set_status key v ttl _ Hwf) Hleave) as H.
  rewrite set_fields in H. unfold get.
  destruct (expires ttl) as [delay|]; cbn in H; [|tauto].
  replace (now s + Z.of_nat (elapsed ops) <? now s + delay)%Z
    with (Z.of_nat (elapsed ops) <? delay)%Z in H.
  - destruct (Z.of_nat (elapsed ops) <? delay)%Z; cbn in H; tauto.
  - destruct (Z.ltb_spec (Z.of_nat (elapsed ops)) delay);
      symmetry; [apply Z.ltb_lt | apply Z.ltb_ge]; lia.
Qed.

(** X8. A TTL above [2^31 - 1] ms (about 24.8 days) does not keep the
    entry that long: the timer is set to one millisecond, so the entry
    reads back only until the clock moves, and is gone from then on. *)
Theorem set_ttl_overflow key v ms before ops :
  (TIMEOUT_MAX < ms)%Z ->
  leaves key ops = true ->
  get key (run ops (set key v (Some ms) (run before empty)))
  = if (elapsed ops =? 0)%nat then Some v else None.
Proof.
  intros Hms Hleave.
  rewrite get_run_set; [|apply wellFormed_run, wellFormed_empty | exact Hleave].
  unfold expires, timerDelay, TIMEOUT_MAX in *.
  destruct (Z.ltb_spec 0 ms); [|lia].
  destruct (Z.leb_spec 1 ms); [|lia].
  destruct (Z.leb_spec ms 2147483647); [lia|]. cbn [andb].
  destruct (Nat.eqb_spec (elapsed ops) 0) as [->|Hne]; [reflexivity|].
  destruct (Z.ltb_spec (Z.of_nat (elapsed ops)) 1); [lia | reflexivity].
Qed.

Lemma set_ttl_overflow_witness :
  get (js "page") (run [] (set (js "page") VNull (Some 2592000000%Z) (run [] empty)))
  = Some VNull
  /\ get (js "page") (run [OWait 1] (set (js "page") VNull (Some 2592000000%Z) (run [] empty)))
     = None.
Proof.
  split.
  - exact (set_ttl_overflow (js "page") VNull 2592000000%Z [] [] eq_refl eq_refl).
  - exact (set_ttl_overflow (js "page") VNull 2592000000%Z [] [OWait 1] eq_refl eq_refl).
Defined.

(** *** The invariant [tidy] *)

Lemma tidy_empty : tidy empty.
Proof.
  split; [|split]; cbn; intros; try contradiction.
  rewrite lookup_empty in H. discriminate.
Qed.

Lemma tidy_clearTimerOf key s :
  coherent s -> tidy s ->
  (forall t1 t2, In t1 (scheduled (clearTimerOf key s)) ->
                 In t2 (scheduled (clearTimerOf key s)) ->
                 target t1 = target t2 -> t1 = t2)
  /\ (forall k h, timers (clearTimerOf key s) !! k = Some h ->
        exists t, In t (scheduled (clearTimerOf key s)) /\ handle t = h /\ target t = k).
Proof.
  intros Hc (Hone & _ & Hreg). split.
  - intros t1 t2 H1 H2. apply (clearTimerOf_scheduled key s _ Hc) in H1, H2.
    apply Hone; tauto.
  - intros k h. rewrite clearTimerOf_timers. intros H.
    apply lookup_delete_Some in H as [Hne H].
    destruct (Hreg k h H) as (t & Hin & Hh & Ht). exists t.
    split; [|auto]. apply (clearTimerOf_scheduled key s t Hc). split; [exact Hin|congruence].
Qed.

Lemma tidy_delete key s : coherent s -> tidy s -> tidy (fst (delete key s)).
Proof.
  intros Hc Ht. destruct (tidy_clearTimerOf key s Hc Ht) as [Hone Hreg].
  destruct Ht as (_ & Hin & _).
  split; [exact Hone|]. split; [|exact Hreg].
  unfold delete; cbn. intros t Ht.
  apply (clearTimerOf_scheduled key s t Hc) in Ht as [Ht Hne].
  rewrite lookup_delete_ne by congruence.
  destruct (clearTimerOf_fields key s) as (-> & _). apply Hin, Ht.
Qed.

Lemma tidy_set key v ttl s : coherent s -> tidy s -> tidy (set key v ttl s).
Proof.
  intros Hc Ht. destruct (tidy_clearTimerOf key s Hc Ht) as [Hone Hreg].
  destruct Ht as (_ & Hin & _).
  pose proof (clearTimerOf_scheduled key s) as Hsch.
  destruct (clearTimerOf_fields key s) as (Hcache & _ & _).
  pose proof (clearTimerOf_timers key s) as Htim.
  assert (Hpresent : forall t, In t (scheduled (clearTimerOf key s)) ->
            is_Some (<[key:=v]> (cache (clearTimerOf key s)) !! target t)).
  { intros t Hin'. apply (Hsch t Hc) in Hin' as [Hin' Hne].
    rewrite lookup_insert_ne by congruence. rewrite Hcache. apply Hin, Hin'. }
  unfold set.
  destruct ttl as [ms|]; [rewrite set_no_timer_test; destruct (0 <? ms)%Z|];
    try (split; [|split]; cbn; assumption).
  split; [|split]; cbn.
  - intros t1 t2 H1 H2 Heq.
    apply in_app_or in H1 as [H1|[<-|[]]]; apply in_app_or in H2 as [H2|[<-|[]]].
    + apply Hone; assumption.
    + apply (Hsch t1 Hc) in H1. cbn in Heq. tauto.
    + apply (Hsch t2 Hc) in H2. cbn in Heq. symmetry in Heq. tauto.
    + reflexivity.
  - intros t H. apply in_app_or in H as [H|[<-|[]]]; [apply Hpresent, H|].
    cbn. rewrite lookup_insert_eq. eauto.
  - intros k h H. destruct (decide (key = k)) as [<-|Hne].
    + rewrite lookup_insert_eq in H. injection H as <-.
      eexists. split; [apply in_or_app; right; left; reflexivity|]. auto.
    + rewrite lookup_insert_ne in H by exact Hne.
      destruct (Hreg k h H) as (t & Hin' & Hh & Htg). exists t.
      split; [apply in_or_app; left; exact Hin' | auto].
Qed.

Lemma tidy_clear s : coherent s -> tidy (clear s).
Proof.
  intros Hc. pose proof (clear_scheduled s Hc) as Hnil.
  split; [|split]; try rewrite Hnil; cbn; intros; try contradiction.
  rewrite lookup_empty in H. discriminate.
Qed.

Lemma tidy_unschedule t s :
  coherent s -> tidy s -> In t (scheduled s) ->
  (forall t1 t2, In t1 (scheduled (unschedule t s)) -> In t2 (scheduled (unschedule t s)) ->
                 target t1 = target t2 -> t1 = t2)
  /\ (forall u, In u (scheduled (unschedule t s)) -> is_Some (cache s !! target u))
  /\ (forall k h, k <> target t -> timers s !! k = Some h ->
        exists u, In u (scheduled (unschedule t s)) /\ handle u = h /\ target u = k).
Proof.
  intros (Hreg0 & _ & Hinj) (Hone & Hin & Hreg) Ht. cbn. split; [|split].
  - intros t1 t2 H1 H2. apply In_clearTimeout in H1, H2. apply Hone; tauto.
  - intros u Hu. apply In_clearTimeout in Hu. apply Hin. tauto.
  - intros k h Hne Hk. destruct (Hreg k h Hk) as (u & Hu & Hh & Htg). exists u.
    split; [|auto]. apply In_clearTimeout. split; [exact Hu|].
    intros Heq. apply Hne. rewrite <- Htg.
    apply (Hinj (target u) (target t) (handle t)); [rewrite <- Heq|]; auto.
Qed.

Lemma tidy_fireOne t s :
  coherent s -> tidy s -> In t (scheduled s) -> tidy (fireOne t s).
Proof.
  intros Hc Ht Hin.
  destruct (tidy_unschedule t s Hc Ht Hin) as (Hone & Hpres & Hreg).
  pose proof (coherent_unschedule t s Hc) as Hcu.
  pose proof (clearTimerOf_scheduled (target t) (unschedule t s)) as Hsch.
  unfold fireOne, delete. cbn [fst].
  split; [|split]; cbn [scheduled cache timers].
  - intros t1 t2 H1 H2. apply (Hsch _ Hcu) in H1, H2. apply Hone; tauto.
  - intros u Hu. apply (Hsch _ Hcu) in Hu as [Hu Hne].
    rewrite lookup_delete_ne by congruence.
    destruct (clearTimerOf_fields (target t) (unschedule t s)) as (-> & _).
    apply Hpres, Hu.
  - intros k h. rewrite clearTimerOf_timers. intros H.
    apply lookup_delete_Some in H as [Hne H]. cbn in H.
    destruct (Hreg k h ltac:(congruence) H) as (u & Hu & Hh & Htg). exists u.
    split; [|auto]. apply (Hsch _ Hcu). split; [exact Hu | congruence].
Qed.

Lemma tidy_runDue : forall fuel s, coherent s -> tidy s -> tidy (runDue fuel s).
Proof.
  induction fuel as [|fuel IH]; intros s Hc Ht; [exact Ht|].
  rewrite runDue_S.
  destruct (List.find (fun t => (due t <=? now s)%Z) (scheduled s)) as [t|] eqn:Hfind;
    [|exact Ht].
  apply find_some in Hfind as [Hin _].
  apply IH; [apply fireOne_coherent, Hc | apply tidy_fireOne; assumption].
Qed.

Lemma tidy_wait ms : forall s, wellFormed s -> tidy s -> tidy (wait ms s).
Proof.
  induction ms as [|ms IH]; intros s Hwf Ht; cbn [wait]; [exact Ht|].
  apply IH; [apply (tick_spec [] s Hwf)|].
  unfold tick. apply tidy_runDue; [apply Hwf | exact Ht].
Qed.

Lemma tidy_step s o : wellFormed s -> tidy s -> tidy (step s o).
Proof.
  intros Hwf Ht. pose proof Hwf as [Hc _].
  destruct o as [k v ttl|k|k|k| |ms]; cbn [step]; auto.
  - apply tidy_set; assumption.
  - apply tidy_delete; assumption.
  - apply tidy_clear, Hc.
  - apply tidy_wait; assumption.
Qed.

Lemma tidy_run ops : forall s, wellFormed s -> tidy s -> tidy (run ops s).
Proof.
  induction ops as [|o ops IH]; intros s Hwf Ht; cbn; [exact Ht|].
  apply IH; [apply wellFormed_step, Hwf | apply tidy_step; assumption].
Qed.

(** X9. In every state the cache reaches from the empty one, by any
    sequence of [set], [get], [has], [delete], [clear] and passing time:
    a scheduled removal is the one [timers] registers for its key, its
    key is in the cache, and it is not yet due; no key has two removals
    scheduled; and every handle in [timers] is that of a scheduled
    removal of its key. *)
Theorem cache_invariants ops :
  let s := run ops empty in
  (forall t, In t (scheduled s) ->
     timers s !! target t = Some (handle t)
     /\ is_Some (cache s !! target t)
     /\ (now s < due t)%Z)
  /\ (forall t1 t2, In t1 (scheduled s) -> In t2 (scheduled s) ->
                    target t1 = target t2 -> t1 = t2)
  /\ (forall k h, timers s !! k = Some h ->
        exists t, In t (scheduled s) /\ handle t = h /\ target t = k).
Proof.
  cbn zeta.
  pose proof (wellFormed_run ops empty wellFormed_empty) as [(Hreg & _) Hdue].
  pose proof (tidy_run ops empty wellFormed_empty tidy_empty) as (Hone & Hin & Hback).
  split; [|split; assumption].
  intros t Ht. auto.
Qed.

Lemma cache_invariants_witness :
  let s := run [OSet (js "k") VNull (Some 1000%Z); OWait 999] empty in
  timers s !! js "k" = Some 0%nat /\ (now s < 1000)%Z.
Proof.
  destruct (proj1 (cache_invariants [OSet (js "k") VNull (Some 1000%Z); OWait 999])
              {| handle := 0; due := 1000; target := js "k" |})
    as (Htimer & _ & Hdue).
  - vm_compute. left. reflexivity.
  - split; [exact Htimer | exact Hdue].
Defined.


Lemma wait_idle ms : forall s,
  scheduled s = [] ->
  cache (wait ms s) = cache s /\ scheduled (wait ms s) = [] /\ timers (wait ms s) = timers s.
Proof.
  induction ms as [|ms IH]; intros s Hs; cbn [wait]; [auto|].
  unfold tick. rewrite Hs. cbn [length runDue].
  destruct (IH {| cache := cache s; timers := timers s; scheduled := [];
                  nextHandle := nextHandle s; now := (now s + 1)%Z |} eq_refl)
    as (H1 & H2 & H3).
  auto.
Qed.

(** X10. [clear()] in any reachable state leaves nothing behind: the
    cache and [timers] are empty and no removal stays scheduled, so
    however long one waits afterwards no key reads back and nothing
    fires. *)
Theorem clear_empties before ms key :
  let s := clear (run before empty) in
  cache s = ∅ /\ timers s = ∅ /\ scheduled s = []
  /\ get key (wait ms s) = None
  /\ has key (wait ms s) = false
  /\ scheduled (wait ms s) = [].
Proof.
  cbn zeta.
  pose proof (wellFormed_run before empty wellFormed_empty) as [Hc _].
  pose proof (clear_scheduled _ Hc) as Hnil.
  destruct (wait_idle ms _ Hnil) as (Hcache & Hsch & _).
  split; [reflexivity|]. split; [reflexivity|]. split; [exact Hnil|].
  unfold get, has. rewrite Hcache. cbn [clear cache].
  rewrite lookup_empty. split; [reflexivity|]. split; [|exact Hsch].
  apply bool_decide_eq_false. intros [x Hx]. discriminate.
Qed.

(** *** Keys do not interfere *)

Lemma holds_valueOf key st s : holds key st s -> get key s = valueOf st.
Proof. destruct st; cbn; intros [H _]; exact H. Qed.

Lemma clear_status key s : coherent s -> holds key Gone (clear s).
Proof.
  intros Hc. split; [apply lookup_empty|].
  intros t Hin. rewrite (clear_scheduled s Hc) in Hin. contradiction.
Qed.

Lemma delete_status key s : coherent s -> holds key Gone (fst (delete key s)).
Proof. intros Hc. apply (delete_gone key s Hc). Qed.

(** Two well-formed states with the same clock in which the key has the
    same status stay so under any operation. *)
Lemma step_together key s1 s2 o st :
  wellFormed s1 -> wellFormed s2 -> now s1 = now s2 ->
  holds key st s1 -> holds key st s2 ->
  now (step s1 o) = now (step s2 o)
  /\ exists st', holds key st' (step s1 o) /\ holds key st' (step s2 o).
Proof.
  intros Hwf1 Hwf2 Hnow H1 H2.
  destruct (writes key o) eqn:Hw.
  - destruct o as [k v ttl|k|k|k| |ms]; cbn [writes] in Hw; try discriminate; cbn [step].
    + apply bool_decide_eq_true in Hw. subst k.
      rewrite !set_fields. split; [exact Hnow|].
      eexists. split; [apply set_status; exact Hwf1|].
      rewrite Hnow. apply set_status; exact Hwf2.
    + apply bool_decide_eq_true in Hw. subst k.
      destruct (delete_fields key s1) as [-> _]. destruct (delete_fields key s2) as [-> _].
      split; [exact Hnow|]. exists Gone.
      split; apply delete_status; [apply Hwf1 | apply Hwf2].
    + split; [exact Hnow|]. exists Gone. split; apply clear_status; [apply Hwf1 | apply Hwf2].
  - destruct (step_status key st s1 o Hwf1 Hw H1) as [Hn1 Hs1].
    destruct (step_status key st s2 o Hwf2 Hw H2) as [Hn2 Hs2].
    split; [lia|]. exists (after st (now (step s1 o))). split; [exact Hs1|].
    replace (now (step s1 o)) with (now (step s2 o)) by lia. exact Hs2.
Qed.

Lemma run_together key : forall ops s1 s2 st,
  wellFormed s1 -> wellFormed s2 -> now s1 = now s2 ->
  holds key st s1 -> holds key st s2 ->
  get key (run ops s1) = get key (run ops s2).
Proof.
  induction ops as [|o ops IH]; intros s1 s2 st Hwf1 Hwf2 Hnow H1 H2; cbn [run fold_left].
  - rewrite (holds_valueOf key st s1 H1), (holds_valueOf key st s2 H2). reflexivity.
  - destruct (step_together key s1 s2 o st Hwf1 Hwf2 Hnow H1 H2) as (Hn & st' & Hs1 & Hs2).
    apply (IH _ _ st'); auto using wellFormed_step.
Qed.

Lemma status_exists key ops : forall s,
  wellFormed s -> (exists st, holds key st s) -> exists st, holds key st (run ops s).
Proof.
  induction ops as [|o ops IH]; intros s Hwf [st Hst]; cbn [run fold_left]; [eauto|].
  apply IH; [apply wellFormed_step, Hwf|].
  destruct (step_together key s s o st Hwf Hwf eq_refl Hst Hst) as (_ & st' & H & _).
  eauto.
Qed.

(** X11. Keys are independent. In any reachable state, a [set] or a
    [delete] of one key changes nothing for any other key, now or later:
    whatever operations follow (on either key, [clear] and waiting
    included), the other key reads the same with and without it. *)
Theorem cache_keys_independent before o key other ops :
  writesOnly key o = true ->
  other <> key ->
  get other (run ops (step (run before empty) o)) = get other (run ops (run before empty)).
Proof.
  intros Ho Hne.
  pose proof (wellFormed_run before empty wellFormed_empty) as Hwf.
  destruct (status_exists other before empty wellFormed_empty) as [st Hst].
  { exists Gone. split; [apply lookup_empty | intros t []]. }
  assert (Hw : writes other o = false).
  { destruct o as [k v ttl|k|k|k| |ms]; cbn in Ho |- *; try discriminate;
      apply bool_decide_eq_true in Ho; subst k; apply bool_decide_eq_false; congruence. }
  destruct (step_status other st _ o Hwf Hw Hst) as [Hnow Hst'].
  assert (Hsame : now (step (run before empty) o) = now (run before empty)).
  { destruct o as [k v ttl|k|k|k| |ms]; cbn in Ho |- *; try discriminate.
    - apply set_fields.
    - apply delete_fields. }
  rewrite Hsame, (holds_now other st _ Hwf Hst) in Hst'.
  apply (run_together other ops _ _ st); auto using wellFormed_step.
Qed.

Lemma cache_keys_independent_witness :
  get (js "b")
    (run [OWait 30; OSet (js "a") VNull None; OWait 30]
       (step (run [OSet (js "b") (VBool true) (Some 50%Z)] empty)
             (OSet (js "a") (VBool false) (Some 10%Z))))
  = get (js "b")
      (run [OWait 30; OSet (js "a") VNull None; OWait 30]
         (run [OSet (js "b") (VBool true) (Some 50%Z)] empty)).
Proof.
  apply (cache_keys_independent [OSet (js "b") (VBool true) (Some 50%Z)]
           (OSet (js "a") (VBool false) (Some 10%Z)) (js "a") (js "b")).
  - reflexivity.
  - discriminate.
Defined.

End CacheMore.

(** ** The enrichment service over time *)

Section EnrichmentCache.
Import WikipediaService EnrichmentSpec DescriptionSpec CacheSpec.

(** X12. A description found by a lookup is served from the cache for
    the next 24 hours: as long as nobody writes the key, a later call
    with the same key (the same city and country, or a pair that
    differs from it only in what [toLowerCase] levels) within that time
    returns the same description with no lookup and leaves the cache
    alone; from 24 hours on it looks its city up again. *)
Theorem getCityDescription_again lower city country city' country' network network'
  before ops :
  let c := MemoryCache.run before MemoryCache.empty in
  let r1 := exec (getCityDescription lower city country) network c [] in
  lookups r1 <> [] ->
  ToBoolean (result r1) = true ->
  cacheKeyOf lower city' country' = cacheKeyOf lower city country ->
  leaves (cacheKeyOf lower city country) ops = true ->
  let c2 := MemoryCache.run ops (finalCache r1) in
  let r2 := exec (getCityDescription lower city' country') network' c2 [] in
  ((Z.of_nat (MemoryCache.elapsed ops) < 86400000)%Z ->
     lookups r2 = [] /\ result r2 = result r1 /\ finalCache r2 = c2)
  /\ ((86400000 <= Z.of_nat (MemoryCache.elapsed ops))%Z ->
      exists more, lookups r2 = city' :: more).
Proof.
  cbn zeta. intros Hlooked Hfound Hkey Hleave.
  set (c := MemoryCache.run before MemoryCache.empty) in *.
  assert (Hwf : wellFormed c) by apply wellFormed_run, wellFormed_empty.
  assert (Hset : exists ms,
            finalCache (exec (getCityDescription lower city country) network c [])
            = MemoryCache.set (cacheKeyOf lower city country)
                (result (exec (getCityDescription lower city country) network c []))
                (Some 86400000%Z) (MemoryCache.wait ms c)).
  { destruct (MemoryCache.get (cacheKeyOf lower city country) c) as [v|] eqn:Hget.
    - destruct (ToBoolean v) eqn:Hv.
      + rewrite (getCityDescription_cache_hit _ _ _ _ _ _ Hget Hv) in Hlooked.
        exfalso. apply Hlooked. reflexivity.
      + rewrite exec_getCityDescription_miss in *
          by (intros v' Hv'; congruence).
        destruct (exec_trySearchTerms_effect (cacheKeyOf lower city country) network
                    (searchTermsOf city country) c [])
          as (n & ms & _ & _ & _ & _ & Hc).
        exists ms. rewrite Hc. unfold ttlOf. rewrite Hfound. reflexivity.
    - rewrite exec_getCityDescription_miss in *
        by (intros v' Hv'; congruence).
      destruct (exec_trySearchTerms_effect (cacheKeyOf lower city country) network
                  (searchTermsOf city country) c [])
        as (n & ms & _ & _ & _ & _ & Hc).
      exists ms. rewrite Hc. unfold ttlOf. rewrite Hfound. reflexivity. }
  destruct Hset as [ms Hset]. rewrite Hset.
  pose proof (get_run_set (cacheKeyOf lower city country)
                (result (exec (getCityDescription lower city country) network c []))
                (Some 86400000%Z) ops (MemoryCache.wait ms c)
                (wellFormed_wait ms c Hwf) Hleave) as Hget.
  assert (Hday : expires (Some 86400000%Z) = Some 86400000%Z) by reflexivity.
  rewrite Hday in Hget. clear Hday. rewrite <- Hkey in Hget at 1.
  split.
  - intros Hsoon. apply Z.ltb_lt in Hsoon. rewrite Hsoon in Hget.
    rewrite (getCityDescription_cache_hit _ _ _ _ _ _ Hget Hfound). auto.
  - intros Hlate. apply Z.ltb_ge in Hlate. rewrite Hlate in Hget.
    rewrite exec_getCityDescription_miss
      by (intros v' Hv'; congruence).
    apply (exec_trySearchTerms_first _ _ _ _ _ []).
Qed.

Lemma getCityDescription_again_witness :
  let r1 := exec (getCityDescription toLowerCase (js "Berlin") (js "Germany")) alwaysFound
              (MemoryCache.run [] MemoryCache.empty) [] in
  let c2 := MemoryCache.run [MemoryCache.OWait 1000] (finalCache r1) in
  lookups (exec (getCityDescription toLowerCase (js "BERLIN") (js "germany"))
             alwaysNotFound c2 []) = []
  /\ result (exec (getCityDescription toLowerCase (js "BERLIN") (js "germany"))
               alwaysNotFound c2 [])
     = VString (js "A city.").
Proof.
  cbn zeta.
  assert (H1 : lookups (exec (getCityDescription toLowerCase (js "Berlin") (js "Germany"))
                          alwaysFound (MemoryCache.run [] MemoryCache.empty) []) <> [])
    by (vm_compute; discriminate).
  destruct (getCityDescription_again toLowerCase (js "Berlin") (js "Germany")
              (js "BERLIN") (js "germany") alwaysFound alwaysNotFound
              [] [MemoryCache.OWait 1000] H1 eq_refl eq_refl eq_refl) as [Hsoon _].
  destruct Hsoon as (Hl & Hr & _); [vm_compute; reflexivity|].
  split; [exact Hl|]. rewrite Hr. vm_compute. reflexivity.
Defined.

End EnrichmentCache.

(** ** The request queue: every promise is settled *)

Section QueueMore.
Import WikipediaService QueueSpec DrainSpec.

Lemma accounted_init gap : accounted (init gap).
Proof.
  constructor; cbn; auto.
  exists []. auto.
Qed.

Lemma accounted_loopHead s :
  isProcessing s = true ->
  List.map rid (pushed s) = seq 0 (length (pushed s)) ->
  (exists taken, pushed s = taken ++ requestQueue s
                 /\ rev (List.map fst (settled s)) = List.map rid taken) ->
  accounted (loopHead [] s).
Proof.
  intros Hproc Hrids (taken & Hpushed & Hsettled).
  destruct s as [queue proc interval dr cl pu di se]; cbn in *. subst proc.
  unfold loopHead; cbn.
  destruct queue as [|r queue]; cbn.
  - constructor; cbn.
    + left. auto.
    + exact Hrids.
    + exists taken. unfold awaited; cbn. rewrite !app_nil_r. rewrite app_nil_r in Hpushed. auto.
  - destruct (encodable (title r)); constructor; cbn.
    + right. eauto.
    + exact Hrids.
    + exists (taken ++ [r]). rewrite <- app_assoc. split; [exact Hpushed|].
      unfold awaited; cbn. rewrite List.map_app, Hsettled. reflexivity.
    + right. eauto.
    + exact Hrids.
    + exists (taken ++ [r]). rewrite <- app_assoc. split; [exact Hpushed|].
      unfold awaited; cbn. rewrite List.map_app, Hsettled, app_nil_r. reflexivity.
Qed.

Lemma accounted_qstep s e s' : accounted s -> qstep s e = Some s' -> accounted s'.
Proof.
  intros [Hsingle Hrids (taken & Hpushed & Htaken)] Hstep.
  destruct e as [ttl|i r|i|ms]; cbn [qstep] in Hstep.
  - injection Hstep as <-. unfold fetchDescriptionByTitle, processQueue. cbn.
    assert (Hrids' : List.map rid (pushed s ++ [{| rid := length (pushed s); title := ttl |}])
                     = seq 0 (length (pushed s ++ [{| rid := length (pushed s); title := ttl |}]))).
    { rewrite List.map_app, length_app, Hrids. cbn. rewrite Nat.add_1_r, seq_S. reflexivity. }
    destruct Hsingle as [(Hproc & Hdr & Hq)|[Hproc (p & Hdr)]]; rewrite Hproc; cbn.
    + assert (Hne : match requestQueue s ++ [{| rid := length (pushed s); title := ttl |}]
                    with [] => true | _ => false end = false)
        by (destruct (requestQueue s); reflexivity).
      rewrite Hne, Hdr.
      apply accounted_loopHead; cbn; auto.
      exists taken. rewrite Hpushed at 1. rewrite <- app_assoc. split; [reflexivity|].
      unfold awaited in Htaken. rewrite Hdr, app_nil_r in Htaken. exact Htaken.
    + constructor; cbn; auto.
      * right. eauto.
      * exists taken. rewrite Hpushed at 1. rewrite <- app_assoc. split; [reflexivity|].
        exact Htaken.
  - destruct Hsingle as [(Hproc & Hdr & _)|[Hproc (p & Hdr)]]; rewrite Hdr in Hstep.
    { rewrite lookup_nil in Hstep. discriminate. }
    destruct i as [|i]; [|rewrite lookup_cons, lookup_nil in Hstep; discriminate].
    cbn in Hstep. destruct p as [req|wake]; [|discriminate].
    injection Hstep as <-. constructor; cbn; auto.
    + right. eauto.
    + exists taken. split; [exact Hpushed|].
      unfold awaited in *. rewrite Hdr in Htaken. cbn in *. rewrite app_nil_r. exact Htaken.
  - destruct Hsingle as [(Hproc & Hdr & _)|[Hproc (p & Hdr)]]; rewrite Hdr in Hstep.
    { rewrite lookup_nil in Hstep. discriminate. }
    destruct i as [|i]; [|rewrite lookup_cons, lookup_nil in Hstep; discriminate].
    cbn in Hstep. destruct p as [req|wake]; [discriminate|].
    destruct (wake <=? clock s)%Z; [|discriminate].
    injection Hstep as <-.
    apply accounted_loopHead; auto.
    exists taken. split; [exact Hpushed|].
    unfold awaited in Htaken. rewrite Hdr, app_nil_r in Htaken. exact Htaken.
  - injection Hstep as <-. constructor; cbn; auto.
    exists taken. auto.
Qed.

Lemma accounted_qrun : forall es s s',
  accounted s -> qrun s es = Some s' -> accounted s'.
Proof.
  induction es as [|e es IH]; intros s s' Hacc Hrun; cbn in Hrun.
  - injection Hrun as <-. exact Hacc.
  - destruct (qstep s e) as [s1|] eqn:Hstep; [|discriminate].
    apply (IH s1 s'); [|exact Hrun]. apply (accounted_qstep s e s1 Hacc Hstep).
Qed.

Lemma seq_prefix (a b : list nat) n : a ++ b = seq 0 n -> a = seq 0 (length a).
Proof.
  intros H. assert (Hf : firstn (length a) (a ++ b) = a) by apply take_app_length.
  rewrite H in Hf. rewrite <- Hf at 1.
  assert (Hlen : (length a <= n)%nat).
  { apply (f_equal (@length nat)) in H. rewrite length_app, length_seq in H. lia. }
  clear -Hlen. revert n Hlen. generalize 0%nat as start.
  induction (length a) as [|k IH]; intros start n Hlen; [reflexivity|].
  destruct n as [|n]; [lia|]. cbn. f_equal. apply IH. lia.
Qed.

(** X13. Whatever is pushed and whenever replies and timers arrive, the
    promises are settled one by one in the order of the pushes, none of
    them twice; and whenever no loop is running the queue is empty and
    every request pushed so far has been settled. *)
Theorem queue_settles_in_order gap events s :
  qrun (init gap) events = Some s ->
  NoDup (List.map fst (settled s))
  /\ (exists n, (n <= length (pushed s))%nat
                /\ rev (List.map fst (settled s)) = seq 0 n)
  /\ (isProcessing s = false ->
      requestQueue s = []
      /\ rev (List.map fst (settled s)) = seq 0 (length (pushed s))).
Proof.
  intros Hrun.
  destruct (accounted_qrun events (init gap) s (accounted_init gap) Hrun)
    as [Hsingle Hrids (taken & Hpushed & Htaken)].
  assert (Hprefix : List.map rid taken = seq 0 (length taken)).
  { rewrite Hpushed, List.map_app in Hrids.
    apply seq_prefix in Hrids. rewrite length_map in Hrids. exact Hrids. }
  assert (Hsettled : rev (List.map fst (settled s))
                     = seq 0 (length (rev (List.map fst (settled s))))).
  { rewrite Hprefix in Htaken. apply seq_prefix in Htaken. exact Htaken. }
  assert (Hlen : (length (rev (List.map fst (settled s))) <= length (pushed s))%nat).
  { apply (f_equal (@length nat)) in Htaken.
    rewrite length_app, length_map in Htaken.
    rewrite Hpushed, length_app. lia. }
  split; [|split].
  - rewrite <- (reverse_Permutation (List.map fst (settled s))).
    unfold reverse. rewrite <- rev_alt, Hsettled. apply NoDup_seq.
  - eexists. split; [exact Hlen | exact Hsettled].
  - intros Hidle. destruct Hsingle as [(_ & Hdr & Hq)|[Hproc _]]; [|congruence].
    split; [exact Hq|].
    unfold awaited in Htaken. rewrite Hdr, app_nil_r in Htaken.
    rewrite Hq, app_nil_r in Hpushed. subst taken.
    rewrite Htaken. exact Hrids.
Qed.

Lemma queue_settles_in_order_witness :
  match qrun (init 100) sampleEvents with
  | Some s => NoDup (List.map fst (settled s))
  | None => False
  end.
Proof.
  destruct (qrun (init 100) sampleEvents) as [s|] eqn:Hrun.
  - exact (proj1 (queue_settles_in_order 100 sampleEvents s Hrun)).
  - vm_compute in Hrun. discriminate Hrun.
Defined.

Lemma qrun_app : forall es1 es2 s s1,
  qrun s es1 = Some s1 -> qrun s (es1 ++ es2) = qrun s1 es2.
Proof.
  induction es1 as [|e es1 IH]; intros es2 s s1 H; cbn in *.
  - injection H as <-. reflexivity.
  - destruct (qstep s e) as [s'|]; [|discriminate]. apply IH, H.
Qed.

(** A suspended loop can always finish: its GETs answered and its
    delays waited for, it ends idle, with nothing new pushed. *)
Lemma resume_get answer s r :
  drains s = [AwaitGet r] ->
  qrun s (resume answer s)
  = Some {| requestQueue := requestQueue s; isProcessing := isProcessing s;
            minRequestInterval := minRequestInterval s;
            drains := [AwaitDelay (clock s + MemoryCache.timerDelay (minRequestInterval s))];
            clock := clock s; pushed := pushed s; dispatched := dispatched s;
            settled := (rid r, settle (answer r)) :: settled s |}.
Proof.
  intros Hdr. unfold resume. rewrite Hdr. cbn [qrun qstep]. rewrite Hdr. reflexivity.
Qed.

Lemma resume_delay answer s wake :
  drains s = [AwaitDelay wake] ->
  qrun s (resume answer s)
  = Some (loopHead []
            {| requestQueue := requestQueue s; isProcessing := isProcessing s;
               minRequestInterval := minRequestInterval s;
               drains := drains s;
               clock := (clock s + Z.of_nat (Z.to_nat (wake - clock s)))%Z;
               pushed := pushed s; dispatched := dispatched s;
               settled := settled s |}).
Proof.
  intros Hdr. unfold resume. rewrite Hdr. cbn [qrun qstep drains clock]. rewrite Hdr.
  cbn [lookup list_lookup].
  destruct (Z.leb_spec wake (clock s + Z.of_nat (Z.to_nat (wake - clock s)))); [|lia].
  reflexivity.
Qed.

Lemma drainEvents_S answer fuel s p rest :
  drains s = p :: rest ->
  drainEvents answer (S fuel) s
  = resume answer s
    ++ match qrun s (resume answer s) with
       | Some s' => drainEvents answer fuel s'
       | None => []
       end.
Proof.
  intros Hdr. cbn [drainEvents]. destruct (drains s); [discriminate | reflexivity].
Qed.

Lemma drain_finishes answer : forall fuel s p,
  isProcessing s = true -> drains s = [p] ->
  (2 * length (requestQueue s) + match p with AwaitGet _ => 2 | AwaitDelay _ => 1 end
   <= fuel)%nat ->
  exists s',
    qrun s (drainEvents answer fuel s) = Some s'
    /\ idle s' /\ pushed s' = pushed s.
Proof.
  induction fuel as [|fuel IH]; intros s p Hproc Hdr Hfuel.
  - destruct p; cbn in Hfuel; lia.
  - rewrite (drainEvents_S answer fuel s p [] Hdr).
    destruct p as [r|wake].
    + pose proof (resume_get answer s r Hdr) as Hres. rewrite Hres.
      rewrite (qrun_app _ _ _ _ Hres).
      match goal with
      | |- context [drainEvents answer fuel ?s1] =>
          destruct (IH s1 (AwaitDelay (clock s + MemoryCache.timerDelay (minRequestInterval s))))
            as (s' & Hrun & Hidle & Hpushed)
      end; [exact Hproc | reflexivity | cbn in *; lia|].
      exists s'. auto.
    + pose proof (resume_delay answer s wake Hdr) as Hres. rewrite Hres.
      rewrite (qrun_app _ _ _ _ Hres).
      unfold loopHead. cbn [requestQueue].
      destruct (requestQueue s) as [|r queue] eqn:Hq.
      * destruct fuel; cbn [drainEvents drains qrun];
          (eexists; split; [reflexivity|]; split; [repeat split|reflexivity]).
      * destruct (encodable (title r)).
        -- match goal with
           | |- context [drainEvents answer fuel ?s2] =>
               destruct (IH s2 (AwaitGet r)) as (s' & Hrun & Hidle & Hpushed)
           end; [exact Hproc | reflexivity | cbn in *; lia|].
           exists s'. auto.
        -- match goal with
           | |- context [drainEvents answer fuel ?s2] =>
               destruct (IH s2 (AwaitDelay
                 (clock s + Z.of_nat (Z.to_nat (wake - clock s))
                  + MemoryCache.timerDelay (minRequestInterval s))))
                 as (s' & Hrun & Hidle & Hpushed)
           end; [exact Hproc | reflexivity | cbn in *; lia|].
           exists s'. auto.
Qed.

(** X14. The queue cannot get stuck: from any state it reaches, and
    however the outstanding GETs are answered, answering them and
    letting the delays pass brings it to rest, with no loop running, an
    empty queue, nothing new pushed, and every request pushed so far
    settled, in the order of the pushes. *)
Theorem queue_can_drain gap events s (answer : request -> reply) :
  qrun (init gap) events = Some s ->
  exists fuel s',
    qrun s (drainEvents answer fuel s) = Some s'
    /\ idle s'
    /\ pushed s' = pushed s
    /\ rev (List.map fst (settled s')) = seq 0 (length (pushed s)).
Proof.
  intros Hrun.
  pose proof (accounted_qrun events (init gap) s (accounted_init gap) Hrun) as Hacc.
  assert (Hdrain : exists fuel s',
            qrun s (drainEvents answer fuel s) = Some s' /\ idle s' /\ pushed s' = pushed s).
  { destruct Hacc as [[(Hproc & Hdr & Hq)|[Hproc (p & Hdr)]] _ _].
    - exists 0%nat, s. cbn. split; [reflexivity|]. split; [repeat split; assumption | reflexivity].
    - destruct (drain_finishes answer _ s p Hproc Hdr (le_n _)) as (s' & H).
      eexists. exists s'. exact H. }
  destruct Hdrain as (fuel & s' & Hmore & Hidle & Hpushed).
  exists fuel, s'. split; [exact Hmore|]. split; [exact Hidle|]. split; [exact Hpushed|].
  assert (Hall : qrun (init gap) (events ++ drainEvents answer fuel s) = Some s').
  { rewrite (qrun_app events _ _ s Hrun). exact Hmore. }
  destruct (accounted_qrun _ _ _ (accounted_init gap) Hall)
    as [_ Hrids (taken & Htaken & Hsettled)].
  destruct Hidle as (_ & Hdr & Hq).
  unfold awaited in Hsettled. rewrite Hdr, app_nil_r in Hsettled.
  rewrite Hq, app_nil_r in Htaken. subst taken.
  rewrite Hsettled, Hrids, Hpushed. reflexivity.
Qed.

Lemma queue_can_drain_witness :
  exists fuel s',
    qrun (init 100)
      ([EFetch (js "Berlin"); EFetch (js "Paris")]
       ++ drainEvents (fun _ => StatusError 404) fuel
            (fetchDescriptionByTitle (js "Paris")
               (fetchDescriptionByTitle (js "Berlin") (init 100))))
    = Some s'
    /\ idle s'
    /\ rev (List.map fst (settled s')) = [0; 1]%nat.
Proof.
  assert (Hrun : qrun (init 100) [EFetch (js "Berlin"); EFetch (js "Paris")]
                 = Some (fetchDescriptionByTitle (js "Paris")
                           (fetchDescriptionByTitle (js "Berlin") (init 100))))
    by reflexivity.
  destruct (queue_can_drain 100 _ _ (fun _ => StatusError 404) Hrun)
    as (fuel & s' & Hmore & Hidle & Hpushed & Hsettled).
  exists fuel, s'. split; [rewrite (qrun_app _ _ _ _ Hrun); exact Hmore|].
  split; [exact Hidle|]. rewrite Hsettled. reflexivity.
Defined.

End QueueMore.

(** ** The query parameters *)

Section Pagination.
Import Validation RequestSpec.

Example parseInt_examples :
  parseInt (VString (js "  -42abc")) 10 = Normal (Fin (-42))
  /\ parseInt (VString (js "0x1F")) 0 = Normal (Fin 31)
  /\ parseInt (VString (js "0x1F")) 10 = Normal (Fin 0)
  /\ parseInt (VString (js "1e3")) 0 = Normal (Fin 1)
  /\ parseInt (VString (js "")) 10 = Normal NaN
  /\ parseInt (VString (js "12")) 37 = Normal NaN
  /\ parseInt (VString (js "z")) 36 = Normal (Fin 35)
  /\ parseInt (VArray [VString (js "5"); VString (js "6")]) 0 = Normal (Fin 5)
  /\ parseInt VUndefined 0 = Normal NaN
  /\ parseInt (VString (js "9007199254740993")) 10 = Normal (Fin 9007199254740992)
  /\ parseInt (VObject [(js "toString", VString (js "7"))]) 10 = Throw notPrimitive.
Proof. repeat split; vm_compute; reflexivity. Qed.

Lemma binade_one m : (0 < m)%Z -> binade m 1 = Z.log2 m.
Proof.
  intros Hm. unfold binade. change (Z.log2 1) with 0%Z. rewrite Z.sub_0_r.
  pose proof (Z.log2_nonneg m) as Hk.
  destruct (Z.leb_spec 0 (Z.log2 m)); [|lia].
  pose proof (Z.log2_spec m Hm) as [Hlo _].
  destruct (Z.leb_spec (1 * 2 ^ Z.log2 m) m); [reflexivity | lia].
Qed.

Lemma roundHalfEven_one n : roundHalfEven n 1 = n.
Proof.
  unfold roundHalfEven. rewrite Z.mod_1_r, Z.div_1_r. reflexivity.
Qed.

Lemma roundHalfEven_ge n d : (0 < d)%Z -> (n / d <= roundHalfEven n d)%Z.
Proof.
  intros Hd. unfold roundHalfEven.
  destruct (2 * (n mod d) ?= d)%Z; [destruct (Z.even (n / d))| |]; lia.
Qed.

(** An integer below [2^53] is a binary64 value. *)
Lemma roundToDouble_exact m :
  (0 < m < 2 ^ 53)%Z -> roundToDouble m 1 = Fin (inject_Z m).
Proof.
  intros [Hpos Hlt]. unfold roundToDouble. rewrite (binade_one m Hpos).
  assert (Hk : (0 <= Z.log2 m <= 52)%Z).
  { split; [apply Z.log2_nonneg|].
    assert (Z.log2 m < 53)%Z; [|lia]. apply Z.log2_lt_pow2; lia. }
  rewrite Z.max_l by lia.
  destruct (Z.leb_spec 0 (Z.log2 m - 52)) as [He|He].
  - assert (Z.log2 m - 52 = 0)%Z as -> by lia.
    cbn [Z.ltb Z.eqb Z.compare orb andb]. change (2 ^ 0)%Z with 1%Z.
    rewrite Z.mul_1_r, roundHalfEven_one.
    destruct (Z.leb_spec (2 ^ 53) m); [lia|]. cbn.
    unfold dyadic. cbn. rewrite Z.mul_1_r. reflexivity.
  - rewrite roundHalfEven_one.
    destruct (Z.ltb_spec 971 (Z.log2 m - 52)); [lia|].
    destruct (Z.eqb_spec (Z.log2 m - 52) 971); [lia|]. cbn [orb andb].
    unfold dyadic. destruct (Z.leb_spec 0 (Z.log2 m - 52)); [lia|].
    f_equal.
    assert (Hp : (0 < 2 ^ (- (Z.log2 m - 52)))%Z) by (apply Z.pow_pos_nonneg; lia).
    rewrite <- (inject_Z_Qred m).
    apply Qred_complete. unfold Qeq, inject_Z. cbn [Qnum Qden].
    rewrite Z2Pos.id by exact Hp. lia.
Qed.

(** From [2^53] on the rounded value is at least [2^53]. *)
Lemma roundToDouble_large m :
  (2 ^ 53 <= m)%Z ->
  roundToDouble m 1 = Inf false
  \/ exists z, roundToDouble m 1 = Fin (inject_Z z) /\ (2 ^ 53 <= z)%Z.
Proof.
  intros Hm. unfold roundToDouble.
  assert (Hpos : (0 < m)%Z) by lia.
  rewrite (binade_one m Hpos).
  assert (Hk : (53 <= Z.log2 m)%Z) by (apply Z.log2_le_pow2; lia).
  rewrite Z.max_l by lia.
  destruct (Z.leb_spec 0 (Z.log2 m - 52)); [|lia].
  rewrite Z.mul_1_l.
  match goal with |- (if ?c then _ else _) = _ \/ _ => destruct c end; [left; reflexivity|].
  right. unfold dyadic. destruct (Z.leb_spec 0 (Z.log2 m - 52)); [|lia].
  eexists. split; [reflexivity|].
  set (e := (Z.log2 m - 52)%Z) in *.
  assert (He : (0 < 2 ^ e)%Z) by (apply Z.pow_pos_nonneg; lia).
  pose proof (roundHalfEven_ge m (2 ^ e) He) as Hge.
  assert (Hlo : (2 ^ 52 <= m / 2 ^ e)%Z).
  { apply Z.div_le_lower_bound; [exact He|].
    rewrite Z.mul_comm, <- Z.pow_add_r by lia.
    replace (52 + e)%Z with (Z.log2 m) by (unfold e; lia).
    apply Z.log2_spec, Hpos. }
  assert (H2 : (2 <= 2 ^ e)%Z).
  { change 2%Z with (2 ^ 1)%Z at 1. apply Z.pow_le_mono_r; lia. }
  change (2 ^ 53)%Z with (2 ^ 52 * 2)%Z. nia.
Qed.

Lemma lt_ofZ a b : lt (ofZ a) (ofZ b) = (a <? b)%Z.
Proof.
  unfold lt, ofZ, Qltb, Qle_bool, inject_Z. cbn [Qnum Qden].
  rewrite !Z.mul_1_r. rewrite Z.ltb_antisym. reflexivity.
Qed.

Lemma fold_digits_nonneg R : forall ds acc,
  (0 <= R)%Z -> (0 <= acc)%Z -> Forall (fun d => 0 <= d)%Z ds ->
  (0 <= fold_left (fun acc d => (R * acc + d)%Z) ds acc)%Z.
Proof.
  induction ds as [|d ds IH]; intros acc HR Hacc Hds; cbn; [exact Hacc|].
  inversion Hds; subst. apply IH; [exact HR | nia | assumption].
Qed.

Lemma digitOf_nonneg R c v : digitOf R c = Some v -> (0 <= v)%Z.
Proof.
  unfold digitOf, isDigit, isLower, isUpper.
  destruct (N.leb_spec 48 c), (N.leb_spec c 57); cbn [andb];
    try (destruct (Z.ltb_spec (Z.of_N c - 48) R); intros [= <-]; lia);
    destruct (N.leb_spec 97 c), (N.leb_spec c 122); cbn [andb];
    try (destruct (Z.ltb_spec (Z.of_N c - 87) R); intros [= <-]; lia);
    destruct (N.leb_spec 65 c), (N.leb_spec c 90); cbn [andb];
    try (destruct (Z.ltb_spec (Z.of_N c - 55) R); intros [= <-]; lia);
    rewrite Z.ltb_irrefl; discriminate.
Qed.

Lemma takeRadixDigits_nonneg R : forall s, Forall (fun d => 0 <= d)%Z (takeRadixDigits R s).
Proof.
  induction s as [|c s IH]; cbn; [constructor|].
  destruct (digitOf R c) as [v|] eqn:Hd; constructor; [|exact IH].
  apply (digitOf_nonneg R c v Hd).
Qed.

(** What the two checks of the middleware leave of a non-negative
    integer read from the string. *)
Lemma ofDecimal_between m top :
  (0 <= m)%Z -> (0 < top < 2 ^ 53)%Z ->
  lt (ofDecimal m 0) (ofZ 1) = false ->
  gt (ofDecimal m 0) (ofZ top) = false ->
  (1 <= m <= top)%Z /\ ofDecimal m 0 = ofZ m.
Proof.
  intros Hm Htop Hlo Hhi. unfold ofDecimal in *.
  destruct (Z.eqb_spec m 0) as [->|Hne]; [discriminate Hlo|].
  cbn [Z.leb Z.compare] in *. change (10 ^ 0)%Z with 1%Z in *. rewrite Z.mul_1_r in *.
  destruct (Z.lt_ge_cases m (2 ^ 53)) as [Hsmall|Hbig].
  - rewrite (roundToDouble_exact m) in * by lia.
    change (Fin (inject_Z m)) with (ofZ m) in *.
    unfold gt in Hhi. rewrite lt_ofZ in Hlo, Hhi.
    split; [lia | reflexivity].
  - destruct (roundToDouble_large m Hbig) as [Hinf|(z & Hz & Hge)].
    + rewrite Hinf in Hhi. discriminate Hhi.
    + rewrite Hz in Hhi. change (Fin (inject_Z z)) with (ofZ z) in Hhi.
      unfold gt in Hhi. rewrite lt_ofZ in Hhi. lia.
Qed.

Lemma negate_ofDecimal_small m :
  (0 <= m)%Z -> lt (negate (ofDecimal m 0)) (ofZ 1) = true.
Proof.
  intros Hm. unfold ofDecimal.
  destruct (Z.eqb_spec m 0) as [->|Hne]; [reflexivity|].
  cbn [Z.leb Z.compare]. change (10 ^ 0)%Z with 1%Z. rewrite Z.mul_1_r.
  destruct (Z.lt_ge_cases m (2 ^ 53)) as [Hsmall|Hbig].
  - rewrite (roundToDouble_exact m) by lia. cbn [negate].
    unfold lt, ofZ, Qltb. rewrite Bool.negb_true_iff.
    destruct (Qle_bool (inject_Z 1) (Qred (- inject_Z m))) eqn:Hle; [|reflexivity].
    apply Qle_bool_iff in Hle. rewrite Qred_correct in Hle.
    unfold Qle, inject_Z in Hle. cbn in Hle. lia.
  - destruct (roundToDouble_large m Hbig) as [->|(z & -> & Hge)]; [reflexivity|].
    cbn [negate]. unfold lt, ofZ, Qltb. rewrite Bool.negb_true_iff.
    destruct (Qle_bool (inject_Z 1) (Qred (- inject_Z z))) eqn:Hle; [|reflexivity].
    apply Qle_bool_iff in Hle. rewrite Qred_correct in Hle.
    unfold Qle, inject_Z in Hle. cbn in Hle. lia.
Qed.

Lemma radixInteger_nonneg s :
  radixInteger 10 s = NaN
  \/ exists m, (0 <= m)%Z /\ radixInteger 10 s = ofDecimal m 0.
Proof.
  unfold radixInteger.
  destruct (takeRadixDigits 10 s) as [|d ds] eqn:Hds; [left; reflexivity|].
  right. eexists. split; [|reflexivity].
  apply fold_digits_nonneg; [lia | lia |]. rewrite <- Hds. apply takeRadixDigits_nonneg.
Qed.

(** Without a radix the digits are read in radix 10 as well, unless the
    string starts with [0x] or [0X], and then radix 10 reads [0]. *)
Lemma takePrefix_decimal s :
  takePrefix true 10 s = (10%Z, s) \/ radixInteger 10 s = Fin 0.
Proof.
  destruct s as [|c0 [|c1 r]]; [left; reflexivity | left; reflexivity|].
  unfold takePrefix. cbn [andb].
  destruct (N.eqb_spec c0 48) as [->|H0]; [|left; reflexivity]. cbn [andb].
  destruct (N.eqb_spec c1 120) as [->|H1]; [right; reflexivity|].
  destruct (N.eqb_spec c1 88) as [->|H2]; [right; reflexivity|].
  left. reflexivity.
Qed.

Lemma takePrefix_off R s : takePrefix false R s = (R, s).
Proof.
  destruct s as [|c0 [|c1 r]]; reflexivity.
Qed.

(** A parameter that passes the checks of the middleware is read by
    [parseInt] without a radix as the same integer. *)
Lemma parseInt_checked v top x :
  (0 < top < 2 ^ 53)%Z ->
  parseInt v 10 = Normal x ->
  numIsNaN x || lt x (ofZ 1) = false ->
  gt x (ofZ top) = false ->
  exists n, (1 <= n <= top)%Z /\ x = ofZ n /\ parseInt v 0 = Normal (ofZ n).
Proof.
  intros Htop Hparse Hlo Hhi. apply Bool.orb_false_iff in Hlo as [Hnan Hlo].
  unfold parseInt in *.
  destruct (ToString v) as [inputString|message]; [|discriminate Hparse].
  cbn [bind] in *.
  destruct (takeSign (trimStart inputString)) as [negative S1].
  change (negb (10 =? 0)%Z && ((10 <? 2)%Z || (36 <? 10)%Z)) with false in *.
  change (negb (0 =? 0)%Z && ((0 <? 2)%Z || (36 <? 0)%Z)) with false.
  change ((10 =? 0)%Z || (10 =? 16)%Z) with false in *.
  change ((0 =? 0)%Z || (0 =? 16)%Z) with true.
  change (if (10 =? 0)%Z then 10%Z else 10%Z) with 10%Z in *.
  change (if (0 =? 0)%Z then 10%Z else 0%Z) with 10%Z.
  rewrite (takePrefix_off 10 S1) in Hparse. cbv beta iota zeta in Hparse.
  injection Hparse as <-.
  assert (Hread : exists n, (1 <= n <= top)%Z
            /\ negative = false /\ radixInteger 10 S1 = ofZ n).
  { destruct (radixInteger_nonneg S1) as [Hn|(m & Hm & Hn)]; rewrite Hn in *.
    - destruct negative; discriminate Hnan.
    - destruct negative.
      + rewrite (negate_ofDecimal_small m Hm) in Hlo. discriminate Hlo.
      + destruct (ofDecimal_between m top Hm Htop Hlo Hhi) as [Hrange Heq].
        exists m. auto. }
  destruct Hread as (n & Hn & -> & Hread).
  exists n. split; [exact Hn|]. split; [exact Hread|].
  destruct (takePrefix_decimal S1) as [->|Hzero]; [rewrite Hread; reflexivity|].
  rewrite Hzero in Hread. unfold ofZ, inject_Z in Hread. injection Hread as Hz. lia.
Qed.

Lemma orDefault_positive n d : (1 <= n)%Z -> orDefault (ofZ n) d = ofZ n.
Proof.
  intros Hn. unfold orDefault, ofZ, ToBoolean.
  destruct (Qeq_bool (inject_Z n) 0) eqn:Hz; [|reflexivity].
  apply Qeq_bool_iff in Hz. unfold Qeq, inject_Z in Hz. cbn in Hz. lia.
Qed.

Lemma bind_Normal {A B : Type} (c : completion A) (k : A -> completion B) y :
  bind c k = Normal y -> exists x, c = Normal x /\ k x = Normal y.
Proof. destruct c as [x|message]; cbn [bind]; [eauto | discriminate]. Qed.

(** One parameter of the two: what the middleware lets through, and
    what the controller reads then. *)
Lemma parameter_checked given top (d : Z) (A : Type) (bad1 bad2 ok : completion A) :
  (0 < top < 2 ^ 53)%Z -> (1 <= d <= top)%Z ->
  ok <> bad1 -> ok <> bad2 ->
  (forall message, ok <> Throw message) ->
  match given with
  | VUndefined => ok
  | _ =>
      let* num := parseInt given 10 in
      let* invalid := orElse (isNaN (VNumber num)) (Normal (lt num (ofZ 1))) in
      if invalid then bad1 else if gt num (ofZ top) then bad2 else ok
  end = ok ->
  exists n, (1 <= n <= top)%Z
    /\ (let* x := parseInt given 0 in Normal (orDefault x d)) = Normal (ofZ n)
    /\ match given with
       | VUndefined => n = d
       | _ => parseInt given 10 = Normal (ofZ n)
       end.
Proof.
  intros Htop Hd Hbad1 Hbad2 Hthrow Hok.
  assert (Hgiven : forall g, g = given ->
            (let* num := parseInt g 10 in
             let* invalid := orElse (isNaN (VNumber num)) (Normal (lt num (ofZ 1))) in
             if invalid then bad1 else if gt num (ofZ top) then bad2 else ok) = ok ->
            exists n, (1 <= n <= top)%Z
              /\ (let* x := parseInt g 0 in Normal (orDefault x d)) = Normal (ofZ n)
              /\ parseInt g 10 = Normal (ofZ n)).
  { intros g _ Hg.
    destruct (parseInt g 10) as [num|message] eqn:Hparse;
      [|exfalso; exact (Hthrow message (eq_sym Hg))].
    cbn [bind] in Hg. unfold orElse, isNaN in Hg. cbn [ToNumber bind] in Hg.
    destruct (numIsNaN num) eqn:Hnan; cbn [bind] in Hg; [congruence|].
    destruct (lt num (ofZ 1)) eqn:Hlo; [congruence|].
    destruct (gt num (ofZ top)) eqn:Hhi; [congruence|].
    destruct (parseInt_checked g top num Htop Hparse) as (n & Hn & -> & H0);
      [rewrite Hnan, Hlo; reflexivity | exact Hhi |].
    exists n. split; [exact Hn|]. rewrite H0. cbn [bind].
    rewrite orDefault_positive by lia. auto. }
  destruct given; try (apply (Hgiven _ eq_refl Hok)).
  exists d. split; [exact Hd|]. split; [|reflexivity].
  vm_compute. destruct d; reflexivity.
Qed.

(** X15. When the middleware lets a request through, the page and the
    limit the controller computes are whole numbers, the page from 1
    to 1000 and the limit from 1 to 100: 1 and 10 for a parameter that
    is absent, and otherwise the number the middleware checked, although
    the controller calls [parseInt] without the radix. *)
Theorem validated_page_and_limit query :
  validatePaginationParams query = Normal Next ->
  exists p l : Z,
    pageOf query = Normal (ofZ p) /\ limitOf query = Normal (ofZ l)
    /\ (1 <= p <= 1000)%Z /\ (1 <= l <= 100)%Z
    /\ match lookupProp (js "page") query with
       | VUndefined => p = 1%Z
       | given => parseInt given 10 = Normal (ofZ p)
       end
    /\ match lookupProp (js "limit") query with
       | VUndefined => l = 10%Z
       | given => parseInt given 10 = Normal (ofZ l)
       end.
Proof.
  unfold validatePaginationParams, pageOf, limitOf. intros Hnext.
  apply bind_Normal in Hnext as (pageError & Hpage & Hnext).
  destruct pageError as [answer|].
  { injection Hnext as ->. exfalso.
    destruct (lookupProp (js "page") query); try discriminate Hpage;
      (destruct (parseInt _ 10) as [num|m]; [|discriminate Hpage]; cbn [bind] in Hpage;
       unfold orElse, isNaN in Hpage; cbn [ToNumber bind] in Hpage;
       destruct (numIsNaN num); cbn [bind] in Hpage; [discriminate Hpage|];
       destruct (lt num (ofZ 1)); [discriminate Hpage|];
       destruct (gt num (ofZ 1000)); discriminate Hpage). }
  destruct (parameter_checked (lookupProp (js "page") query) 1000 1 _
              (Normal (Some (Status400 (js "Invalid page parameter")
                                       (js "Page must be a positive integer"))))
              (Normal (Some (Status400 (js "Invalid page parameter")
                                       (js "Page number too large (max: 1000)"))))
              (Normal None)
              ltac:(lia) ltac:(lia) ltac:(discriminate) ltac:(discriminate)
              ltac:(discriminate) Hpage) as (p & Hp & Hpage0 & Hpage10).
  destruct (parameter_checked (lookupProp (js "limit") query) 100 10 _
              (Normal (Status400 (js "Invalid limit parameter")
                                 (js "Limit must be a positive integer")))
              (Normal (Status400 (js "Invalid limit parameter")
                                 (js "Limit too large (max: 100)")))
              (Normal Next)
              ltac:(lia) ltac:(lia) ltac:(discriminate) ltac:(discriminate)
              ltac:(discriminate) Hnext) as (l & Hl & Hlimit0 & Hlimit10).
  exists p, l.
  split; [exact Hpage0|]. split; [exact Hlimit0|].
  split; [exact Hp|]. split; [exact Hl|]. split.
  - destruct (lookupProp (js "page") query); exact Hpage10.
  - destruct (lookupProp (js "limit") query); exact Hlimit10.
Qed.

Lemma validated_page_and_limit_witness :
  validatePaginationParams (queryOf " 7th" "+25.9") = Normal Next
  /\ exists p l : Z,
       pageOf (queryOf " 7th" "+25.9") = Normal (ofZ p)
       /\ limitOf (queryOf " 7th" "+25.9") = Normal (ofZ l)
       /\ (1 <= p <= 1000)%Z /\ (1 <= l <= 100)%Z.
Proof.
  split; [reflexivity|].
  destruct (validated_page_and_limit (queryOf " 7th" "+25.9") eq_refl)
    as (p & l & Hp & Hl & Hpr & Hlr & _).
  exists p, l. auto.
Defined.

End Pagination.

(** ** The pollution service *)

Section Pollution.
Import PollutionService RequestSpec.

Lemma checked_shape reply d :
  checked reply = Normal d ->
  exists props results,
    d = VObject props /\ lookupProp (js "results") props = VArray results.
Proof.
  unfold checked. destruct reply as [data|message]; [|discriminate].
  destruct (negb (ToBoolean data) || negb (isArray (getProp (js "results") data))) eqn:Hcheck;
    [discriminate|].
  intros [= <-]. apply Bool.orb_false_iff in Hcheck as [_ Harr].
  apply Bool.negb_false_iff in Harr.
  destruct data as [| | | | |elems|props]; try discriminate Harr.
  cbn [getProp] in Harr.
  destruct (lookupProp (js "results") props) as [| | | | |results|] eqn:Hres;
    try discriminate Harr.
  exists props, results. auto.
Qed.

Lemma getPollution_shape up token page limit country d :
  fst (getPollution up token page limit country) = Normal d ->
  exists props results,
    d = VObject props /\ lookupProp (js "results") props = VArray results.
Proof.
  unfold getPollution. destruct (bearer token) as [header|message]; cbn [fst];
    [apply checked_shape | discriminate].
Qed.

Lemma fetchPollutionData_outcome up token page limit country :
  outcome (fetchPollutionData up token page limit country)
  = (if negb (ToBoolean token) then
       match snd (authenticate (login up) token) with
       | Throw message => Throw message
       | Normal _ =>
           fst (getPollution up (fst (authenticate (login up) token)) page limit
                  (match country with VUndefined => VNull | _ => country end))
       end
     else fst (getPollution up token page limit
                 (match country with VUndefined => VNull | _ => country end))).
Proof.
  unfold fetchPollutionData.
  destruct (negb (ToBoolean token)).
  - destruct (authenticate (login up) token) as [token' [[]|message]]; cbn [fst snd];
      [|reflexivity].
    destruct (getPollution up token' page limit _); reflexivity.
  - destruct (getPollution up token page limit _); reflexivity.
Qed.

(** X16. Whatever the pollution source answers, what
    [fetchPollutionData] returns is never an array: it is the body of
    the response, an object whose [results] is the array. The
    controller hands it to [filterValidCities] as it is, which for
    anything but an array returns the empty list: no city of the source
    reaches the answer. *)
Theorem fetchPollutionData_never_array up token page limit country d :
  outcome (fetchPollutionData up token page limit country) = Normal d ->
  (exists props results,
     d = VObject props /\ lookupProp (js "results") props = VArray results)
  /\ isArray d = false
  /\ DataValidator.filterValidCities d = Normal [].
Proof.
  rewrite fetchPollutionData_outcome. intros Hout.
  assert (Hshape : exists props results,
            d = VObject props /\ lookupProp (js "results") props = VArray results).
  { destruct (negb (ToBoolean token)).
    - destruct (snd (authenticate (login up) token)) as [ended|message];
        [|discriminate Hout].
      apply (getPollution_shape _ _ _ _ _ _ Hout).
    - apply (getPollution_shape _ _ _ _ _ _ Hout). }
  split; [exact Hshape|].
  destruct Hshape as (props & results & -> & _). split; reflexivity.
Qed.

Lemma fetchPollutionData_never_array_witness :
  outcome (fetchPollutionData (steady sampleBody) noToken
             (VNumber (ofZ 1)) (VNumber (ofZ 10)) VUndefined) = Normal sampleBody
  /\ DataValidator.filterValidCities sampleBody = Normal []
  /\ exists cities,
       DataValidator.filterValidCities (getProp (js "results") sampleBody) = Normal cities
       /\ length cities = 1%nat.
Proof.
  split; [reflexivity|]. split.
  - exact (proj2 (proj2 (fetchPollutionData_never_array (steady sampleBody) noToken
                           (VNumber (ofZ 1)) (VNumber (ofZ 10)) VUndefined sampleBody
                           eq_refl))).
  - eexists. split; [vm_compute; reflexivity | reflexivity].
Defined.

(** Two calls that start without a token both log in, and the login
    that settles last replaces the token of the first: the first call,
    resumed afterwards, sends its GET with the second token. *)
Example logins_overlap :
  match run init [Called; Called;
                  LoginSettles 0 (Response (grants "first"));
                  LoginSettles 1 (Response (grants "second"));
                  Resumes 0] with
  | Some s =>
      logins s = 2%nat
      /\ token s = VString (js "second")
      /\ sent s = [js "Bearer second"]
  | None => False
  end.
Proof. vm_compute. repeat split; reflexivity. Qed.

Lemma noLoginPending_insert s i p token' logins' sent' :
  noLoginPending s -> p <> AwaitLogin ->
  noLoginPending {| token := token'; calls := <[i := p]> (calls s);
                    logins := logins'; sent := sent' |}.
Proof.
  unfold noLoginPending. cbn [calls]. intros Hs Hp. apply Forall_insert; assumption.
Qed.

(** What [sendGet] changes. *)
Lemma sendGet_effect i s :
  noLoginPending s ->
  token (sendGet i s) = token s
  /\ logins (sendGet i s) = logins s
  /\ noLoginPending (sendGet i s)
  /\ exists new, sent (sendGet i s) = new ++ sent s
                 /\ Forall (fun header => bearer (token s) = Normal header) new.
Proof.
  intros Hs. unfold sendGet.
  destruct (bearer (token s)) as [header|message] eqn:Hbearer; cbn [token logins sent].
  - split; [reflexivity|]. split; [reflexivity|].
    split; [apply noLoginPending_insert; [exact Hs | discriminate]|].
    exists [header]. split; [reflexivity|]. constructor; [reflexivity | constructor].
  - split; [reflexivity|]. split; [reflexivity|].
    split; [apply noLoginPending_insert; [exact Hs | discriminate]|].
    exists []. split; [reflexivity | constructor].
Qed.

Lemma step_holds s e s' :
  ToBoolean (token s) = true -> noLoginPending s -> step s e = Some s' ->
  token s' = token s
  /\ logins s' = logins s
  /\ noLoginPending s'
  /\ exists new, sent s' = new ++ sent s
                 /\ Forall (fun header => bearer (token s) = Normal header) new.
Proof.
  intros Htoken Hs Hstep.
  assert (Hsame : forall i p, p <> AwaitLogin ->
            let s1 := {| token := token s; calls := <[i := p]> (calls s);
                         logins := logins s; sent := sent s |} in
            token s1 = token s /\ logins s1 = logins s /\ noLoginPending s1
            /\ exists new, sent s1 = new ++ sent s
                  /\ Forall (fun header => bearer (token s) = Normal header) new).
  { intros i p Hp. cbn. split; [reflexivity|]. split; [reflexivity|].
    split; [apply noLoginPending_insert; assumption|].
    exists []. split; [reflexivity | constructor]. }
  destruct e as [|i reply|i|i reply]; cbn [step] in Hstep.
  - rewrite Htoken in Hstep. cbn [negb] in Hstep. injection Hstep as <-.
    apply (sendGet_effect (length (calls s))
             {| token := token s; calls := calls s ++ [AwaitGet];
                logins := logins s; sent := sent s |}).
    unfold noLoginPending. cbn [calls]. apply Forall_app. split; [exact Hs|].
    constructor; [discriminate | constructor].
  - destruct (calls s !! i) as [p|] eqn:Hp; [|discriminate Hstep].
    destruct p; try discriminate Hstep. exfalso.
    exact (Forall_lookup_1 _ _ _ _ Hs Hp eq_refl).
  - destruct (calls s !! i) as [p|] eqn:Hp; [|discriminate Hstep].
    destruct p as [|[ended|message]| |result]; try discriminate Hstep;
      injection Hstep as <-.
    + apply (sendGet_effect i s Hs).
    + apply (Hsame i (Settled (Throw message))). discriminate.
  - destruct (calls s !! i) as [p|] eqn:Hp; [|discriminate Hstep].
    destruct p; try discriminate Hstep. injection Hstep as <-.
    apply (Hsame i (Settled (checked reply))). discriminate.
Qed.

(** X17. Once the service holds a truthy token and no call is waiting
    for a login, the token is never replaced and no login is posted
    again: whatever calls are made from then on, however they overlap
    and whatever the source answers, also when it turns the token away,
    every GET goes out with that token. *)
Theorem token_never_renewed : forall events s s',
  ToBoolean (token s) = true ->
  noLoginPending s ->
  run s events = Some s' ->
  token s' = token s
  /\ logins s' = logins s
  /\ noLoginPending s'
  /\ exists new, sent s' = new ++ sent s
                 /\ Forall (fun header => bearer (token s) = Normal header) new.
Proof.
  induction events as [|e events IH]; intros s s' Htoken Hs Hrun; cbn [run] in Hrun.
  - injection Hrun as <-. split; [reflexivity|]. split; [reflexivity|].
    split; [exact Hs|]. exists []. split; [reflexivity | constructor].
  - destruct (step s e) as [s1|] eqn:Hstep; [|discriminate Hrun].
    destruct (step_holds s e s1 Htoken Hs Hstep) as (Ht1 & Hl1 & Hs1 & new1 & Hsent1 & Hnew1).
    destruct (IH s1 s' ltac:(rewrite Ht1; exact Htoken) Hs1 Hrun)
      as (Ht & Hl & Hs' & new & Hsent & Hnew).
    split; [congruence|]. split; [congruence|]. split; [exact Hs'|].
    exists (new ++ new1). rewrite Hsent, Hsent1, app_assoc. split; [reflexivity|].
    apply Forall_app. split; [|exact Hnew1].
    rewrite Ht1 in Hnew. exact Hnew.
Qed.

Lemma token_never_renewed_witness :
  match run loggedIn [Called; Resumes 0; GetSettles 1 unauthorized; Called;
                      GetSettles 0 unauthorized] with
  | Some s =>
      token s = VString (js "t0k3n")
      /\ logins s = 1%nat
      /\ sent s = [js "Bearer t0k3n"; js "Bearer t0k3n"; js "Bearer t0k3n"]
  | None => False
  end.
Proof.
  destruct (run loggedIn [Called; Resumes 0; GetSettles 1 unauthorized; Called;
                          GetSettles 0 unauthorized]) as [s|] eqn:Hrun;
    [|vm_compute in Hrun; discriminate Hrun].
  assert (Hpending : noLoginPending loggedIn)
    by (constructor; [discriminate | constructor]).
  destruct (token_never_renewed _ loggedIn s eq_refl Hpending Hrun) as (Ht & Hl & _).
  split; [exact Ht|]. split; [exact Hl|].
  vm_compute in Hrun. injection Hrun as <-. reflexivity.
Defined.

End Pollution.
